(** * Resilience core of the financial-data gateway

    A shallow embedding of the dispatch and resilience code of
    [financial-data-mcp/src/resilience]: the market classifier
    ([market-router.ts]), the market-aware source router
    ([source-router.ts]), the circuit breaker ([circuit-breaker.ts]), the
    key manager ([api-key-manager.ts]), the error classifier
    ([error-detection.ts]), the cascading dispatcher
    ([resilient-api-client.ts]) and the backoff computation
    ([api-retry.ts]).

    Conventions.
    - JavaScript strings are modelled as [string] (8-bit characters): the
      model covers ASCII text, which is what symbols, provider tags, tool
      names and error messages are made of.
    - [Date.now()] is a clock of type [Z] (milliseconds) threaded through
      the state; it only moves across an [await].
    - A [Map] is a [gmap]; an array is a [list].  A lookup in an object
      literal also finds the properties inherited from [Object.prototype]
      ([ToolTable]).
    - A rejected promise / thrown value is a value of type [Thrown]. *)

From Stdlib Require Import ZArith QArith Qround Qpower Lia Lqa Bool List Ascii String.
From stdpp Require Import base option list gmap strings pretty.

Local Open Scope string_scope.
Local Open Scope Z_scope.

(** ** JavaScript string primitives (ASCII) *)

Module Js.

Definition chars (s : string) : list ascii := list_ascii_of_string s.

Definition code (c : ascii) : nat := nat_of_ascii c.

(** [\d] *)
Definition isDigit (c : ascii) : bool :=
  ((48 <=? code c) && (code c <=? 57))%nat.

(** [[A-Z]] *)
Definition isUpper (c : ascii) : bool :=
  ((65 <=? code c) && (code c <=? 90))%nat.

(** [[a-z]] *)
Definition isLower (c : ascii) : bool :=
  ((97 <=? code c) && (code c <=? 122))%nat.

Definition upperChar (c : ascii) : ascii :=
  if isLower c then ascii_of_nat (code c - 32) else c.

Definition lowerChar (c : ascii) : ascii :=
  if isUpper c then ascii_of_nat (code c + 32) else c.

(** [s.toUpperCase()] on ASCII text.  Characters outside ASCII are left
    alone here, where JavaScript maps some of them (U+00DF becomes [SS],
    U+017F becomes [S]): what is stated of the case of a symbol is stated
    of ASCII symbols ([isAscii]). *)
Definition toUpperCase (s : string) : string :=
  string_of_list_ascii (map upperChar (chars s)).

(** [s.toLowerCase()] *)
Definition toLowerCase (s : string) : string :=
  string_of_list_ascii (map lowerChar (chars s)).

Definition eqChar (a b : ascii) : bool := Ascii.eqb a b.

(** [p] is a prefix of [l] *)
Fixpoint startsWithL (p l : list ascii) : bool :=
  match p, l with
  | [], _ => true
  | _ :: _, [] => false
  | a :: p', b :: l' => eqChar a b && startsWithL p' l'
  end.

(** [s.startsWith(p)] *)
Definition startsWith (s p : string) : bool := startsWithL (chars p) (chars s).

(** [s.endsWith(suffix)] *)
Definition endsWith (s suffix : string) : bool :=
  startsWithL (rev (chars suffix)) (rev (chars s)).

Fixpoint includesL (l sub : list ascii) : bool :=
  startsWithL sub l ||
  match l with
  | [] => false
  | _ :: l' => includesL l' sub
  end.

(** [s.includes(sub)] *)
Definition includes (s sub : string) : bool := includesL (chars s) (chars sub).

(** [s.replace(/\D/g, '')] *)
Definition stripNonDigits (s : string) : string :=
  string_of_list_ascii (filter (fun c => Is_true (isDigit c)) (chars s)).

(** [/^\d{n}$/.test(s)] *)
Definition isDigits (n : nat) (s : string) : bool :=
  (length (chars s) =? n)%nat && forallb isDigit (chars s).

(** [/^[A-Z]{lo,hi}$/.test(s)] *)
Definition isUpperLetters (lo hi : nat) (s : string) : bool :=
  ((lo <=? length (chars s)) && (length (chars s) <=? hi))%nat
  && forallb isUpper (chars s).

(** [new RegExp('^' + tag + '\\d{6}$', 'i').test(s)] for a tag made of
    letters: the tag, compared case-insensitively, then exactly six digits. *)
Definition isTagThenDigits6 (tag s : string) : bool :=
  let t := chars tag in
  let l := chars s in
  startsWithL (map upperChar t) (map upperChar (take (length t) l))
  && (length t <=? length l)%nat
  && (length (drop (length t) l) =? 6)%nat
  && forallb isDigit (drop (length t) l).

(** [s.trim()]: white space is TAB, LF, VT, FF, CR and SPACE *)
Definition isSpace (c : ascii) : bool :=
  ((9 <=? code c) && (code c <=? 13) || (code c =? 32))%nat.

Fixpoint trimStartL (l : list ascii) : list ascii :=
  match l with
  | c :: l' => if isSpace c then trimStartL l' else l
  | [] => []
  end.

Definition trim (s : string) : string :=
  string_of_list_ascii (rev (trimStartL (rev (trimStartL (chars s))))).

(** [s.split(',')] *)
Fixpoint splitL (sep : ascii) (cur : list ascii) (l : list ascii) : list string :=
  match l with
  | [] => [string_of_list_ascii (rev cur)]
  | c :: l' =>
      if eqChar c sep then string_of_list_ascii (rev cur) :: splitL sep [] l'
      else splitL sep (c :: cur) l'
  end.

Definition split (sep : ascii) (s : string) : list string := splitL sep [] (chars s).

(** [parts.join(sep)] *)
Fixpoint join (sep : string) (parts : list string) : string :=
  match parts with
  | [] => EmptyString
  | [p] => p
  | p :: rest => p ++ sep ++ join sep rest
  end.

(** [arr.includes(x)] on an array of strings *)
Definition includesStr (arr : list string) (x : string) : bool :=
  existsb (String.eqb x) arr.

(** truthiness of a string: the empty string is falsy *)
Definition truthy (s : string) : bool := negb (String.eqb s EmptyString).

(** every character of the string is an ASCII character *)
Definition isAscii (s : string) : bool :=
  forallb (fun c => (code c <? 128)%nat) (chars s).

End Js.

(** ** market-router.ts *)

Inductive Market := US | SH | SZ | BJ | HK | UNKNOWN.

Module MarketRouter.

(** the [if (code.length === 6) { ... }] block: each branch returns, and
    a six-digit code with another first digit falls through *)
Definition sixDigitRule (code : string) : option Market :=
  if (String.length code =? 6)%nat then
    let prefix := String.substring 0 1 code in
    if String.eqb prefix "6" || String.eqb prefix "5" then Some SH
    else if String.eqb prefix "0" || String.eqb prefix "3" || String.eqb prefix "2" then Some SZ
    else if String.eqb prefix "4" || String.eqb prefix "8" then Some BJ
    else None
  else None.

Definition getMarketFromSymbol (symbol : string) : Market :=
  let upper := Js.toUpperCase symbol in
  if Js.endsWith upper ".SH" || Js.endsWith upper ".SS" then SH
  else if Js.endsWith upper ".SZ" then SZ
  else if Js.endsWith upper ".BJ" then BJ
  else if Js.endsWith upper ".HK" then HK
  else if Js.endsWith upper ".US" || Js.endsWith upper ".N" || Js.endsWith upper ".O" then US
  else if Js.isTagThenDigits6 "SH" symbol then SH
  else if Js.isTagThenDigits6 "SZ" symbol then SZ
  else if Js.isTagThenDigits6 "BJ" symbol then BJ
  else
    let code := Js.stripNonDigits symbol in
    match sixDigitRule code with
    | Some m => m
    | None =>
        if (String.length code =? 5)%nat && Js.isDigits 5 code then HK
        else if Js.isUpperLetters 1 5 symbol then US
        else UNKNOWN
    end.

End MarketRouter.

(** The classifier as the specification words it: suffix rules first
  (case-insensitive), then bare 1-5 uppercase letters, then six-digit
  codes by first digit, then five-digit codes, otherwise UNKNOWN. *)
Module MarketSpec.

Definition firstDigitRule (symbol : string) : Market :=
  let d := String.substring 0 1 symbol in
  if String.eqb d "6" || String.eqb d "5" then SH
  else if String.eqb d "0" || String.eqb d "2" || String.eqb d "3" then SZ
  else if String.eqb d "4" || String.eqb d "8" then BJ
  else UNKNOWN.

Definition classify (symbol : string) : Market :=
  let upper := Js.toUpperCase symbol in
  if Js.endsWith upper ".SH" || Js.endsWith upper ".SS" then SH
  else if Js.endsWith upper ".SZ" then SZ
  else if Js.endsWith upper ".BJ" then BJ
  else if Js.endsWith upper ".HK" then HK
  else if Js.isUpperLetters 1 5 symbol then US
  else if Js.isDigits 6 symbol then firstDigitRule symbol
  else if Js.isDigits 5 symbol then HK
  else UNKNOWN.

End MarketSpec.

(** ** source-router.ts (the market-aware router) *)

(** [ApiSource] is a union of string literals: a provider tag is a string. *)
Abbreviation ApiSource := string.

(** [process.env] *)
Abbreviation Env := (gmap string string).

Module SourceRouter.

Definition VALID_SOURCES : list ApiSource :=
  ["finnhub"; "alphavantage"; "twelvedata"; "tiingo"; "sina"; "eastmoney"].

Definition OPTIMAL_SOURCE_MAP : list (string * list ApiSource) :=
  [ ("get_stock_quote", ["finnhub"; "twelvedata"; "tiingo"; "alphavantage"; "sina"; "eastmoney"]);
    ("get_stock_candles", ["twelvedata"; "finnhub"; "tiingo"; "sina"; "eastmoney"]);
    ("get_stock_price_history", ["twelvedata"; "finnhub"; "tiingo"; "alphavantage"; "sina"; "eastmoney"]);
    ("get_technical_indicator", ["twelvedata"; "alphavantage"]);
    ("get_daily_prices", ["tiingo"; "alphavantage"; "twelvedata"; "sina"; "eastmoney"]);
    ("get_news", ["tiingo"; "finnhub"]);
    ("get_quote", ["twelvedata"; "tiingo"; "alphavantage"; "sina"; "eastmoney"]);
    ("get_company_overview", ["tiingo"; "alphavantage"]);
    ("get_company_info", ["finnhub"; "alphavantage"; "tiingo"]);
    ("get_financials", ["finnhub"; "alphavantage"]);
    ("get_company_basic_financials", ["finnhub"]);
    ("get_company_metrics", ["finnhub"]);
    ("get_income_statement", ["alphavantage"]);
    ("get_balance_sheet", ["alphavantage"]);
    ("get_cash_flow", ["alphavantage"]) ].

(** The own entry of a priority table for [toolName].  The tables are
    object literals, so [OPTIMAL_SOURCE_MAP[toolName]] also finds the
    properties every object inherits from [Object.prototype]: the full
    lookup is [ToolTable.get]. *)
Fixpoint lookupTool (table : list (string * list ApiSource)) (toolName : string)
  : option (list ApiSource) :=
  match table with
  | [] => None
  | (t, srcs) :: rest => if String.eqb t toolName then Some srcs else lookupTool rest toolName
  end.

Definition MARKET_SOURCE_FILTER (m : Market) : list ApiSource :=
  match m with
  | US => ["finnhub"; "twelvedata"; "tiingo"; "alphavantage"]
  | SH => ["sina"; "eastmoney"]
  | SZ => ["sina"; "eastmoney"]
  | BJ => ["sina"; "eastmoney"]
  | HK => ["finnhub"; "twelvedata"; "sina"]
  | UNKNOWN => ["finnhub"; "alphavantage"; "sina"; "eastmoney"]
  end.

Definition parseSourcePriorityEnv (env : Env) (toolName : string) : option (list ApiSource) :=
  let envKey := "SOURCE_PRIORITY_" ++ Js.toUpperCase toolName in
  match env !! envKey with
  | None => None
  | Some envValue =>
      if negb (Js.truthy envValue) then None
      else
        let sources :=
          List.filter (Js.includesStr VALID_SOURCES)
            (map (fun s => Js.toLowerCase (Js.trim s)) (Js.split "," envValue)) in
        if (length sources =? 0)%nat then None else Some sources
  end.

Record t := { customPriorities : gmap string (list ApiSource) }.

(** [loadCustomPriorities], run by the constructor *)
Definition loadCustomPriorities (env : Env) : gmap string (list ApiSource) :=
  fold_left
    (fun acc toolName =>
       match parseSourcePriorityEnv env toolName with
       | Some custom => <[toolName := custom]> acc
       | None => acc
       end)
    (map fst OPTIMAL_SOURCE_MAP) ∅.

Definition new (env : Env) : t := {| customPriorities := loadCustomPriorities env |}.

(** the list the tool starts from: custom priority, else the default
    entry, else [['finnhub']].  This is the array [sources] holds for
    every tool name but the property names of [Object.prototype], for
    which it holds the inherited value ([Routing.baseSources]). *)
Definition baseSources (r : t) (toolName : string) : list ApiSource :=
  match customPriorities r !! toolName with
  | Some custom => custom
  | None =>
      match lookupTool OPTIMAL_SOURCE_MAP toolName with
      | Some defaults => defaults
      | None => ["finnhub"]
      end
  end.

(** The array [getSourcesForTool] works on and returns when [sources]
    starts as an array; [Routing.getSourcesForTool] is the method on every
    tool name, with the inherited values and the [TypeError]. *)
Definition getSourcesForTool (r : t) (toolName : string) (symbol : option string)
  : list ApiSource :=
  let sources := baseSources r toolName in
  match symbol with
  | Some sym =>
      if Js.truthy sym then
        let market := MarketRouter.getMarketFromSymbol sym in
        let marketSources := MARKET_SOURCE_FILTER market in
        let sources := List.filter (Js.includesStr marketSources) sources in
        if (length sources =? 0)%nat then marketSources else sources
      else sources
  | None => sources
  end.

Definition getDefaultSources (toolName : string) : list ApiSource :=
  match lookupTool OPTIMAL_SOURCE_MAP toolName with
  | Some defaults => defaults
  | None => ["finnhub"]
  end.

Definition hasCustomPriority (r : t) (toolName : string) : bool :=
  bool_decide (is_Some (customPriorities r !! toolName)).

End SourceRouter.

(** ** types.ts *)

(** The numeric settings are whole numbers.  ([loadResilienceConfig] reads
    them with [parseInt], which gives a whole number or, on a malformed
    variable, NaN; a NaN setting is not represented.) *)
Record ResilienceConfig := {
  apiFailoverEnabled : bool;
  primaryApiSource : ApiSource;
  secondaryApiSource : ApiSource;
  tertiaryApiSource : option ApiSource;
  quaternaryApiSource : option ApiSource;
  retryEnabled : bool;
  retryMaxAttempts : Z;
  retryInitialDelayMs : Z;
  retryMaxDelayMs : Z;
  apiTimeoutMs : Z;
  finnhubTimeoutMs : option Z;
  alphavantageTimeoutMs : option Z;
  circuitBreakerEnabled : bool;
  circuitBreakerFailureThreshold : Z;
  circuitBreakerTimeoutMs : Z;
  circuitBreakerHalfOpenAttempts : Z;
  keyRotationEnabled : bool;
  keyRotationResetWindowMs : Z
}.

(** [DEFAULT_RESILIENCE_CONFIG] of resilient-api-client.ts *)
Definition DEFAULT_RESILIENCE_CONFIG : ResilienceConfig := {|
  apiFailoverEnabled := true;
  primaryApiSource := "finnhub";
  secondaryApiSource := "alphavantage";
  tertiaryApiSource := None;
  quaternaryApiSource := None;
  retryEnabled := true;
  retryMaxAttempts := 3;
  retryInitialDelayMs := 1000;
  retryMaxDelayMs := 10000;
  apiTimeoutMs := 30000;
  finnhubTimeoutMs := None;
  alphavantageTimeoutMs := None;
  circuitBreakerEnabled := true;
  circuitBreakerFailureThreshold := 5;
  circuitBreakerTimeoutMs := 60000;
  circuitBreakerHalfOpenAttempts := 3;
  keyRotationEnabled := true;
  keyRotationResetWindowMs := 3600000
|}.

(** A thrown value: an [Error] instance, with its message and its optional
    [code] property, or any other value. *)
Inductive Thrown :=
| ErrorObj (message : string) (code : option string)
| NonError (value : string).

(** How a promise settles. *)
Inductive Result (T : Type) :=
| Ok (v : T)
| Throw (e : Thrown).
Arguments Ok {T} v.
Arguments Throw {T} e.

(** An asynchronous call [() => Promise<T>]: started at a time, it settles
    with a result after [elapsed] milliseconds. *)
Record Settled (T : Type) := { res : Result T; elapsed : Z }.
Arguments res {T} s.
Arguments elapsed {T} s.

Abbreviation AsyncFn T := (Z -> Settled T).

(** [Math.ceil(x / 1000)] on an integer number of milliseconds *)
Definition ceilSeconds (ms : Z) : Z := - ((- ms) / 1000).

(** ** circuit-breaker.ts *)

Inductive CircuitState := CLOSED | OPEN | HALF_OPEN.

Module CircuitBreaker.

Record t := {
  circuitState : CircuitState;
  failureCount : Z;
  lastFailureTime : Z;
  lastStateChange : Z;
  config : ResilienceConfig;
  apiName : string
}.

(** the constructor; [logEvent] only writes to the console *)
Definition new (apiName : string) (config : ResilienceConfig) : t := {|
  circuitState := CLOSED;
  failureCount := 0;
  lastFailureTime := 0;
  lastStateChange := 0;
  config := config;
  apiName := apiName
|}.

Definition isOpen (s : CircuitState) : bool :=
  match s with OPEN => true | _ => false end.

Definition isClosed (s : CircuitState) : bool :=
  match s with CLOSED => true | _ => false end.

Definition onSuccess (cb : t) (now : Z) : t :=
  let cb1 := {| circuitState := circuitState cb; failureCount := 0;
                lastFailureTime := lastFailureTime cb;
                lastStateChange := lastStateChange cb;
                config := config cb; apiName := apiName cb |} in
  if negb (isClosed (circuitState cb1)) then
    {| circuitState := CLOSED; failureCount := failureCount cb1;
       lastFailureTime := lastFailureTime cb1;
       lastStateChange := now;
       config := config cb1; apiName := apiName cb1 |}
  else cb1.

Definition onFailure (cb : t) (now : Z) : t :=
  let cb1 := {| circuitState := circuitState cb;
                failureCount := failureCount cb + 1;
                lastFailureTime := now;
                lastStateChange := lastStateChange cb;
                config := config cb; apiName := apiName cb |} in
  let threshold := circuitBreakerFailureThreshold (config cb1) in
  if (threshold <=? failureCount cb1) && negb (isOpen (circuitState cb1)) then
    {| circuitState := OPEN; failureCount := failureCount cb1;
       lastFailureTime := lastFailureTime cb1;
       lastStateChange := now;
       config := config cb1; apiName := apiName cb1 |}
  else cb1.

(** What a call through the breaker did: the settled result, the breaker
    as it stood while [fn] was pending ([None] when [fn] was not invoked),
    and the breaker afterwards. *)
Record Run (T : Type) := {
  result : Result T;
  atCall : option t;
  after : t
}.
Arguments result {T} r.
Arguments atCall {T} r.
Arguments after {T} r.

Definition circuitOpenError (message : string) : Thrown :=
  ErrorObj message (Some "CIRCUIT_OPEN").

(** the [try { await fn(); onSuccess() } catch { onFailure(); throw }] block *)
Definition guarded {T} (cb : t) (now : Z) (fn : AsyncFn T) : Run T :=
  let s := fn now in
  match res s with
  | Ok v => {| result := Ok v; atCall := Some cb; after := onSuccess cb (now + elapsed s) |}
  | Throw e => {| result := Throw e; atCall := Some cb; after := onFailure cb (now + elapsed s) |}
  end.

Definition execute {T} (cb : t) (now : Z) (fn : AsyncFn T) : Run T :=
  if negb (circuitBreakerEnabled (config cb)) then
    {| result := res (fn now); atCall := Some cb; after := cb |}
  else if isOpen (circuitState cb) then
    let timeUntilHalfOpen := circuitBreakerTimeoutMs (config cb) - (now - lastFailureTime cb) in
    {| result := Throw (circuitOpenError
                   ("Circuit breaker is OPEN for " ++ apiName cb ++ ". " ++
                    "Retry after " ++ pretty (ceilSeconds timeUntilHalfOpen) ++ "s"));
       atCall := None; after := cb |}
  else guarded cb now fn.

Definition testRecovery {T} (cb : t) (now : Z) (fn : AsyncFn T) : Run T :=
  if negb (isOpen (circuitState cb)) then
    {| result := res (fn now); atCall := Some cb; after := cb |}
  else
    let timeSinceOpen := now - lastFailureTime cb in
    if circuitBreakerTimeoutMs (config cb) <=? timeSinceOpen then
      let cb1 := {| circuitState := HALF_OPEN; failureCount := failureCount cb;
                    lastFailureTime := lastFailureTime cb;
                    lastStateChange := now;
                    config := config cb; apiName := apiName cb |} in
      guarded cb1 now fn
    else
      {| result := Throw (circuitOpenError
                     ("Circuit breaker is still OPEN for " ++ apiName cb ++ ". " ++
                      "Wait " ++ pretty (ceilSeconds (circuitBreakerTimeoutMs (config cb) - timeSinceOpen))
                      ++ "s before recovery test"));
         atCall := None; after := cb |}.

Definition forceOpen (cb : t) (now : Z) : t :=
  {| circuitState := OPEN; failureCount := failureCount cb;
     lastFailureTime := now; lastStateChange := now;
     config := config cb; apiName := apiName cb |}.

Definition forceClose (cb : t) (now : Z) : t :=
  {| circuitState := CLOSED; failureCount := 0;
     lastFailureTime := lastFailureTime cb; lastStateChange := now;
     config := config cb; apiName := apiName cb |}.

Definition reset (cb : t) (now : Z) : t :=
  {| circuitState := CLOSED; failureCount := 0;
     lastFailureTime := 0; lastStateChange := now;
     config := config cb; apiName := apiName cb |}.

(** A sequence of calls through [execute], each started at its own time
    and settled before the next one starts (calls do not overlap). *)
Fixpoint executeAll {T} (cb : t) (calls : list (Z * AsyncFn T)) : t :=
  match calls with
  | [] => cb
  | (now, fn) :: rest => executeAll (after (execute cb now fn)) rest
  end.

(** The call, started at its time, fails. *)
Definition fails {T} (call : Z * AsyncFn T) : Prop :=
  exists e, res (snd call (fst call)) = Throw e.

End CircuitBreaker.

(** ** api-key-manager.ts *)

Record ApiKeyInfo := {
  key : string;
  index : nat;
  usageCount : nat;
  lastUsed : Z;
  inCooldown : bool;
  cooldownUntil : option Z;
  lastRateLimitError : option Z
}.

(** What [getNextKey] does: it returns a copy of a key, returns [null], or
    raises a [TypeError] on reading [inCooldown] of [undefined] (only when
    the current index does not address a key). *)
Inductive KeyResult :=
| KeyFound (info : ApiKeyInfo)
| KeyNull
| KeyTypeError.

Module KeyManager.

Definition ENV_VAR_MAP (apiName : string) : option string :=
  if String.eqb apiName "finnhub" then Some "FINNHUB_API_KEY"
  else if String.eqb apiName "alphavantage" then Some "ALPHAVANTAGE_API_KEY"
  else if String.eqb apiName "twelvedata" then Some "TWELVEDATA_API_KEY"
  else if String.eqb apiName "tiingo" then Some "TIINGO_API_KEY"
  else None.

Record t := {
  keys : gmap string (list ApiKeyInfo);
  currentIndexes : gmap string nat;
  config : ResilienceConfig;
  apiName : string
}.

Definition setKeys (km : t) (name : string) (ks : list ApiKeyInfo) : t :=
  {| keys := <[name := ks]> (keys km); currentIndexes := currentIndexes km;
     config := config km; apiName := apiName km |}.

Definition setCurrentIndex (km : t) (name : string) (i : nat) : t :=
  {| keys := keys km; currentIndexes := <[name := i]> (currentIndexes km);
     config := config km; apiName := apiName km |}.

Definition freshKey (k : string) (i : nat) : ApiKeyInfo :=
  {| key := k; index := i; usageCount := 0; lastUsed := 0; inCooldown := false;
     cooldownUntil := None; lastRateLimitError := None |}.

(** [keyArray.map((key, index) => ({ key, index, ... }))] *)
Definition freshKeys (keyArray : list string) : list ApiKeyInfo :=
  imap (fun i k => freshKey k i) keyArray.

Definition initializeKeys (km : t) (env : Env) (apiName : string) : t :=
  match ENV_VAR_MAP apiName with
  | None => km
  | Some envVar =>
      match env !! envVar with
      | None => km
      | Some keyEnv =>
          if negb (Js.truthy keyEnv) || negb (Js.truthy (Js.trim keyEnv)) then km
          else if Js.includes keyEnv "," then
            let keyArray :=
              List.filter (fun k => (0 <? String.length k)%nat)
                (map Js.trim (Js.split "," keyEnv)) in
            setCurrentIndex (setKeys km apiName (freshKeys keyArray)) apiName 0
          else
            setCurrentIndex (setKeys km apiName [freshKey (Js.trim keyEnv) 0]) apiName 0
      end
  end.

Definition new (env : Env) (apiName : string) (config : ResilienceConfig) : t :=
  initializeKeys {| keys := ∅; currentIndexes := ∅; config := config; apiName := apiName |}
    env apiName.

(** [this.currentIndexes.get(apiName) || 0] *)
Definition getCurrentKeyIndex (km : t) (apiName : string) : nat :=
  default 0%nat (currentIndexes km !! apiName).

(** the [for] loop of [getNextKey]; [fuel] is [maxAttempts - attempt] *)
Fixpoint getNextKeyLoop (ks : list ApiKeyInfo) (fuel : nat) (currentIndex : nat)
  : option nat + unit :=
  match fuel with
  | O => inl None
  | S fuel' =>
      match ks !! currentIndex with
      | None => inr tt
      | Some k =>
          if negb (inCooldown k) then inl (Some currentIndex)
          else getNextKeyLoop ks fuel' ((currentIndex + 1) mod length ks)%nat
      end
  end.

Definition getNextKey (km : t) (apiName : string) : KeyResult * t :=
  match keys km !! apiName with
  | None => (KeyNull, km)
  | Some ks =>
      if (length ks =? 0)%nat then (KeyNull, km)
      else
        let currentIndex := getCurrentKeyIndex km apiName in
        let maxAttempts := (length ks * 2)%nat in
        match getNextKeyLoop ks maxAttempts currentIndex with
        | inr _ => (KeyTypeError, km)
        | inl None => (KeyNull, km)
        | inl (Some i) =>
            match ks !! i with
            | Some k => (KeyFound k, setCurrentIndex km apiName i)
            | None => (KeyTypeError, km)
            end
        end
  end.

(** update [keys[keyIndex]] of the manager's own pool in place *)
Definition updateKey (km : t) (keyIndex : nat) (f : ApiKeyInfo -> ApiKeyInfo) : t :=
  match keys km !! apiName km with
  | None => km
  | Some ks =>
      match ks !! keyIndex with
      | None => km
      | Some k => setKeys km (apiName km) (<[keyIndex := f k]> ks)
      end
  end.

Definition markRateLimit (km : t) (now : Z) (keyIndex : nat) : t :=
  updateKey km keyIndex (fun k =>
    {| key := key k; index := index k; usageCount := usageCount k; lastUsed := lastUsed k;
       inCooldown := true;
       cooldownUntil := Some (now + keyRotationResetWindowMs (config km));
       lastRateLimitError := Some now |}).

Definition recordUsage (km : t) (now : Z) (keyIndex : nat) : t :=
  match keys km !! apiName km with
  | None => km
  | Some ks =>
      if (length ks <=? keyIndex)%nat then km
      else
        setCurrentIndex
          (updateKey km keyIndex (fun k =>
             {| key := key k; index := index k; usageCount := S (usageCount k);
                lastUsed := now; inCooldown := inCooldown k;
                cooldownUntil := cooldownUntil k;
                lastRateLimitError := lastRateLimitError k |}))
          (apiName km) keyIndex
  end.

Definition resetCooldown (km : t) (keyIndex : nat) : t :=
  updateKey km keyIndex (fun k =>
    {| key := key k; index := index k; usageCount := usageCount k; lastUsed := lastUsed k;
       inCooldown := false; cooldownUntil := None;
       lastRateLimitError := lastRateLimitError k |}).

(** [key.inCooldown && key.cooldownUntil && now >= key.cooldownUntil]:
    an undefined or zero [cooldownUntil] is falsy *)
Definition cooldownExpired (now : Z) (k : ApiKeyInfo) : bool :=
  inCooldown k &&
  match cooldownUntil k with
  | Some until => negb (until =? 0) && (until <=? now)
  | None => false
  end.

(** the [keys.forEach] of [checkAndResetCooldowns], over the indexes *)
Fixpoint sweep (km : t) (now : Z) (indexes : list nat) : t :=
  match indexes with
  | [] => km
  | i :: rest =>
      let km' :=
        match keys km !! apiName km with
        | Some ks =>
            match ks !! i with
            | Some k => if cooldownExpired now k then resetCooldown km i else km
            | None => km
            end
        | None => km
        end in
      sweep km' now rest
  end.

Definition checkAndResetCooldowns (km : t) (now : Z) : t :=
  match keys km !! apiName km with
  | None => km
  | Some ks => sweep km now (seq 0 (length ks))
  end.

Definition getKeyInfo (km : t) (apiName : string) : list ApiKeyInfo :=
  default [] (keys km !! apiName).

Definition getAvailableKeyCount (km : t) : nat :=
  match keys km !! apiName km with
  | None => 0%nat
  | Some ks => length (List.filter (fun k => negb (inCooldown k)) ks)
  end.

Definition getTotalKeyCount (km : t) : nat :=
  match keys km !! apiName km with
  | None => 0%nat
  | Some ks => length ks
  end.

Definition hasAvailableKey (km : t) (now : Z) : bool * t :=
  let km' := checkAndResetCooldowns km now in
  ((0 <? getAvailableKeyCount km')%nat, km').

(** the [do ... while (currentIndex !== startIndex)] loop of [rotateKey];
    from a start index inside the pool it ends within [length ks] rounds *)
Fixpoint rotateLoop (ks : list ApiKeyInfo) (fuel : nat) (currentIndex startIndex : nat)
  : option nat :=
  match fuel with
  | O => None
  | S fuel' =>
      let currentIndex := ((currentIndex + 1) mod length ks)%nat in
      match ks !! currentIndex with
      | Some k =>
          if negb (inCooldown k) then Some currentIndex
          else if (currentIndex =? startIndex)%nat then None
          else rotateLoop ks fuel' currentIndex startIndex
      | None => None
      end
  end.

Definition rotateKey (km : t) : bool * t :=
  match keys km !! apiName km with
  | None => (false, km)
  | Some ks =>
      if (length ks <=? 1)%nat then (false, km)
      else
        let currentIndex := getCurrentKeyIndex km (apiName km) in
        match rotateLoop ks (length ks) currentIndex currentIndex with
        | Some i => (true, setCurrentIndex km (apiName km) i)
        | None => (false, km)
        end
  end.

Definition getCurrentKey (km : t) : option string :=
  match keys km !! apiName km with
  | None => None
  | Some ks =>
      match ks !! getCurrentKeyIndex km (apiName km) with
      | Some k => if Js.truthy (key k) then Some (key k) else None
      | None => None
      end
  end.

(** rate-limit marks on the listed key indexes, one after the other *)
Fixpoint markAll (km : t) (marks : list (Z * nat)) : t :=
  match marks with
  | [] => km
  | (now, i) :: rest => markAll (markRateLimit km now i) rest
  end.

End KeyManager.

(** ** error-detection.ts *)

Module ErrorDetection.

Definition RATE_LIMIT_MARKERS : list string :=
  ["429"; "rate limit"; "rate-limit"; "ratelimit"; "too many requests";
   "quota exceeded"; "api limit"; "throttl"].

Definition TRANSIENT_MARKERS : list string :=
  ["500"; "502"; "503"; "504"; "timeout"; "econnreset"; "econnrefused"; "network"].

Definition isRateLimitError (error : Thrown) : bool :=
  match error with
  | NonError _ => false
  | ErrorObj message _ =>
      let message := Js.toLowerCase message in
      existsb (Js.includes message) RATE_LIMIT_MARKERS
  end.

Definition isTransientError (error : Thrown) : bool :=
  match error with
  | NonError _ => false
  | ErrorObj message _ =>
      let message := Js.toLowerCase message in
      existsb (Js.includes message) TRANSIENT_MARKERS
  end.

(** [error instanceof Error] *)
Definition instanceofError (error : Thrown) : bool :=
  match error with
  | ErrorObj _ _ => true
  | NonError _ => false
  end.

Definition shouldRetryWithDifferentKey (error : Thrown) : bool :=
  isRateLimitError error.

Definition shouldFailoverToNextSource (error : Thrown) : bool :=
  isRateLimitError error || isTransientError error || instanceofError error.


End ErrorDetection.

(** ** resilient-api-client.ts *)

Record FailoverAttempt := {
  source : ApiSource;
  keyIndex : nat;
  startTime : Z;
  endTime : Z;
  durationMs : Z;
  success : bool;
  error : option Thrown
}.

(** the field [source] of the result is named [winner] here, [source]
    being the field of an attempt *)
Record CascadingFailoverResult (T : Type) := {
  data : T;
  winner : ApiSource;
  attempts : list FailoverAttempt;
  totalDurationMs : Z
}.
Arguments data {T} c.
Arguments winner {T} c.
Arguments attempts {T} c.
Arguments totalDurationMs {T} c.

(** What the executor can depend on when it is invoked for a source: the
    current key index of the source's key manager (if it has one), the
    number of executor calls made before, and the time. *)
Record ExecView := {
  viewKeyIndex : option nat;
  viewCallsBefore : nat;
  viewNow : Z
}.

(** [SourceExecutor<T>] *)
Abbreviation SourceExecutor T := (ApiSource -> ExecView -> Settled T).

(** One invocation of the executor (a record kept for reasoning only). *)
Record ExecCall := {
  callSource : ApiSource;
  callKeyIndex : option nat;
  callTime : Z
}.

(** How [executeWithCascadingFailover] ends: it returns a result, rethrows
    the error of an attempt (the attempts recorded so far are then dropped
    with the stack frame; they are kept here for reasoning), or throws the
    aggregate error with the attempts attached. *)
Inductive Dispatch (T : Type) :=
| Returned (r : CascadingFailoverResult T)
| Rethrown (e : Thrown) (recorded : list FailoverAttempt)
| AggregateThrown (message : string) (attached : list FailoverAttempt).
Arguments Returned {T} r.
Arguments Rethrown {T} e recorded.
Arguments AggregateThrown {T} message attached.

Module ResilientApiClient.

Record t := {
  circuitBreakers : gmap string CircuitBreaker.t;
  keyManagers : gmap string KeyManager.t;
  config : ResilienceConfig;
  finnhubClient : bool;
  alphavantageClient : bool;
  twelvedataClient : bool;
  tiingoClient : bool
}.

(** The client with the clock and the log of executor invocations. *)
Record State := {
  client : t;
  clock : Z;
  calls : list ExecCall
}.

(** truthiness of the client object of a source; the Sina and East Money
    clients are always constructed *)
Definition getClientForSource (c : t) (source : ApiSource) : bool :=
  if String.eqb source "finnhub" then finnhubClient c
  else if String.eqb source "alphavantage" then alphavantageClient c
  else if String.eqb source "twelvedata" then twelvedataClient c
  else if String.eqb source "tiingo" then tiingoClient c
  else if String.eqb source "sina" then true
  else if String.eqb source "eastmoney" then true
  else finnhubClient c.

Definition setKeyManager (c : t) (source : ApiSource) (km : KeyManager.t) : t :=
  {| circuitBreakers := circuitBreakers c;
     keyManagers := <[source := km]> (keyManagers c);
     config := config c;
     finnhubClient := finnhubClient c; alphavantageClient := alphavantageClient c;
     twelvedataClient := twelvedataClient c; tiingoClient := tiingoClient c |}.

Definition initializeKeyManagers (env : Env) (c : t) : t :=
  fold_left
    (fun c source =>
       if getClientForSource c source
       then setKeyManager c source (KeyManager.new env source (config c))
       else c)
    ["finnhub"; "alphavantage"; "twelvedata"; "tiingo"] c.

(** the constructor; [config] is the merged configuration *)
Definition new (env : Env) (finnhub alphavantage twelvedata tiingo : bool)
    (config : ResilienceConfig) : t :=
  initializeKeyManagers env
    {| circuitBreakers := ∅; keyManagers := ∅; config := config;
       finnhubClient := finnhub; alphavantageClient := alphavantage;
       twelvedataClient := twelvedata; tiingoClient := tiingo |}.

Definition withClient (st : State) (c : t) : State :=
  {| client := c; clock := clock st; calls := calls st |}.

Definition isSourceAvailable (st : State) (source : ApiSource) : bool * State :=
  if negb (getClientForSource (client st) source) then (false, st)
  else
    match keyManagers (client st) !! source with
    | None => (true, st)
    | Some km =>
        let '(b, km') := KeyManager.hasAvailableKey km (clock st) in
        (b, withClient st (setKeyManager (client st) source km'))
    end.

(** [await executor(source)]: the call is logged and the clock moves on *)
Definition invoke {T} (executor : SourceExecutor T) (source : ApiSource)
    (keyIndex : option nat) (st : State) : Result T * State :=
  let s := executor source
             {| viewKeyIndex := keyIndex; viewCallsBefore := length (calls st);
                viewNow := clock st |} in
  (res s,
   {| client := client st;
      clock := clock st + elapsed s;
      calls := (calls st ++ [{| callSource := source; callKeyIndex := keyIndex;
                                callTime := clock st |}])%list |}).

Definition allKeysExhausted (source : ApiSource) : Thrown :=
  ErrorObj ("All keys exhausted for " ++ source) None.

Definition undefinedKeyError : Thrown :=
  ErrorObj "Cannot read properties of undefined (reading 'inCooldown')" None.

(** the [for] loop of [executeWithKeyRotation]; [fuel] is
    [maxKeyAttempts - attempt]; the key manager is written back by the caller *)
Fixpoint keyRotationLoop {T} (executor : SourceExecutor T) (source : ApiSource)
    (fuel : nat) (lastError : option Thrown) (km : KeyManager.t) (st : State)
  : Result T * KeyManager.t * State :=
  match fuel with
  | O => (Throw (default (allKeysExhausted source) lastError), km, st)
  | S fuel' =>
      match KeyManager.getNextKey km source with
      | (KeyNull, km1) => (Throw (default (allKeysExhausted source) lastError), km1, st)
      | (KeyTypeError, km1) => (Throw undefinedKeyError, km1, st)
      | (KeyFound keyInfo, km1) =>
          let '(r, st1) :=
            invoke executor source (Some (KeyManager.getCurrentKeyIndex km1 source)) st in
          match r with
          | Ok result => (Ok result, KeyManager.recordUsage km1 (clock st1) (index keyInfo), st1)
          | Throw e =>
              if ErrorDetection.isRateLimitError e then
                let km2 := KeyManager.markRateLimit km1 (clock st1) (index keyInfo) in
                let '(rotated, km3) := KeyManager.rotateKey km2 in
                if negb rotated then (Throw e, km3, st1)
                else keyRotationLoop executor source fuel' (Some e) km3 st1
              else (Throw e, km1, st1)
          end
      end
  end.

Definition executeWithKeyRotation {T} (executor : SourceExecutor T) (source : ApiSource)
    (st : State) : Result T * State :=
  match keyManagers (client st) !! source with
  | None => invoke executor source None st
  | Some km =>
      let maxKeyAttempts := KeyManager.getTotalKeyCount km in
      let '(r, km', st') := keyRotationLoop executor source maxKeyAttempts None km st in
      (r, withClient st' (setKeyManager (client st') source km'))
  end.

Definition messageOf (e : Thrown) : string :=
  match e with
  | ErrorObj message _ => message
  | NonError _ => EmptyString
  end.

(** [`All sources failed for ${toolName}: ${errors.map(e => e?.message).join(', ')}`] *)
Definition aggregateMessage (toolName : string) (acc : list FailoverAttempt) : string :=
  let errors :=
    omap error (List.filter (fun a => negb (success a)) acc) in
  "All sources failed for " ++ toolName ++ ": " ++ Js.join ", " (map messageOf errors).

(** the [for (const source of sources)] loop of [executeWithCascadingFailover];
    [acc] is the [attempts] array *)
Fixpoint cascade {T} (toolName : string) (executor : SourceExecutor T)
    (overallStartTime : Z) (sources : list ApiSource)
    (acc : list FailoverAttempt) (st : State) : Dispatch T * State :=
  match sources with
  | [] => (AggregateThrown (aggregateMessage toolName acc) acc, st)
  | src :: rest =>
      let '(available, st1) := isSourceAvailable st src in
      if negb available then cascade toolName executor overallStartTime rest acc st1
      else
        let keyIdx :=
          match keyManagers (client st1) !! src with
          | Some km => KeyManager.getCurrentKeyIndex km src
          | None => 0%nat
          end in
        let attemptStart := clock st1 in
        let '(r, st2) := executeWithKeyRotation executor src st1 in
        let attemptEnd := clock st2 in
        match r with
        | Ok d =>
            let acc' := (acc ++
              [{| source := src; keyIndex := keyIdx;
                  startTime := attemptStart; endTime := attemptEnd;
                  durationMs := attemptEnd - attemptStart;
                  success := true; error := None |}])%list in
            (Returned {| data := d; winner := src; attempts := acc';
                         totalDurationMs := clock st2 - overallStartTime |}, st2)
        | Throw e =>
            let acc' := (acc ++
              [{| source := src; keyIndex := keyIdx;
                  startTime := attemptStart; endTime := attemptEnd;
                  durationMs := attemptEnd - attemptStart;
                  success := false; error := Some e |}])%list in
            if negb (ErrorDetection.shouldFailoverToNextSource e)
            then (Rethrown e acc', st2)
            else cascade toolName executor overallStartTime rest acc' st2
        end
  end.

Definition executeWithCascadingFailover {T} (router : SourceRouter.t) (st : State)
    (toolName : string) (executor : SourceExecutor T) (symbol : option string)
  : Dispatch T * State :=
  let sources := SourceRouter.getSourcesForTool router toolName symbol in
  cascade toolName executor (clock st) sources [] st.

(** the attempts a dispatch recorded, however it ended *)
Definition recordedAttempts {T} (d : Dispatch T) : list FailoverAttempt :=
  match d with
  | Returned r => attempts r
  | Rethrown _ recorded => recorded
  | AggregateThrown _ attached => attached
  end.


End ResilientApiClient.

(** ** JavaScript numbers

    A [number] is NaN, an infinity, or a finite value.  Finite values are
    exact rationals and a finite result whose magnitude reaches [2^1024]
    overflows to an infinity, as a double does; the rounding of finite
    results to 53 bits is not modelled. *)

Inductive JsNum :=
| NaN
| PosInf
| NegInf
| Fin (q : Q).

Module Num.

Local Open Scope Q_scope.

Definition OVERFLOW : Q := inject_Z (2 ^ 1024).

(** a finite result, or the infinity it overflows to *)
Definition norm (q : Q) : JsNum :=
  if Qle_bool OVERFLOW q then PosInf
  else if Qle_bool q (- OVERFLOW) then NegInf
  else Fin q.

Definition neg (a : JsNum) : JsNum :=
  match a with
  | NaN => NaN
  | PosInf => NegInf
  | NegInf => PosInf
  | Fin q => Fin (- q)
  end.

(** the sign of an infinity times a finite factor *)
Definition scaleInf (positive : bool) (q : Q) : JsNum :=
  if Qeq_bool q 0 then NaN
  else if Qle_bool 0 q then (if positive then PosInf else NegInf)
  else (if positive then NegInf else PosInf).

Definition mul (a b : JsNum) : JsNum :=
  match a, b with
  | NaN, _ | _, NaN => NaN
  | Fin x, Fin y => norm (x * y)
  | PosInf, Fin y => scaleInf true y
  | NegInf, Fin y => scaleInf false y
  | Fin x, PosInf => scaleInf true x
  | Fin x, NegInf => scaleInf false x
  | PosInf, PosInf | NegInf, NegInf => PosInf
  | PosInf, NegInf | NegInf, PosInf => NegInf
  end.

Definition add (a b : JsNum) : JsNum :=
  match a, b with
  | NaN, _ | _, NaN => NaN
  | Fin x, Fin y => norm (x + y)
  | PosInf, NegInf | NegInf, PosInf => NaN
  | PosInf, _ | _, PosInf => PosInf
  | NegInf, _ | _, NegInf => NegInf
  end.

Definition sub (a b : JsNum) : JsNum := add a (neg b).

(** [Math.min(a, b)] *)
Definition min (a b : JsNum) : JsNum :=
  match a, b with
  | NaN, _ | _, NaN => NaN
  | NegInf, _ | _, NegInf => NegInf
  | PosInf, x | x, PosInf => x
  | Fin x, Fin y => if Qle_bool x y then Fin x else Fin y
  end.

(** [Math.max(a, b)] *)
Definition max (a b : JsNum) : JsNum :=
  match a, b with
  | NaN, _ | _, NaN => NaN
  | PosInf, _ | _, PosInf => PosInf
  | NegInf, x | x, NegInf => x
  | Fin x, Fin y => if Qle_bool x y then Fin y else Fin x
  end.

(** [Math.floor(a)] *)
Definition floor (a : JsNum) : JsNum :=
  match a with
  | Fin q => Fin (inject_Z (Qfloor q))
  | other => other
  end.

(** [Math.pow(2, n)] for an integer [n] *)
Definition pow2 (n : Z) : JsNum := norm (Qpower 2 n).

(** a non-negative integer number of milliseconds *)
Definition isNonNegInteger (a : JsNum) : Prop :=
  exists k : Z, (0 <= k)%Z /\ a = Fin (inject_Z k).

(** [a <= b] for a finite bound [b] *)
Definition atMost (a : JsNum) (b : Q) : Prop :=
  match a with
  | Fin q => q <= b
  | NegInf => True
  | _ => False
  end.

End Num.

(** ** api-retry.ts *)

Module ApiRetry.

(** [calculateBackoffDelay]; [random] is the value drawn by [Math.random()] *)
Definition calculateBackoffDelay (random : Q) (attemptNumber : Z)
    (initialDelayMs maxDelayMs : JsNum) : JsNum :=
  let baseDelay := Num.mul initialDelayMs (Num.pow2 attemptNumber) in
  let jitterPercent := Fin (1 # 4) in
  let jitterRange := Num.mul baseDelay jitterPercent in
  let jitter :=
    Num.mul (Num.mul (Num.sub (Fin random) (Fin (1 # 2))) (Fin 2)) jitterRange in
  let delay := Num.min (Num.add baseDelay jitter) maxDelayMs in
  Num.max (Fin 0) (Num.floor delay).

End ApiRetry.

(** ** Symbol shapes used to compare the classifier with the specification *)

Module Shape.

(** one of the suffixes the specification lists: [.SH], [.SS], [.SZ], [.BJ], [.HK] *)
Definition hasListedSuffix (symbol : string) : bool :=
  let upper := Js.toUpperCase symbol in
  Js.endsWith upper ".SH" || Js.endsWith upper ".SS" || Js.endsWith upper ".SZ"
  || Js.endsWith upper ".BJ" || Js.endsWith upper ".HK".

(** one of the further suffixes the code knows: [.US], [.N], [.O] *)
Definition hasExtraSuffix (symbol : string) : bool :=
  let upper := Js.toUpperCase symbol in
  Js.endsWith upper ".US" || Js.endsWith upper ".N" || Js.endsWith upper ".O".

Definition allDigits (symbol : string) : bool := forallb Js.isDigit (Js.chars symbol).

(** how many digits the symbol contains *)
Definition digitCount (symbol : string) : nat :=
  length (filter (fun c => Is_true (Js.isDigit c)) (Js.chars symbol)).

(** The symbols on which the code has no rule of its own: a listed suffix
    decides, or there is no extra suffix and the digit rules see the
    symbol itself (it is all digits, or it has neither five nor six digits). *)
Definition plain (symbol : string) : Prop :=
  hasListedSuffix symbol = true
  \/ (hasExtraSuffix symbol = false
      /\ (allDigits symbol = true \/ (digitCount symbol <> 5 /\ digitCount symbol <> 6)%nat)).

End Shape.

(** ** Concrete runs used below *)

Definition http500 : AsyncFn nat :=
  fun _ => {| res := Throw (ErrorObj "HTTP 500" None); elapsed := 10 |}.

Definition quoteOk : AsyncFn nat :=
  fun _ => {| res := Ok 7%nat; elapsed := 10 |}.

(** the default breaker after five failed calls: open since time 410 *)
Definition trippedBreaker : CircuitBreaker.t :=
  CircuitBreaker.executeAll (CircuitBreaker.new "finnhub" DEFAULT_RESILIENCE_CONFIG)
    [(0, http500); (100, http500); (200, http500); (300, http500); (400, http500)].

(** ** Key pools in their expected shape *)

Module Pool.

(** the manager's own pool *)
Definition pool (km : KeyManager.t) : list ApiKeyInfo :=
  KeyManager.getKeyInfo km (KeyManager.apiName km).

(** The current index addresses one of the keys of the pool, unless the
    pool is empty. *)
Definition wellFormed (km : KeyManager.t) : Prop :=
  pool km = [] \/
  (KeyManager.getCurrentKeyIndex km (KeyManager.apiName km) < length (pool km))%nat.

(** key [i] of the pool is in cooldown *)
Definition cooled (ks : list ApiKeyInfo) (i : nat) : Prop :=
  exists k, ks !! i = Some k /\ inCooldown k = true.

(** key [i] of the pool is usable *)
Definition usable (ks : list ApiKeyInfo) (i : nat) : Prop :=
  exists k, ks !! i = Some k /\ inCooldown k = false.

(** a key as [resetCooldown] leaves it *)
Definition thaw (k : ApiKeyInfo) : ApiKeyInfo :=
  {| key := key k; index := index k; usageCount := usageCount k; lastUsed := lastUsed k;
     inCooldown := false; cooldownUntil := None;
     lastRateLimitError := lastRateLimitError k |}.

(** A pool of two usable keys whose current key is the first: the shape
    of a pool just built from two credentials. *)
Definition freshPair (src : ApiSource) (km : KeyManager.t) : Prop :=
  exists k0 k1,
    KeyManager.apiName km = src
    /\ KeyManager.keys km !! src = Some [k0; k1]
    /\ KeyManager.getCurrentKeyIndex km src = 0%nat
    /\ inCooldown k0 = false /\ inCooldown k1 = false
    /\ index k0 = 0%nat /\ index k1 = 1%nat.

(** the pool after its first key was acquired and rate limited at time [t] *)
Definition marked (src : ApiSource) (km : KeyManager.t) (t : Z) : KeyManager.t :=
  KeyManager.markRateLimit (KeyManager.setCurrentIndex km src 0) t 0.

(** ... and after the rotation to the second key, which was then acquired
    and used with success at time [t2] *)
Definition settled (src : ApiSource) (km : KeyManager.t) (t1 t2 : Z) : KeyManager.t :=
  KeyManager.recordUsage
    (KeyManager.setCurrentIndex (KeyManager.setCurrentIndex (marked src km t1) src 1) src 1)
    t2 1.

(** every key of the pool is among the marked indexes *)
Definition coversPool (km : KeyManager.t) (marks : list (Z * nat)) : Prop :=
  forall i, (i < length (pool km))%nat -> In i (map snd marks).

(** the cooldown deadline of key [i] is set, and it has passed at [now] *)
Definition deadlinePassed (km : KeyManager.t) (i : nat) (now : Z) : Prop :=
  exists k until,
    pool km !! i = Some k /\ inCooldown k = true
    /\ cooldownUntil k = Some until /\ until <> 0 /\ until <= now.

End Pool.

(** ** Pools of one and two keys *)

Definition twoKeyEnv : Env := {[ "FINNHUB_API_KEY" := "bad1,good2" ]}.

Definition twoKeyPool : KeyManager.t :=
  KeyManager.new twoKeyEnv "finnhub" DEFAULT_RESILIENCE_CONFIG.

Definition oneKeyPool : KeyManager.t :=
  KeyManager.new {[ "FINNHUB_API_KEY" := "k1" ]} "finnhub" DEFAULT_RESILIENCE_CONFIG.

(** ** How a dispatch ends *)

(** how a run of the loop ends, seen on the attempts it added *)
Definition endsWell {T} (toolName : string) (d : Dispatch T) (fresh : list FailoverAttempt) : Prop :=
  match d with
  | Returned r =>
      exists init a, fresh = (init ++ [a])%list
        /\ Forall (fun x => success x = false) init
        /\ success a = true /\ source a = winner r
  | Rethrown e _ =>
      exists init a, fresh = (init ++ [a])%list
        /\ Forall (fun x => success x = false) init
        /\ success a = false /\ error a = Some e
        /\ ErrorDetection.instanceofError e = false
  | AggregateThrown message attached =>
      Forall (fun x => success x = false) fresh
      /\ message = ResilientApiClient.aggregateMessage toolName attached
  end.

(** ** Dispatch scenarios *)

Module Scenario.

(** the router as constructed with no [SOURCE_PRIORITY_*] variable set *)
Definition router : SourceRouter.t := SourceRouter.new ∅.

(** a client whose Finnhub pool is [bad1,good2]; the other clients may or
    may not be configured *)
Definition twoKeyClient (alphavantage twelvedata tiingo : bool) (config : ResilienceConfig)
  : ResilientApiClient.t :=
  ResilientApiClient.new twoKeyEnv true alphavantage twelvedata tiingo config.

(** one key each for Finnhub and TwelveData; as in the server, the
    Finnhub and Alpha Vantage clients are always constructed, the
    TwelveData and Tiingo clients only when their key is set *)
Definition quoteEnv : Env :=
  {[ "FINNHUB_API_KEY" := "f1"; "TWELVEDATA_API_KEY" := "t1" ]}.

Definition quoteClient : ResilientApiClient.t :=
  ResilientApiClient.new quoteEnv true true true false DEFAULT_RESILIENCE_CONFIG.



Definition start (c : ResilientApiClient.t) : ResilientApiClient.State :=
  {| ResilientApiClient.client := c; ResilientApiClient.clock := 1000;
     ResilientApiClient.calls := [] |}.

(** Finnhub answers HTTP 404, every other provider answers *)
Definition finnhub404 : SourceExecutor nat :=
  fun source _ =>
    if String.eqb source "finnhub"
    then {| res := Throw (ErrorObj "Finnhub API error: 404 Not Found" None); elapsed := 5 |}
    else {| res := Ok 42%nat; elapsed := 7 |}.

(** Finnhub answers HTTP 500, every other provider answers *)
Definition finnhub500 : SourceExecutor nat :=
  fun source _ =>
    if String.eqb source "finnhub"
    then {| res := Throw (ErrorObj "Finnhub API error: 500 Internal Server Error" None); elapsed := 5 |}
    else {| res := Ok 42%nat; elapsed := 7 |}.



(** the first key is rate limited, the second works *)
Definition firstKeyLimited : SourceExecutor nat :=
  fun _ v =>
    match viewKeyIndex v with
    | Some O => {| res := Throw (ErrorObj "Finnhub API error: 429 Too Many Requests" None); elapsed := 5 |}
    | _ => {| res := Ok 42%nat; elapsed := 7 |}
    end.

End Scenario.

(** ** market-router.ts: the provider lists by market *)

Module MarketRouting.

Definition MARKET_SOURCE_MAP (m : Market) : list ApiSource :=
  match m with
  | US => ["finnhub"; "twelvedata"; "tiingo"; "alphavantage"]
  | SH => ["sina"; "eastmoney"]
  | SZ => ["sina"; "eastmoney"]
  | BJ => ["sina"; "eastmoney"]
  | HK => ["finnhub"; "twelvedata"; "sina"]
  | UNKNOWN => ["finnhub"; "alphavantage"]
  end.

(** [MARKET_SOURCE_MAP[market] || MARKET_SOURCE_MAP['UNKNOWN']]: every
    market has an entry, and an array is truthy *)
Definition getSourcesForMarket (market : Market) : list ApiSource :=
  MARKET_SOURCE_MAP market.

Definition getSourcesForSymbol (symbol : string) : list ApiSource :=
  let market := MarketRouter.getMarketFromSymbol symbol in
  getSourcesForMarket market.

Definition isChineseAShare (symbol : string) : bool :=
  match MarketRouter.getMarketFromSymbol symbol with
  | SH | SZ | BJ => true
  | _ => false
  end.

Definition isUSStock (symbol : string) : bool :=
  match MarketRouter.getMarketFromSymbol symbol with
  | US => true
  | _ => false
  end.

Definition isHKStock (symbol : string) : bool :=
  match MarketRouter.getMarketFromSymbol symbol with
  | HK => true
  | _ => false
  end.

End MarketRouting.

(** ** market-router.ts: the class [MarketRouter] *)

(** the string a [Market] is *)
Definition marketName (m : Market) : string :=
  match m with
  | US => "US" | SH => "SH" | SZ => "SZ" | BJ => "BJ" | HK => "HK" | UNKNOWN => "UNKNOWN"
  end.

Module MarketRouterClass.

(** [customMarketSources], a [Map] keyed by the market *)
Record t := { customMarketSources : gmap string (list ApiSource) }.

Definition setMarketSources (r : t) (market : Market) (sources : list ApiSource) : t :=
  {| customMarketSources := <[marketName market := sources]> (customMarketSources r) |}.

(** [envValue.split(',').map(s => s.trim().toLowerCase()).filter(Boolean)] *)
Definition parseMarketSources (envValue : string) : list ApiSource :=
  List.filter Js.truthy (map (fun s => Js.toLowerCase (Js.trim s)) (Js.split "," envValue)).

(** the body of the loop of [loadFromEnv], for one market *)
Definition loadMarket (env : Env) (r : t) (market : Market) : t :=
  let envKey := "MARKET_SOURCES_" ++ marketName market in
  match env !! envKey with
  | Some envValue =>
      if Js.truthy envValue then
        let sources := parseMarketSources envValue in
        if (0 <? length sources)%nat then setMarketSources r market sources else r
      else r
  | None => r
  end.

Definition loadFromEnv (env : Env) (r : t) : t :=
  fold_left (loadMarket env) [US; SH; SZ; BJ; HK] r.

Definition new (env : Env) : t := loadFromEnv env {| customMarketSources := ∅ |}.

(** an array, even an empty one, is truthy: [if (custom) return custom] *)
Definition getSourcesForSymbol (r : t) (symbol : string) : list ApiSource :=
  let market := MarketRouter.getMarketFromSymbol symbol in
  match customMarketSources r !! marketName market with
  | Some custom => custom
  | None => MarketRouting.MARKET_SOURCE_MAP market
  end.

Definition getMarket (symbol : string) : Market := MarketRouter.getMarketFromSymbol symbol.

(** the custom lists a router holds are never empty *)
Definition populated (r : t) : Prop :=
  forall name l, customMarketSources r !! name = Some l -> l <> [].


End MarketRouterClass.

(** ** source-router.ts: the queries of the market-aware router *)

Module SourceRouterQueries.

(** [Object.keys(OPTIMAL_SOURCE_MAP)] *)
Definition getAllToolNames : list string := map fst SourceRouter.OPTIMAL_SOURCE_MAP.

(** [MARKET_SOURCE_FILTER[market] || MARKET_SOURCE_FILTER['UNKNOWN']] *)
Definition getMarketSources (market : Market) : list ApiSource :=
  SourceRouter.MARKET_SOURCE_FILTER market.

End SourceRouterQueries.

(** ** source-router.ts, the router that does not look at the market *)

Module LegacySourceRouter.

Definition KEYED_SOURCES : list ApiSource :=
  ["finnhub"; "alphavantage"; "twelvedata"; "tiingo"].

Definition OPTIMAL_SOURCE_MAP : list (string * list ApiSource) :=
  [ ("get_stock_quote", ["finnhub"; "twelvedata"; "tiingo"; "alphavantage"]);
    ("get_stock_candles", ["twelvedata"; "finnhub"; "tiingo"]);
    ("get_stock_price_history", ["twelvedata"; "finnhub"; "tiingo"; "alphavantage"]);
    ("get_technical_indicator", ["twelvedata"; "alphavantage"]);
    ("get_daily_prices", ["tiingo"; "alphavantage"; "twelvedata"]);
    ("get_news", ["tiingo"; "finnhub"]);
    ("get_quote", ["twelvedata"; "tiingo"; "alphavantage"]);
    ("get_company_overview", ["tiingo"; "alphavantage"]);
    ("get_company_info", ["finnhub"; "alphavantage"; "tiingo"]);
    ("get_financials", ["finnhub"; "alphavantage"]);
    ("get_company_basic_financials", ["finnhub"]);
    ("get_company_metrics", ["finnhub"]);
    ("get_income_statement", ["alphavantage"]);
    ("get_balance_sheet", ["alphavantage"]);
    ("get_cash_flow", ["alphavantage"]) ].

Definition parseSourcePriorityEnv (env : Env) (toolName : string) : option (list ApiSource) :=
  let envKey := "SOURCE_PRIORITY_" ++ Js.toUpperCase toolName in
  match env !! envKey with
  | None => None
  | Some envValue =>
      if negb (Js.truthy envValue) then None
      else
        let sources :=
          List.filter (Js.includesStr KEYED_SOURCES)
            (map (fun s => Js.toLowerCase (Js.trim s)) (Js.split "," envValue)) in
        if (length sources =? 0)%nat then None else Some sources
  end.

Record t := { customPriorities : gmap string (list ApiSource) }.

Definition loadCustomPriorities (env : Env) : gmap string (list ApiSource) :=
  fold_left
    (fun acc toolName =>
       match parseSourcePriorityEnv env toolName with
       | Some custom => <[toolName := custom]> acc
       | None => acc
       end)
    (map fst OPTIMAL_SOURCE_MAP) ∅.

Definition new (env : Env) : t := {| customPriorities := loadCustomPriorities env |}.

(** the array [getSourcesForTool] returns for every tool name but the
    property names of [Object.prototype]; [LegacyRouting.getSourcesForTool]
    is the method on every tool name *)
Definition getSourcesForTool (r : t) (toolName : string) : list ApiSource :=
  match customPriorities r !! toolName with
  | Some custom => custom
  | None =>
      match SourceRouter.lookupTool OPTIMAL_SOURCE_MAP toolName with
      | Some defaultSources => defaultSources
      | None => ["finnhub"]
      end
  end.

Definition getDefaultSources (toolName : string) : list ApiSource :=
  match SourceRouter.lookupTool OPTIMAL_SOURCE_MAP toolName with
  | Some defaults => defaults
  | None => ["finnhub"]
  end.

Definition hasCustomPriority (r : t) (toolName : string) : bool :=
  bool_decide (is_Some (customPriorities r !! toolName)).

Definition getAllToolNames : list string := map fst OPTIMAL_SOURCE_MAP.

End LegacySourceRouter.

(** ** Property lookups in the priority tables

    [OPTIMAL_SOURCE_MAP] is an object literal, and [OPTIMAL_SOURCE_MAP[toolName]]
    is an ordinary property lookup: it finds the entries of the table and,
    for the property names of [Object.prototype], the value every object
    inherits, a function (for [__proto__] the prototype object itself).
    Such a value is truthy, and it has no [filter] method. *)

Module ToolTable.

(** [Object.getOwnPropertyNames(Object.prototype)] *)
Definition OBJECT_PROTOTYPE_KEYS : list string :=
  ["constructor"; "__defineGetter__"; "__defineSetter__"; "hasOwnProperty";
   "__lookupGetter__"; "__lookupSetter__"; "isPrototypeOf"; "propertyIsEnumerable";
   "toString"; "valueOf"; "__proto__"; "toLocaleString"].

Definition inherited (name : string) : bool := Js.includesStr OBJECT_PROTOTYPE_KEYS name.

(** what a lookup in a priority table yields, when it is not [undefined]:
    an array of provider tags, or the value inherited under that name *)
Inductive Value :=
| SourceList (sources : list ApiSource)
| Inherited (name : string).

(** [table[toolName]]; [None] is [undefined] *)
Definition get (table : list (string * list ApiSource)) (toolName : string)
  : option Value :=
  match SourceRouter.lookupTool table toolName with
  | Some sources => Some (SourceList sources)
  | None => if inherited toolName then Some (Inherited toolName) else None
  end.

End ToolTable.

(** ** source-router.ts: [getSourcesForTool] on every tool name *)

Module Routing.

Import ToolTable.

(** a call returns a value or throws a [TypeError] *)
Inductive Outcome :=
| Returns (value : Value)
| ThrowsTypeError (message : string).

(** [if (symbol)] *)
Definition given (symbol : option string) : bool :=
  match symbol with
  | Some sym => Js.truthy sym
  | None => false
  end.

(** what [sources] holds before the market filter: the custom priority
    (an array is truthy), else [OPTIMAL_SOURCE_MAP[toolName] || ['finnhub']] *)
Definition baseSources (r : SourceRouter.t) (toolName : string) : Value :=
  match SourceRouter.customPriorities r !! toolName with
  | Some custom => SourceList custom
  | None =>
      match get SourceRouter.OPTIMAL_SOURCE_MAP toolName with
      | Some value => value
      | None => SourceList ["finnhub"]
      end
  end.

(** [getSourcesForTool(toolName, symbol)] of the market-aware router:
    [sources.filter] is applied to whatever [sources] holds *)
Definition getSourcesForTool (r : SourceRouter.t) (toolName : string)
    (symbol : option string) : Outcome :=
  let sources := baseSources r toolName in
  match symbol with
  | Some sym =>
      if Js.truthy sym then
        let market := MarketRouter.getMarketFromSymbol sym in
        let marketSources := SourceRouter.MARKET_SOURCE_FILTER market in
        match sources with
        | SourceList priority =>
            let sources := List.filter (Js.includesStr marketSources) priority in
            if (length sources =? 0)%nat then Returns (SourceList marketSources)
            else Returns (SourceList sources)
        | Inherited _ => ThrowsTypeError "sources.filter is not a function"
        end
      else Returns sources
  | None => Returns sources
  end.

End Routing.

(** ** source-router.ts (the router that does not look at the market):
    [getSourcesForTool] on every tool name *)

Module LegacyRouting.

Import ToolTable.

(** [getSourcesForTool(toolName)]: the custom priority, else the table's
    value when it is truthy, else [['finnhub']] *)
Definition getSourcesForTool (r : LegacySourceRouter.t) (toolName : string) : Value :=
  match LegacySourceRouter.customPriorities r !! toolName with
  | Some custom => SourceList custom
  | None =>
      match get LegacySourceRouter.OPTIMAL_SOURCE_MAP toolName with
      | Some defaultSources => defaultSources
      | None => SourceList ["finnhub"]
      end
  end.

End LegacyRouting.

(** ** Checks on the routing tables *)

Module Tables.

(** an entry of the priority table is usable: it is not empty, it names
    valid providers only, and restricted to the US coverage it is not
    empty and is the entry the legacy table has for the tool *)
Definition entryChecked (entry : string * list ApiSource) : bool :=
  negb (length (snd entry) =? 0)%nat
  && forallb (Js.includesStr SourceRouter.VALID_SOURCES) (snd entry)
  && negb (length (List.filter (Js.includesStr (SourceRouter.MARKET_SOURCE_FILTER US))
                     (snd entry)) =? 0)%nat
  && bool_decide (SourceRouter.lookupTool LegacySourceRouter.OPTIMAL_SOURCE_MAP (fst entry)
                  = Some (List.filter (Js.includesStr (SourceRouter.MARKET_SOURCE_FILTER US))
                            (snd entry))).

Definition marketChecked (m : Market) : bool :=
  negb (length (SourceRouter.MARKET_SOURCE_FILTER m) =? 0)%nat
  && forallb (Js.includesStr SourceRouter.VALID_SOURCES) (SourceRouter.MARKET_SOURCE_FILTER m).

End Tables.

(** ** circuit-breaker.ts: the queries, and runs of calls through either entry *)

Module BreakerRun.

(** [getState()] *)
Record Snapshot := {
  state : CircuitState;
  snapFailureCount : Z;
  snapLastFailureTime : Z;
  snapLastStateChange : Z
}.

Definition getState (cb : CircuitBreaker.t) : Snapshot :=
  {| state := CircuitBreaker.circuitState cb;
     snapFailureCount := CircuitBreaker.failureCount cb;
     snapLastFailureTime := CircuitBreaker.lastFailureTime cb;
     snapLastStateChange := CircuitBreaker.lastStateChange cb |}.

Definition getHalfOpenAttemptsRemaining (cb : CircuitBreaker.t) (now : Z) : Z :=
  match CircuitBreaker.circuitState cb with
  | HALF_OPEN =>
      let timeSinceHalfOpen := now - CircuitBreaker.lastStateChange cb in
      let timeUntilReopen :=
        circuitBreakerTimeoutMs (CircuitBreaker.config cb) - timeSinceHalfOpen in
      if 0 <? timeUntilReopen
      then circuitBreakerHalfOpenAttempts (CircuitBreaker.config cb) else 0
  | _ => 0
  end.

(** the entry a call is made through *)
Inductive Entry := ViaExecute | ViaTestRecovery.

(** a call: the entry it goes through, the time it starts, the function *)
Record Call (T : Type) := {
  entry : Entry;
  startedAt : Z;
  fn : AsyncFn T
}.
Arguments entry {T} c.
Arguments startedAt {T} c.
Arguments fn {T} c.

Definition run {T} (cb : CircuitBreaker.t) (c : Call T) : CircuitBreaker.Run T :=
  match entry c with
  | ViaExecute => CircuitBreaker.execute cb (startedAt c) (fn c)
  | ViaTestRecovery => CircuitBreaker.testRecovery cb (startedAt c) (fn c)
  end.

(** the breaker after a sequence of calls, each awaited before the next *)
Fixpoint runAll {T} (cb : CircuitBreaker.t) (calls : list (Call T)) : CircuitBreaker.t :=
  match calls with
  | [] => cb
  | c :: rest => runAll (CircuitBreaker.after (run cb c)) rest
  end.

(** the state follows the failure count: closed below the threshold, open
    from the threshold on *)
Definition tracksCount (cfg : ResilienceConfig) (cb : CircuitBreaker.t) : Prop :=
  CircuitBreaker.config cb = cfg
  /\ ((CircuitBreaker.circuitState cb = CLOSED
       /\ 0 <= CircuitBreaker.failureCount cb < circuitBreakerFailureThreshold cfg)
      \/ (CircuitBreaker.circuitState cb = OPEN
          /\ circuitBreakerFailureThreshold cfg <= CircuitBreaker.failureCount cb)).

(** ... and, through [execute] alone, the count stops at the threshold *)
Definition stopsAtThreshold (cfg : ResilienceConfig) (cb : CircuitBreaker.t) : Prop :=
  CircuitBreaker.config cb = cfg
  /\ ((CircuitBreaker.circuitState cb = CLOSED
       /\ 0 <= CircuitBreaker.failureCount cb < circuitBreakerFailureThreshold cfg)
      \/ (CircuitBreaker.circuitState cb = OPEN
          /\ CircuitBreaker.failureCount cb = circuitBreakerFailureThreshold cfg)).

End BreakerRun.

(** ** api-key-manager.ts: sequences of operations on a key manager *)

Module KeyOps.

(** a call of a public method, with the time [Date.now()] gives during it *)
Inductive Op :=
| GetNextKey (apiName : string)
| MarkRateLimit (now : Z) (keyIndex : nat)
| RecordUsage (now : Z) (keyIndex : nat)
| ResetCooldown (keyIndex : nat)
| CheckAndResetCooldowns (now : Z)
| HasAvailableKey (now : Z)
| RotateKey.

(** the manager after the call *)
Definition apply (km : KeyManager.t) (op : Op) : KeyManager.t :=
  match op with
  | GetNextKey apiName => snd (KeyManager.getNextKey km apiName)
  | MarkRateLimit now keyIndex => KeyManager.markRateLimit km now keyIndex
  | RecordUsage now keyIndex => KeyManager.recordUsage km now keyIndex
  | ResetCooldown keyIndex => KeyManager.resetCooldown km keyIndex
  | CheckAndResetCooldowns now => KeyManager.checkAndResetCooldowns km now
  | HasAvailableKey now => snd (KeyManager.hasAvailableKey km now)
  | RotateKey => snd (KeyManager.rotateKey km)
  end.

Fixpoint applyAll (km : KeyManager.t) (ops : list Op) : KeyManager.t :=
  match ops with
  | [] => km
  | op :: rest => applyAll (apply km op) rest
  end.

(** the credentials of the pool, in order *)
Definition credentials (km : KeyManager.t) : list string := key <$> Pool.pool km.

(** every key carries its position as its index *)
Definition indexed (km : KeyManager.t) : Prop :=
  forall i k, Pool.pool km !! i = Some k -> index k = i.

(** a credential as the constructor stores it: not empty, trimmed, and a
    single entry of the comma-separated variable *)
Definition clean (k : string) : Prop :=
  k <> EmptyString /\ Js.trim k = k /\ Js.includes k "," = false.

(** a key that has not been used nor rate limited *)
Definition untouched (k : ApiKeyInfo) : Prop :=
  usageCount k = 0%nat /\ lastUsed k = 0 /\ inCooldown k = false
  /\ cooldownUntil k = None /\ lastRateLimitError k = None.

(** what identifies a key: the credential and its index *)
Definition identity (k : ApiKeyInfo) : string * nat := (key k, index k).

(** the calls recorded on the keys of the pool, in total *)
Definition totalUsage (km : KeyManager.t) : nat := list_sum (usageCount <$> Pool.pool km).

End KeyOps.

(** ** What a call through the key rotation adds *)

Module Rotation.

(** a successful call is recorded on one key, a failed call on none *)
Definition usageGain {T} (r : Result T) : nat :=
  match r with
  | Ok _ => 1%nat
  | Throw _ => 0%nat
  end.

(** the value is what the executor answered for the source, on some invocation *)
Definition answeredBy {T} (executor : SourceExecutor T) (src : ApiSource) (d : T) : Prop :=
  exists v : ExecView, res (executor src v) = Ok d.

(** the key manager of a source as the constructor registers it: it is
    the manager of that source, and its keys carry their positions *)
Definition registered (c : ResilientApiClient.t) (src : ApiSource) (km : KeyManager.t) : Prop :=
  ResilientApiClient.keyManagers c !! src = Some km
  /\ KeyManager.apiName km = src
  /\ KeyOps.indexed km.

(** the executor call the rotation makes from a state, under a key index *)
Definition viewAt (st : ResilientApiClient.State) (keyIndex : option nat) : ExecView :=
  {| viewKeyIndex := keyIndex;
     viewCallsBefore := length (ResilientApiClient.calls st);
     viewNow := ResilientApiClient.clock st |}.

(** every call is answered by a rate-limit error *)
Definition alwaysLimited : SourceExecutor nat :=
  fun _ _ => {| res := Throw (ErrorObj "429 Too Many Requests" None); elapsed := 5 |}.

(** a client whose Finnhub pool holds one key *)
Definition oneKeyClient : ResilientApiClient.t :=
  ResilientApiClient.new {[ "FINNHUB_API_KEY" := "k1" ]} true true false false
    DEFAULT_RESILIENCE_CONFIG.

End Rotation.

(** ** The provider clients (api/*.ts): the methods each class has *)

Inductive Method :=
| GetStockQuote
| GetQuote
| GetStockCandles
| GetDailyPrices
| GetNews
| GetCompanyOverview
| GetTechnicalIndicator
| GetCompanyBasicFinancials
| GetCompanyMetrics
| GetIncomeStatement
| GetBalanceSheet
| GetCashFlow.

#[global] Instance Method_eq_dec : EqDecision Method.
Proof. solve_decision. Defined.

Module Clients.

Inductive Class := FinnhubClient | AlphaVantageClient | TwelveDataClient | TiingoClient
                 | SinaClient | EastMoneyClient.

(** the data methods the class declares *)
Definition methods (c : Class) : list Method :=
  match c with
  | FinnhubClient =>
      [GetStockQuote; GetQuote; GetStockCandles; GetCompanyBasicFinancials;
       GetCompanyMetrics; GetNews]
  | AlphaVantageClient =>
      [GetDailyPrices; GetQuote; GetStockQuote; GetCompanyOverview; GetIncomeStatement;
       GetBalanceSheet; GetCashFlow; GetTechnicalIndicator]
  | TwelveDataClient => [GetStockQuote; GetQuote; GetStockCandles; GetTechnicalIndicator]
  | TiingoClient =>
      [GetQuote; GetStockQuote; GetStockCandles; GetDailyPrices; GetNews; GetCompanyOverview]
  | SinaClient => [GetStockQuote; GetQuote; GetStockCandles; GetDailyPrices]
  | EastMoneyClient => [GetStockQuote; GetQuote; GetStockCandles; GetDailyPrices]
  end.

(** [client.method] is defined *)
Definition has (c : Class) (m : Method) : bool := bool_decide (m ∈ methods c).

End Clients.

(** ** resilient-api-client.ts: the executors and the data methods *)

Module Facade.

(** the class of the client object [getClientForSource] returns for a
    source, with the clients the server constructs; an unknown source
    gets the Finnhub client *)
Definition clientClass (source : ApiSource) : Clients.Class :=
  if String.eqb source "finnhub" then Clients.FinnhubClient
  else if String.eqb source "alphavantage" then Clients.AlphaVantageClient
  else if String.eqb source "twelvedata" then Clients.TwelveDataClient
  else if String.eqb source "tiingo" then Clients.TiingoClient
  else if String.eqb source "sina" then Clients.SinaClient
  else if String.eqb source "eastmoney" then Clients.EastMoneyClient
  else Clients.FinnhubClient.

(** the entries of the record [createExecutor] returns *)
Inductive ExecutorName :=
| get_stock_quote
| get_stock_candles
| get_daily_prices
| get_news
| get_quote
| get_company_overview
| get_technical_indicator.

Definition toolName (x : ExecutorName) : string :=
  match x with
  | get_stock_quote => "get_stock_quote"
  | get_stock_candles => "get_stock_candles"
  | get_daily_prices => "get_daily_prices"
  | get_news => "get_news"
  | get_quote => "get_quote"
  | get_company_overview => "get_company_overview"
  | get_technical_indicator => "get_technical_indicator"
  end.

(** [client?.method]: the client of the source exists and has the method *)
Definition clientHas (c : ResilientApiClient.t) (source : ApiSource) (m : Method) : bool :=
  ResilientApiClient.getClientForSource c source && Clients.has (clientClass source) m.

(** the method of the client an executor calls, if the client has one;
    [get_quote] takes [getQuote] and falls back on [getStockQuote] *)
Definition resolve (c : ResilientApiClient.t) (source : ApiSource) (x : ExecutorName)
  : option Method :=
  let pick (m : Method) := if clientHas c source m then Some m else None in
  match x with
  | get_stock_quote => pick GetStockQuote
  | get_stock_candles => pick GetStockCandles
  | get_daily_prices => pick GetDailyPrices
  | get_news => pick GetNews
  | get_quote =>
      match pick GetQuote with
      | Some m => Some m
      | None => pick GetStockQuote
      end
  | get_company_overview => pick GetCompanyOverview
  | get_technical_indicator => pick GetTechnicalIndicator
  end.

(** what the methods of the provider clients do for the request at hand *)
Abbreviation Providers T := (ApiSource -> Method -> ExecView -> Settled T).

Definition unsupported (source : ApiSource) (x : ExecutorName) : Thrown :=
  ErrorObj (source ++ " does not support " ++ toolName x) None.

(** [createExecutor(params)[x]]: the call of the client's method, or the
    error thrown on the spot when the client does not have it *)
Definition createExecutor {T} (c : ResilientApiClient.t) (api : Providers T)
    (x : ExecutorName) : SourceExecutor T :=
  fun source view =>
    match resolve c source x with
    | Some m => api source m view
    | None => {| res := Throw (unsupported source x); elapsed := 0 |}
    end.

(** the body shared by the data methods that dispatch:
    [executeWithCascadingFailover(tool, createExecutor(params)[x], symbol)] *)
Definition dispatchVia {T} (router : SourceRouter.t) (st : ResilientApiClient.State)
    (api : Providers T) (x : ExecutorName) (symbol : string)
  : Dispatch T * ResilientApiClient.State :=
  ResilientApiClient.executeWithCascadingFailover router st (toolName x)
    (createExecutor (ResilientApiClient.client st) api x) (Some symbol).

Definition getStockQuote {T} (router : SourceRouter.t) (st : ResilientApiClient.State)
    (api : Providers T) (symbol : string) :=
  dispatchVia router st api get_stock_quote symbol.

Definition getStockCandles {T} (router : SourceRouter.t) (st : ResilientApiClient.State)
    (api : Providers T) (symbol : string) :=
  dispatchVia router st api get_stock_candles symbol.

Definition getNews {T} (router : SourceRouter.t) (st : ResilientApiClient.State)
    (api : Providers T) (symbol : string) :=
  dispatchVia router st api get_news symbol.

Definition getDailyPrices {T} (router : SourceRouter.t) (st : ResilientApiClient.State)
    (api : Providers T) (symbol : string) :=
  dispatchVia router st api get_daily_prices symbol.

Definition getQuote {T} (router : SourceRouter.t) (st : ResilientApiClient.State)
    (api : Providers T) (symbol : string) :=
  dispatchVia router st api get_quote symbol.

Definition getCompanyOverview {T} (router : SourceRouter.t) (st : ResilientApiClient.State)
    (api : Providers T) (symbol : string) :=
  dispatchVia router st api get_company_overview symbol.

Definition getTechnicalIndicator {T} (router : SourceRouter.t) (st : ResilientApiClient.State)
    (api : Providers T) (symbol : string) :=
  dispatchVia router st api get_technical_indicator symbol.

(** what the data method hands to its caller: [result.data], or the error *)
Definition settle {T} (d : Dispatch T) : Result T :=
  match d with
  | Returned r => Ok (data r)
  | Rethrown e _ => Throw e
  | AggregateThrown message _ => Throw (ErrorObj message None)
  end.

(** Sina and East Money have no key manager, as the constructor leaves them *)
Definition keyless (c : ResilientApiClient.t) : Prop :=
  ResilientApiClient.keyManagers c !! "sina" = None
  /\ ResilientApiClient.keyManagers c !! "eastmoney" = None.

(** the tools that only the keyed providers implement *)
Definition keyedOnly (x : ExecutorName) : bool :=
  match x with
  | get_news | get_company_overview | get_technical_indicator => true
  | _ => false
  end.

(** an attempt that failed on the spot because the provider has no such method *)
Definition refused (x : ExecutorName) (a : FailoverAttempt) : Prop :=
  success a = false
  /\ error a = Some (unsupported (source a) x)
  /\ durationMs a = 0
  /\ (source a = "sina" \/ source a = "eastmoney").

(** a key for each of the four keyed providers *)
Definition fullEnv : Env :=
  {[ "FINNHUB_API_KEY" := "f1"; "ALPHAVANTAGE_API_KEY" := "a1";
     "TWELVEDATA_API_KEY" := "t1"; "TIINGO_API_KEY" := "i1" ]}.

(** a client with every provider configured *)
Definition fullClient : ResilientApiClient.t :=
  ResilientApiClient.new fullEnv true true true true DEFAULT_RESILIENCE_CONFIG.

(** every provider call fails with a server error *)
Definition noneAnswers : SourceExecutor nat :=
  fun _ _ => {| res := Throw (ErrorObj "HTTP 500" None); elapsed := 5 |}.

(** every provider method answers *)
Definition allServe : Providers nat :=
  fun _ _ _ => {| res := Ok 42%nat; elapsed := 7 |}.

End Facade.

(** ** api-retry.ts: error classification and the retry loop *)

Module Retry.

(** [\w]: a letter, a digit or the underscore *)
Definition isWordChar (c : ascii) : bool :=
  Js.isDigit c || Js.isUpper c || Js.isLower c || Js.eqChar c "_".

(** a word boundary [\b] next to a digit: the neighbour is missing or is
    not a word character *)
Definition boundary (neighbour : option ascii) : bool :=
  match neighbour with
  | None => true
  | Some c => negb (isWordChar c)
  end.

(** The first match of [/\b(\d{3})\b/]: the engine tries the positions
    from left to right; at one position the pattern matches when the three
    characters are digits, the character before ([prev]) and the character
    after make a word boundary.  The result is the captured group. *)
Fixpoint findStatus (prev : option ascii) (l : list ascii) : option (list ascii) :=
  match l with
  | [] => None
  | a :: tail =>
      match tail with
      | b :: c :: rest =>
          if Js.isDigit a && Js.isDigit b && Js.isDigit c
             && boundary prev && boundary (head rest)
          then Some [a; b; c]
          else findStatus (Some a) tail
      | _ => None
      end
  end.

Definition digitValue (c : ascii) : Z := Z.of_nat (Js.code c) - 48.

(** [parseInt(digits, 10)] on a string of decimal digits *)
Definition parseInt (digits : list ascii) : Z :=
  fold_left (fun acc c => 10 * acc + digitValue c) digits 0.

(** [extractStatusCode(error)], on the error's message; [None] is
    [undefined] *)
Definition extractStatusCode (message : string) : option Z :=
  option_map parseInt (findStatus None (Js.chars message)).

Definition isRetryableError (error : Thrown) : bool :=
  match error with
  | NonError _ => false
  | ErrorObj message _ =>
      let errorMessage := Js.toLowerCase message in
      let statusCode := extractStatusCode message in
      if Js.includes errorMessage "timeout"
         || Js.includes errorMessage "timed out"
         || Js.includes errorMessage "connection refused"
         || Js.includes errorMessage "network error"
      then true
      else if match statusCode with
              | Some n => (500 <=? n) && (n <? 600)
              | None => false
              end
      then true
      else if match statusCode with
              | Some n => n =? 429
              | None => false
              end
      then true
      else if match statusCode with
              | Some n => (400 <=? n) && (n <? 500) && negb (n =? 429)
              | None => false
              end
      then false
      else if Js.includes errorMessage "json" && Js.includes errorMessage "parse"
      then true
      else false
  end.

(** [new RetryError(attempt, maxAttempts, delayMs)] with the default
    message, for whole numbers *)
Definition RetryError (attempt maxAttempts delayMs : Z) : Thrown :=
  ErrorObj ("Retry attempt " ++ pretty attempt ++ "/" ++ pretty maxAttempts
            ++ " after " ++ pretty delayMs ++ "ms") None.

(** What the loop takes from its surroundings: [random k] is the value of
    the [k]-th call of [Math.random()], [timer d] the time after which the
    promise around [setTimeout(resolve, d)] resolves. *)
Record Env := {
  random : nat -> Q;
  timer : JsNum -> Z
}.

(** A run of [withRetry]: how the returned promise settles, the [cause]
    that [withRetry] attached to the rejection, the times at which [fn] was
    called and the delays that were waited, oldest first, and the time at
    which the promise settles. *)
Record Run (T : Type) := {
  outcome : Result T;
  cause : option Thrown;
  startedAt : list Z;
  waits : list JsNum;
  settledAt : Z
}.
Arguments outcome {T} r.
Arguments cause {T} r.
Arguments startedAt {T} r.
Arguments waits {T} r.
Arguments settledAt {T} r.

(** The [for (let attempt = 0; attempt < maxAttempts; attempt++)] loop.
    [remaining] counts the iterations that are left, [maxAttempts - attempt]
    floored at zero: the loop condition fails exactly when it is zero, and
    the statement after the loop is reached. *)
Fixpoint loop {T} (env : Env) (fn : AsyncFn T) (config : ResilienceConfig)
    (remaining : nat) (attempt : Z) (now : Z)
    (started : list Z) (waited : list JsNum) : Run T :=
  match remaining with
  | O =>
      {| outcome := Throw (ErrorObj "Retry logic failed - should not reach here" None);
         cause := None; startedAt := started; waits := waited; settledAt := now |}
  | S remaining' =>
      let maxAttempts := retryMaxAttempts config in
      let call := fn now in
      let after := now + elapsed call in
      match res call with
      | Ok result =>
          {| outcome := Ok result; cause := None;
             startedAt := (started ++ [now])%list; waits := waited; settledAt := after |}
      | Throw error =>
          let isRetryable := isRetryableError error in
          if negb isRetryable then
            {| outcome := Throw error; cause := None;
               startedAt := (started ++ [now])%list; waits := waited; settledAt := after |}
          else if attempt =? maxAttempts - 1 then
            {| outcome := Throw (RetryError (attempt + 1) maxAttempts 0);
               cause := Some error;
               startedAt := (started ++ [now])%list; waits := waited; settledAt := after |}
          else
            let delayMs :=
              ApiRetry.calculateBackoffDelay (random env (Z.to_nat attempt)) attempt
                (Fin (inject_Z (retryInitialDelayMs config)))
                (Fin (inject_Z (retryMaxDelayMs config))) in
            loop env fn config remaining' (attempt + 1) (after + timer env delayMs)
              (started ++ [now])%list (waited ++ [delayMs])%list
      end
  end.

(** [withRetry(fn, config)], called at time [now] *)
Definition withRetry {T} (env : Env) (fn : AsyncFn T) (config : ResilienceConfig)
    (now : Z) : Run T :=
  if negb (retryEnabled config) then
    let call := fn now in
    {| outcome := res call; cause := None; startedAt := [now]; waits := [];
       settledAt := now + elapsed call |}
  else
    loop env fn config (Z.to_nat (retryMaxAttempts config)) 0 now [] [].

(** the error thrown after the loop *)
Definition internalError : Thrown :=
  ErrorObj "Retry logic failed - should not reach here" None.

(** the delay computed after the failure of attempt [attempt] *)
Definition delayAfter (env : Env) (config : ResilienceConfig) (attempt : Z) : JsNum :=
  ApiRetry.calculateBackoffDelay (random env (Z.to_nat attempt)) attempt
    (Fin (inject_Z (retryInitialDelayMs config)))
    (Fin (inject_Z (retryMaxDelayMs config))).

(** the call of [fn] started at [t] fails with an error that is retried *)
Definition failsRetryably {T} (fn : AsyncFn T) (t : Z) : Prop :=
  exists error, res (fn t) = Throw error /\ isRetryableError error = true.

(** a server that is down: every call fails with HTTP 503 after 20 ms *)
Definition down : AsyncFn nat :=
  fun _ => {| res := Throw (ErrorObj "HTTP 503 Service Unavailable" None); elapsed := 20 |}.

(** a server that answers from time 3000 on, and fails with HTTP 503
    before *)
Definition recovering : AsyncFn nat :=
  fun t => if t <? 3000 then down t else {| res := Ok 7%nat; elapsed := 20 |}.

(** timers that fire on time, and [Math.random()] always 1/2 *)
Definition steady : Env := {|
  random := fun _ => (1 # 2)%Q;
  timer := fun d => match d with Fin q => Qfloor q | _ => 1 end
|}.

End Retry.

(** * Properties *)

(** ** The model at work on concrete inputs *)

Example classify_samples :
  map MarketRouter.getMarketFromSymbol
      ["AAPL"; "601899.SH"; "600000.ss"; "000001.SZ"; "430047.BJ"; "0700.HK";
       "600000"; "000001"; "830000"; "00700"; "123456"; "aapl"; " AAPL";
       "AAPL.US"; "sh600000"; "X12345"; EmptyString]
  = [US; SH; SH; SZ; BJ; HK; SH; SZ; BJ; HK; UNKNOWN; UNKNOWN; UNKNOWN;
     US; SH; HK; UNKNOWN].
Proof. vm_compute. reflexivity. Qed.

Example route_samples :
  let r := SourceRouter.new ∅ in
  SourceRouter.getSourcesForTool r "get_stock_quote" (Some "AAPL")
    = ["finnhub"; "twelvedata"; "tiingo"; "alphavantage"]
  /\ SourceRouter.getSourcesForTool r "get_stock_quote" (Some "601899.SH")
    = ["sina"; "eastmoney"]
  /\ SourceRouter.getSourcesForTool r "get_technical_indicator" (Some "601899.SH")
    = ["sina"; "eastmoney"]
  /\ SourceRouter.getSourcesForTool r "no_such_tool" None = ["finnhub"]
  /\ SourceRouter.getSourcesForTool
       (SourceRouter.new {[ "SOURCE_PRIORITY_GET_NEWS" := " Finnhub , bogus,tiingo" ]})
       "get_news" (Some "AAPL") = ["finnhub"; "tiingo"].
Proof. vm_compute. repeat split. Qed.

Example breaker_samples :
  let cfg := DEFAULT_RESILIENCE_CONFIG in
  let boom : AsyncFn nat := fun _ => {| res := Throw (ErrorObj "HTTP 500" None); elapsed := 10 |} in
  let fine : AsyncFn nat := fun _ => {| res := Ok 7%nat; elapsed := 10 |} in
  let cb4 := CircuitBreaker.executeAll (CircuitBreaker.new "finnhub" cfg)
               [(0, boom); (100, boom); (200, boom); (300, boom)] in
  let cb5 := CircuitBreaker.executeAll cb4 [(400, boom)] in
  (CircuitBreaker.circuitState cb4, CircuitBreaker.failureCount cb4) = (CLOSED, 4)
  /\ (CircuitBreaker.circuitState cb5, CircuitBreaker.failureCount cb5,
      CircuitBreaker.lastFailureTime cb5) = (OPEN, 5, 410)
  /\ CircuitBreaker.result (CircuitBreaker.execute cb5 100000 fine)
     = Throw (ErrorObj "Circuit breaker is OPEN for finnhub. Retry after -39s" (Some "CIRCUIT_OPEN"))
  /\ CircuitBreaker.result (CircuitBreaker.testRecovery cb5 100000 fine) = Ok 7%nat.
Proof. vm_compute. repeat split. Qed.

Example key_manager_samples :
  let env : Env := {[ "FINNHUB_API_KEY" := "bad1, good2 ,,k3" ]} in
  let km := KeyManager.new env "finnhub" DEFAULT_RESILIENCE_CONFIG in
  let km1 := KeyManager.markAll km [(1000, 0%nat); (1001, 1%nat)] in
  let km2 := KeyManager.markRateLimit km1 1002 2 in
  map key (KeyManager.getKeyInfo km "finnhub") = ["bad1"; "good2"; "k3"]
  /\ match fst (KeyManager.getNextKey km1 "finnhub") with
     | KeyFound k => index k = 2%nat | _ => False end
  /\ fst (KeyManager.getNextKey km2 "finnhub") = KeyNull
  /\ fst (KeyManager.getNextKey km2 "twelvedata") = KeyNull
  /\ fst (KeyManager.rotateKey km1) = true
  /\ fst (KeyManager.rotateKey km2) = false
  /\ fst (KeyManager.hasAvailableKey km2 3601000) = true
  /\ fst (KeyManager.hasAvailableKey km2 3600999) = false.
Proof. vm_compute. repeat split. Qed.

Example error_samples :
  map ErrorDetection.isRateLimitError
    [ErrorObj "HTTP 429 Too Many Requests" None; ErrorObj "API Limit reached" None;
     ErrorObj "HTTP 500" None; NonError "429"]
  = [true; true; false; false]
  /\ map ErrorDetection.isTransientError
    [ErrorObj "HTTP 503 Service Unavailable" None; ErrorObj "Request Timeout" None;
     ErrorObj "HTTP 404 Not Found" None]
  = [true; true; false]
  /\ map ErrorDetection.shouldFailoverToNextSource
    [ErrorObj "HTTP 404 Not Found" None; NonError "HTTP 404 Not Found"]
  = [true; false].
Proof. vm_compute. repeat split. Qed.

Example backoff_samples :
  ApiRetry.calculateBackoffDelay (1 # 2) 0 (Fin 1000) (Fin 10000) = Fin 1000
  /\ ApiRetry.calculateBackoffDelay 0 1 (Fin 1000) (Fin 10000) = Fin 1500
  /\ ApiRetry.calculateBackoffDelay (9 # 10) 2 (Fin 1000) (Fin 10000) = Fin 4800
  /\ ApiRetry.calculateBackoffDelay (9 # 10) 5 (Fin 1000) (Fin 10000) = Fin 10000.
Proof. vm_compute. repeat split. Qed.

(** ** Market classifier *)

Section Classifier.

Local Open Scope nat_scope.

Lemma length_chars (s : string) : String.length s = length (Js.chars s).
Proof.
  unfold Js.chars. induction s as [|c s IH]; simpl; [reflexivity | now rewrite IH].
Qed.

Lemma chars_of_list (l : list ascii) : Js.chars (string_of_list_ascii l) = l.
Proof. apply list_ascii_of_string_of_list_ascii. Qed.

Lemma digit_not_upper (c : ascii) : Js.isDigit c = true -> Js.isUpper c = false.
Proof.
  unfold Js.isDigit, Js.isUpper. intros H.
  apply andb_true_iff in H as [_ H]. apply Nat.leb_le in H.
  apply andb_false_iff. left. apply Nat.leb_gt. lia.
Qed.

Lemma digit_not_lower (c : ascii) : Js.isDigit c = true -> Js.isLower c = false.
Proof.
  unfold Js.isDigit, Js.isLower. intros H.
  apply andb_true_iff in H as [_ H]. apply Nat.leb_le in H.
  apply andb_false_iff. left. apply Nat.leb_gt. lia.
Qed.

Lemma upperChar_digit (c : ascii) : Js.isDigit c = true -> Js.upperChar c = c.
Proof. intros H. unfold Js.upperChar. now rewrite (digit_not_lower c H). Qed.

(** upper-casing never produces or removes a digit *)
Lemma isDigit_upperChar (c : ascii) : Js.isDigit (Js.upperChar c) = Js.isDigit c.
Proof.
  unfold Js.upperChar. destruct (Js.isLower c) eqn:Hl; [|reflexivity].
  unfold Js.isLower in Hl. apply andb_true_iff in Hl as [H1 H2].
  apply Nat.leb_le in H1, H2.
  unfold Js.isDigit at 2. replace (Js.code c <=? 57) with false
    by (symmetry; apply Nat.leb_gt; lia).
  rewrite andb_false_r.
  unfold Js.isDigit, Js.code in *. rewrite nat_ascii_embedding by lia.
  apply andb_false_iff. right. apply Nat.leb_gt. lia.
Qed.

Lemma filter_digits_all (l : list ascii) :
  forallb Js.isDigit l = true -> filter (fun c => Is_true (Js.isDigit c)) l = l.
Proof.
  induction l as [|c l IH]; simpl; [reflexivity|].
  intros H. apply andb_true_iff in H as [Hc Hl].
  rewrite filter_cons. destruct (decide (Is_true (Js.isDigit c))) as [_|n].
  - now rewrite IH.
  - exfalso. apply n. now rewrite Hc.
Qed.

Lemma stripNonDigits_all (s : string) :
  Shape.allDigits s = true -> Js.stripNonDigits s = s.
Proof.
  unfold Shape.allDigits, Js.stripNonDigits. intros H.
  rewrite filter_digits_all by exact H. apply string_of_list_ascii_of_string.
Qed.

Lemma length_stripNonDigits (s : string) :
  String.length (Js.stripNonDigits s) = Shape.digitCount s.
Proof.
  unfold Js.stripNonDigits, Shape.digitCount.
  now rewrite length_chars, chars_of_list.
Qed.

Lemma digitCount_all (s : string) :
  Shape.allDigits s = true -> Shape.digitCount s = length (Js.chars s).
Proof.
  unfold Shape.allDigits, Shape.digitCount. intros H. now rewrite filter_digits_all.
Qed.

Lemma isDigits_count (n : nat) (s : string) :
  Js.isDigits n s = true -> Shape.allDigits s = true /\ Shape.digitCount s = n.
Proof.
  unfold Js.isDigits. intros H. apply andb_true_iff in H as [Hn Ha].
  apply Nat.eqb_eq in Hn. split; [exact Ha|].
  rewrite digitCount_all by exact Ha. exact Hn.
Qed.

Lemma allDigits_not_letters (lo hi : nat) (s : string) :
  1 <= lo -> Shape.allDigits s = true -> Js.isUpperLetters lo hi s = false.
Proof.
  unfold Shape.allDigits, Js.isUpperLetters. intros Hlo H.
  destruct (Js.chars s) as [|c l]; simpl.
  - replace (lo <=? 0) with false by (symmetry; apply Nat.leb_gt; lia). reflexivity.
  - simpl in H. apply andb_true_iff in H as [Hc _].
    rewrite (digit_not_upper c Hc). simpl. apply andb_false_r.
Qed.

Lemma startsWithL_two (x y a b : ascii) (l : list ascii) :
  Js.startsWithL [x; y] (a :: b :: l) = true -> x = a /\ y = b.
Proof.
  cbn [Js.startsWithL]. unfold Js.eqChar. intros H.
  apply andb_true_iff in H as [Ha H]. apply andb_true_iff in H as [Hb _].
  apply Ascii.eqb_eq in Ha, Hb. now split.
Qed.

Lemma upper_tag_letters (tag : string) :
  tag = "SH"%string \/ tag = "SZ"%string \/ tag = "BJ"%string ->
  exists x y, map Js.upperChar (Js.chars tag) = [x; y]
              /\ Js.isDigit x = false /\ Js.isDigit y = false.
Proof.
  intros [->|[->| ->]]; eexists; eexists; (split; [reflexivity | split; reflexivity]).
Qed.

(** a symbol made of a two-letter market tag and six digits has six
    digits and is not all digits *)
Lemma tagged_shape (tag s : string) :
  tag = "SH"%string \/ tag = "SZ"%string \/ tag = "BJ"%string ->
  Js.isTagThenDigits6 tag s = true ->
  Shape.digitCount s = 6 /\ Shape.allDigits s = false.
Proof.
  intros Htag H. unfold Js.isTagThenDigits6 in H.
  destruct (upper_tag_letters tag Htag) as (x & y & Hxy & Hx & Hy).
  assert (Ht : length (Js.chars tag) = 2).
  { rewrite <- (length_map Js.upperChar), Hxy. reflexivity. }
  rewrite Hxy, Ht in H.
  apply andb_true_iff in H as [H Hdig].
  apply andb_true_iff in H as [H Hsix]. apply Nat.eqb_eq in Hsix.
  apply andb_true_iff in H as [H Hlen]. apply Nat.leb_le in Hlen.
  unfold Shape.digitCount, Shape.allDigits.
  destruct (Js.chars s) as [|a [|b l]]; simpl in Hlen; try lia.
  cbn [take drop map] in *.
  apply startsWithL_two in H as [Ha Hb].
  assert (Ha' : Js.isDigit a = false) by (rewrite <- isDigit_upperChar, <- Ha; exact Hx).
  assert (Hb' : Js.isDigit b = false) by (rewrite <- isDigit_upperChar, <- Hb; exact Hy).
  split.
  - rewrite !filter_cons.
    destruct (decide (Is_true (Js.isDigit a))) as [i|_]; [rewrite Ha' in i; destruct i|].
    destruct (decide (Is_true (Js.isDigit b))) as [i|_]; [rewrite Hb' in i; destruct i|].
    rewrite filter_digits_all by exact Hdig. exact Hsix.
  - simpl. now rewrite Ha'.
Qed.

Lemma sixDigitRule_firstDigit (s : string) :
  String.length s = 6 ->
  match MarketRouter.sixDigitRule s with
  | Some m => m
  | None => UNKNOWN
  end = MarketSpec.firstDigitRule s.
Proof.
  intros H. unfold MarketRouter.sixDigitRule, MarketSpec.firstDigitRule.
  rewrite H. simpl Nat.eqb. cbv zeta.
  destruct (String.eqb (substring 0 1 s) "6"); simpl; [reflexivity|].
  destruct (String.eqb (substring 0 1 s) "5"); simpl; [reflexivity|].
  destruct (String.eqb (substring 0 1 s) "0"); simpl; [reflexivity|].
  destruct (String.eqb (substring 0 1 s) "3"); simpl; [now rewrite orb_true_r|].
  destruct (String.eqb (substring 0 1 s) "2"); simpl; [reflexivity|].
  destruct (String.eqb (substring 0 1 s) "4"); simpl; [reflexivity|].
  destruct (String.eqb (substring 0 1 s) "8"); reflexivity.
Qed.

Lemma sixDigitRule_other_length (s : string) :
  String.length s <> 6 -> MarketRouter.sixDigitRule s = None.
Proof.
  intros H. unfold MarketRouter.sixDigitRule.
  apply Nat.eqb_neq in H. now rewrite H.
Qed.

(** the digit and letter rules of the code and of the specification agree
    on a symbol that is all digits *)
Lemma digit_rules_agree_all_digits (s : string) :
  Shape.allDigits s = true ->
  match MarketRouter.sixDigitRule (Js.stripNonDigits s) with
  | Some m => m
  | None =>
      if (String.length (Js.stripNonDigits s) =? 5) && Js.isDigits 5 (Js.stripNonDigits s)
      then HK
      else if Js.isUpperLetters 1 5 s then US else UNKNOWN
  end
  = (if Js.isUpperLetters 1 5 s then US
     else if Js.isDigits 6 s then MarketSpec.firstDigitRule s
     else if Js.isDigits 5 s then HK
     else UNKNOWN).
Proof.
  intros Hall. rewrite (stripNonDigits_all s Hall).
  rewrite (allDigits_not_letters 1 5 s (le_n 1) Hall).
  unfold Js.isDigits. fold (Shape.allDigits s). rewrite Hall, !andb_true_r.
  rewrite <- length_chars.
  destruct (String.length s =? 6) eqn:H6.
  - apply Nat.eqb_eq in H6. rewrite <- (sixDigitRule_firstDigit s H6).
    destruct (MarketRouter.sixDigitRule s); [reflexivity|].
    rewrite H6. reflexivity.
  - apply Nat.eqb_neq in H6. rewrite (sixDigitRule_other_length s H6).
    rewrite andb_diag. reflexivity.
Qed.

(** ... and on a symbol that has neither five nor six digits *)
Lemma digit_rules_agree_few_digits (s : string) :
  Shape.digitCount s <> 5 -> Shape.digitCount s <> 6 ->
  match MarketRouter.sixDigitRule (Js.stripNonDigits s) with
  | Some m => m
  | None =>
      if (String.length (Js.stripNonDigits s) =? 5) && Js.isDigits 5 (Js.stripNonDigits s)
      then HK
      else if Js.isUpperLetters 1 5 s then US else UNKNOWN
  end
  = (if Js.isUpperLetters 1 5 s then US
     else if Js.isDigits 6 s then MarketSpec.firstDigitRule s
     else if Js.isDigits 5 s then HK
     else UNKNOWN).
Proof.
  intros H5 H6.
  rewrite sixDigitRule_other_length by (now rewrite length_stripNonDigits).
  rewrite length_stripNonDigits.
  apply Nat.eqb_neq in H5 as H5'. rewrite H5'. simpl.
  destruct (Js.isUpperLetters 1 5 s); [reflexivity|].
  destruct (Js.isDigits 6 s) eqn:D6.
  { apply isDigits_count in D6 as [_ D6]. contradiction. }
  destruct (Js.isDigits 5 s) eqn:D5.
  { apply isDigits_count in D5 as [_ D5]. contradiction. }
  reflexivity.
Qed.

(** the first of the code's own rules: a further suffix means US *)
Lemma extra_suffix_is_US (symbol : string) :
  Shape.hasListedSuffix symbol = false ->
  Shape.hasExtraSuffix symbol = true ->
  MarketRouter.getMarketFromSymbol symbol = US.
Proof.
  unfold Shape.hasListedSuffix, Shape.hasExtraSuffix, MarketRouter.getMarketFromSymbol.
  cbv zeta. intros Hl He.
  destruct (Js.endsWith (Js.toUpperCase symbol) ".SH"); [discriminate|].
  destruct (Js.endsWith (Js.toUpperCase symbol) ".SS"); [discriminate|].
  destruct (Js.endsWith (Js.toUpperCase symbol) ".SZ"); [discriminate|].
  destruct (Js.endsWith (Js.toUpperCase symbol) ".BJ"); [discriminate|].
  destruct (Js.endsWith (Js.toUpperCase symbol) ".HK"); [discriminate|].
  simpl. now rewrite He.
Qed.

(** C8 (as amended): on every ASCII symbol that a listed suffix decides,
    or that has none of the code's further suffixes ([.US], [.N], [.O])
    and is either all digits or contains neither five nor six digits, the
    classifier returns exactly the market the specification's rules give:
    suffixes [.SH]/[.SS], [.SZ], [.BJ], [.HK] first (case-insensitive),
    bare 1-5 uppercase letters US, six-digit codes by first digit,
    five-digit codes HK, anything else UNKNOWN.  (Outside ASCII the
    upper-casing of the code can turn a character into letters of a
    suffix, which the strings of this development do not cover.) *)
Theorem classifier_follows_spec_on_plain_symbols (symbol : string) :
  Js.isAscii symbol = true ->
  Shape.plain symbol ->
  MarketRouter.getMarketFromSymbol symbol = MarketSpec.classify symbol.
Proof.
  intros _.
  unfold Shape.plain, Shape.hasListedSuffix, Shape.hasExtraSuffix.
  unfold MarketRouter.getMarketFromSymbol, MarketSpec.classify. cbv zeta.
  intros H.
  destruct (Js.endsWith (Js.toUpperCase symbol) ".SH"); [reflexivity|].
  destruct (Js.endsWith (Js.toUpperCase symbol) ".SS"); [reflexivity|].
  destruct (Js.endsWith (Js.toUpperCase symbol) ".SZ"); [reflexivity|].
  destruct (Js.endsWith (Js.toUpperCase symbol) ".BJ"); [reflexivity|].
  destruct (Js.endsWith (Js.toUpperCase symbol) ".HK"); [reflexivity|].
  simpl in H. destruct H as [H|[Hextra Hshape]]; [discriminate|].
  rewrite Hextra. simpl orb. cbv iota.
  assert (Htag : forall tag,
             tag = "SH"%string \/ tag = "SZ"%string \/ tag = "BJ"%string ->
             Js.isTagThenDigits6 tag symbol = false).
  { intros tag Ht. destruct (Js.isTagThenDigits6 tag symbol) eqn:E; [|reflexivity].
    destruct (tagged_shape tag symbol Ht E) as [Hc Ha].
    destruct Hshape as [Hall|[_ H6]]; [congruence | contradiction]. }
  rewrite !Htag by tauto.
  destruct Hshape as [Hall|[H5 H6]].
  - now apply digit_rules_agree_all_digits.
  - now apply digit_rules_agree_few_digits.
Qed.

Lemma classifier_follows_spec_witness :
  Js.isAscii "600000" = true
  /\ Shape.plain "600000"
  /\ MarketRouter.getMarketFromSymbol "600000" = MarketSpec.classify "600000".
Proof.
  assert (H : Shape.plain "600000").
  { right. split; [reflexivity | left; reflexivity]. }
  split; [reflexivity|].
  split; [exact H | exact (classifier_follows_spec_on_plain_symbols "600000" eq_refl H)].
Defined.

(** C8 (as stated) fails: the code also maps the suffixes [.US], [.N],
    [.O] to US, a market tag followed by six digits to that market, and
    applies the digit rules to the digits extracted from anywhere in the
    symbol, where the specification's rules give UNKNOWN. *)
Lemma classifier_differs_from_spec_rules :
  map MarketRouter.getMarketFromSymbol ["AAPL.US"; "SZ600000"; "X12345"]%string
    = [US; SZ; HK]
  /\ map MarketSpec.classify ["AAPL.US"; "SZ600000"; "X12345"]%string
    = [UNKNOWN; UNKNOWN; UNKNOWN].
Proof. split; vm_compute; reflexivity. Qed.

End Classifier.

(** ** Source router *)

Section Router.

Lemma includesStr_In (arr : list string) (x : string) :
  Js.includesStr arr x = true <-> In x arr.
Proof.
  unfold Js.includesStr. rewrite existsb_exists. split.
  - intros (y & Hy & E). apply String.eqb_eq in E. now subst.
  - intros H. exists x. split; [exact H | apply String.eqb_refl].
Qed.

(** the base list of a tool restricted to a market, in the order of the base list *)
Lemma restricted_In (base cover : list ApiSource) (p : ApiSource) :
  In p (List.filter (Js.includesStr cover) base) <-> In p base /\ In p cover.
Proof. rewrite List.filter_In, includesStr_In. reflexivity. Qed.

(** the property names of [Object.prototype] are entries of neither table *)
Lemma inherited_not_listed (toolName : string) :
  ToolTable.inherited toolName = true ->
  SourceRouter.lookupTool SourceRouter.OPTIMAL_SOURCE_MAP toolName = None
  /\ SourceRouter.lookupTool LegacySourceRouter.OPTIMAL_SOURCE_MAP toolName = None.
Proof.
  intros H. apply includesStr_In in H. cbn [ToolTable.OBJECT_PROTOTYPE_KEYS In] in H.
  repeat (destruct H as [<-|H]; [split; vm_compute; reflexivity|]).
  destruct H.
Qed.

(** where [sources] starts as an array, it is the array of [SourceRouter.baseSources] *)
Lemma baseSources_array (r : SourceRouter.t) (toolName : string) :
  is_Some (SourceRouter.customPriorities r !! toolName) \/ ToolTable.inherited toolName = false ->
  Routing.baseSources r toolName = ToolTable.SourceList (SourceRouter.baseSources r toolName).
Proof.
  unfold Routing.baseSources, SourceRouter.baseSources, ToolTable.get.
  destruct (SourceRouter.customPriorities r !! toolName); [reflexivity|].
  intros [[x Hx]|Hno]; [discriminate|].
  destruct (SourceRouter.lookupTool _ _); [reflexivity|]. now rewrite Hno.
Qed.

(** [sources] starts as an inherited value for the property names of
    [Object.prototype] without a custom priority, and for these only *)
Lemma baseSources_inherited (r : SourceRouter.t) (toolName name : string) :
  Routing.baseSources r toolName = ToolTable.Inherited name <->
  SourceRouter.customPriorities r !! toolName = None
  /\ ToolTable.inherited toolName = true /\ name = toolName.
Proof.
  unfold Routing.baseSources, ToolTable.get. split.
  - destruct (SourceRouter.customPriorities r !! toolName); [discriminate|].
    destruct (SourceRouter.lookupTool _ _); [discriminate|].
    destruct (ToolTable.inherited toolName); [|discriminate].
    intros [= <-]. repeat split.
  - intros (-> & Hin & ->).
    rewrite (proj1 (inherited_not_listed toolName Hin)), Hin. reflexivity.
Qed.

(** on an array the method is [SourceRouter.getSourcesForTool] *)
Lemma getSourcesForTool_array (r : SourceRouter.t) (toolName : string)
    (symbol : option string) :
  is_Some (SourceRouter.customPriorities r !! toolName) \/ ToolTable.inherited toolName = false ->
  Routing.getSourcesForTool r toolName symbol
  = Routing.Returns (ToolTable.SourceList (SourceRouter.getSourcesForTool r toolName symbol)).
Proof.
  intros H. unfold Routing.getSourcesForTool, SourceRouter.getSourcesForTool. cbv zeta.
  rewrite (baseSources_array r toolName H).
  destruct symbol as [sym|]; [|reflexivity].
  destruct (Js.truthy sym); [|reflexivity].
  destruct (length _ =? 0)%nat; reflexivity.
Qed.

(** C3 (as amended): for every non-empty ASCII symbol and every tool name
    for which the router starts from a list (a custom priority, the
    tool's entry, or [finnhub] for a name the table does not know), every
    provider the router returns appears in the market-coverage set of the
    symbol's market.  When the list meets that coverage, the result is
    the list restricted to the coverage, in priority order, so every
    provider returned also appears in the tool's priority list; when they
    do not meet, the result is the coverage list of the market itself,
    whatever the tool.  For the remaining tool names, the property names
    of [Object.prototype] ([constructor], [toString], ...), the table
    lookup yields the inherited value and the call throws a
    [TypeError]. *)
Theorem route_respects_market_coverage
    (r : SourceRouter.t) (toolName symbol : string) :
  Js.truthy symbol = true ->
  Js.isAscii symbol = true ->
  let cover := SourceRouter.MARKET_SOURCE_FILTER (MarketRouter.getMarketFromSymbol symbol) in
  match Routing.baseSources r toolName with
  | ToolTable.SourceList base =>
      exists routed,
        Routing.getSourcesForTool r toolName (Some symbol)
        = Routing.Returns (ToolTable.SourceList routed)
        /\ (forall p, In p routed -> In p cover)
        /\ (List.filter (Js.includesStr cover) base <> [] ->
              routed = List.filter (Js.includesStr cover) base
              /\ forall p, In p routed -> In p base)
        /\ (List.filter (Js.includesStr cover) base = [] -> routed = cover)
  | ToolTable.Inherited _ =>
      ToolTable.inherited toolName = true
      /\ Routing.getSourcesForTool r toolName (Some symbol)
         = Routing.ThrowsTypeError "sources.filter is not a function"
  end.
Proof.
  intros Hsym _ cover.
  unfold Routing.getSourcesForTool. rewrite Hsym. cbv zeta. fold cover.
  destruct (Routing.baseSources r toolName) as [base|name] eqn:Hbase.
  - destruct (List.filter (Js.includesStr cover) base) as [|q l] eqn:E;
      cbn [length Nat.eqb].
    + exists cover. split; [reflexivity|]. split; [tauto|].
      split; [congruence | reflexivity].
    + exists (q :: l). split; [reflexivity|]. split; [|split].
      * intros p Hp. rewrite <- E in Hp. now apply restricted_In in Hp.
      * intros _. split; [reflexivity|].
        intros p Hp. rewrite <- E in Hp. now apply restricted_In in Hp.
      * discriminate.
  - apply baseSources_inherited in Hbase as (_ & Hin & _).
    split; [exact Hin | reflexivity].
Qed.

Lemma route_respects_market_coverage_witness :
  let r := SourceRouter.new ∅ in
  Routing.getSourcesForTool r "get_stock_quote" (Some "0700.HK")
    = Routing.Returns (ToolTable.SourceList ["finnhub"; "twelvedata"; "sina"])
  /\ exists routed,
       Routing.getSourcesForTool r "get_stock_quote" (Some "0700.HK")
       = Routing.Returns (ToolTable.SourceList routed)
       /\ forall p, In p routed -> In p (SourceRouter.MARKET_SOURCE_FILTER HK).
Proof.
  split; [vm_compute; reflexivity|].
  pose proof (route_respects_market_coverage (SourceRouter.new ∅)
                "get_stock_quote" "0700.HK" eq_refl eq_refl) as H.
  cbv zeta in H.
  change (Routing.baseSources (SourceRouter.new ∅) "get_stock_quote")
    with (ToolTable.SourceList
            ["finnhub"; "twelvedata"; "tiingo"; "alphavantage"; "sina"; "eastmoney"]) in H.
  destruct H as (routed & Hr & Hcover & _).
  exists routed. split; [exact Hr | exact Hcover].
Defined.

(** C3 (as stated) fails: for a tool whose priority list does not meet
    the market's coverage the router falls back to the coverage list, and
    its providers are not in the tool's priority entry; and an empty
    symbol is not classified at all, so the priority list is returned
    unfiltered. *)
Lemma route_fallback_ignores_capability :
  let r := SourceRouter.new ∅ in
  Routing.getSourcesForTool r "get_technical_indicator" (Some "601899.SH")
    = Routing.Returns (ToolTable.SourceList ["sina"; "eastmoney"])
  /\ Routing.baseSources r "get_technical_indicator"
     = ToolTable.SourceList ["twelvedata"; "alphavantage"]
  /\ ~ In "sina" ["twelvedata"; "alphavantage"]
  /\ Routing.getSourcesForTool r "get_stock_quote" (Some EmptyString)
     = Routing.Returns
         (ToolTable.SourceList
            ["finnhub"; "twelvedata"; "tiingo"; "alphavantage"; "sina"; "eastmoney"])
  /\ ~ In "twelvedata" (SourceRouter.MARKET_SOURCE_FILTER (MarketRouter.getMarketFromSymbol EmptyString)).
Proof.
  cbv zeta. split; [vm_compute; reflexivity|]. split; [vm_compute; reflexivity|].
  split; [|split; [vm_compute; reflexivity|]].
  - rewrite <- includesStr_In. vm_compute. discriminate.
  - rewrite <- includesStr_In. vm_compute. discriminate.
Qed.

End Router.

(** ** Circuit breaker *)

Section Breaker.

Context {T : Type}.

Import CircuitBreaker.

Lemma executeAll_app (cb : t) (xs ys : list (Z * AsyncFn T)) :
  executeAll cb (xs ++ ys)%list = executeAll (executeAll cb xs) ys.
Proof.
  revert cb. induction xs as [|[now fn] xs IH]; intros cb; simpl; [reflexivity | apply IH].
Qed.

(** one failed call through an enabled breaker that is not open *)
Lemma execute_failure (cb : t) (now : Z) (fn : AsyncFn T) :
  circuitBreakerEnabled (config cb) = true ->
  circuitState cb <> OPEN ->
  fails (now, fn) ->
  after (execute cb now fn) = onFailure cb (now + elapsed (fn now)).
Proof.
  intros Hen Hst [e He]. cbn [fst snd] in He. unfold execute. rewrite Hen. simpl.
  destruct (circuitState cb) eqn:E; try congruence; simpl;
    unfold guarded; rewrite He; reflexivity.
Qed.

Lemma onFailure_config (cb : t) (now : Z) : config (onFailure cb now) = config cb.
Proof. unfold onFailure. simpl. destruct (_ && _); reflexivity. Qed.

Lemma onFailure_count (cb : t) (now : Z) :
  failureCount (onFailure cb now) = failureCount cb + 1.
Proof. unfold onFailure. simpl. destruct (_ && _); reflexivity. Qed.

Lemma onFailure_below (cb : t) (now : Z) :
  circuitState cb = CLOSED ->
  failureCount cb + 1 < circuitBreakerFailureThreshold (config cb) ->
  circuitState (onFailure cb now) = CLOSED.
Proof.
  intros Hst Hlt. unfold onFailure. simpl.
  replace (_ <=? _) with false by (symmetry; apply Z.leb_gt; exact Hlt).
  simpl. exact Hst.
Qed.

Lemma onFailure_reaches (cb : t) (now : Z) :
  circuitState cb = CLOSED ->
  circuitBreakerFailureThreshold (config cb) <= failureCount cb + 1 ->
  circuitState (onFailure cb now) = OPEN.
Proof.
  intros Hst Hle. unfold onFailure. simpl.
  replace (_ <=? _) with true by (symmetry; apply Z.leb_le; exact Hle).
  rewrite Hst. reflexivity.
Qed.

(** fewer failures than the threshold leave the breaker closed, and the
    count is the number of failures *)
Lemma failures_below_threshold (calls : list (Z * AsyncFn T)) (cb : t) :
  circuitBreakerEnabled (config cb) = true ->
  circuitState cb = CLOSED ->
  Forall fails calls ->
  failureCount cb + Z.of_nat (length calls) < circuitBreakerFailureThreshold (config cb) ->
  let cb' := executeAll cb calls in
  circuitState cb' = CLOSED
  /\ failureCount cb' = failureCount cb + Z.of_nat (length calls)
  /\ config cb' = config cb.
Proof.
  revert cb. induction calls as [|[now fn] calls IH]; intros cb Hen Hst Hall Hlt.
  - simpl. repeat split; try assumption. lia.
  - apply Forall_cons in Hall as [Hfn Hall]. simpl in Hfn.
    cbn [executeAll]. cbv zeta.
    assert (Hopen : circuitState cb <> OPEN) by congruence.
    rewrite (execute_failure cb now fn Hen Hopen Hfn).
    set (cb1 := onFailure cb (now + elapsed (fn now))).
    assert (Hc : config cb1 = config cb) by apply onFailure_config.
    assert (Hn : failureCount cb1 = failureCount cb + 1) by apply onFailure_count.
    cbn [length] in Hlt. rewrite Nat2Z.inj_succ in Hlt.
    assert (Hs : circuitState cb1 = CLOSED) by (apply onFailure_below; [assumption | lia]).
    destruct (IH cb1) as (H1 & H2 & H3).
    + now rewrite Hc.
    + exact Hs.
    + exact Hall.
    + rewrite Hc, Hn. lia.
    + repeat split; [exact H1 | | congruence].
      rewrite H2, Hn. cbn [length]. lia.
Qed.

(** C5: for a breaker with threshold [t] that is enabled and starts closed
    with a failure count of 0, any fewer than [t] consecutive failed calls
    through [execute] leave it closed, the [t]-th consecutive failed call
    opens it, and a single successful call made while it is closed or
    half-open resets the failure count to 0 and leaves it closed; so does
    the successful trial call that [testRecovery] runs in the half-open
    state. *)
Theorem breaker_opens_at_threshold_and_resets (cb : t) (threshold : Z) :
  circuitBreakerEnabled (config cb) = true ->
  circuitBreakerFailureThreshold (config cb) = threshold ->
  (circuitState cb = CLOSED -> failureCount cb = 0 ->
     (forall calls : list (Z * AsyncFn T),
        Forall fails calls ->
        Z.of_nat (length calls) < threshold ->
        circuitState (executeAll cb calls) = CLOSED)
     /\ (forall (calls : list (Z * AsyncFn T)) (now : Z) (fn : AsyncFn T),
        Forall fails calls -> fails (now, fn) ->
        Z.of_nat (length (calls ++ [(now, fn)])%list) = threshold ->
        circuitState (executeAll cb calls) = CLOSED
        /\ circuitState (executeAll cb (calls ++ [(now, fn)])%list) = OPEN))
  /\ (forall (now : Z) (fn : AsyncFn T) (v : T),
        circuitState cb = CLOSED \/ circuitState cb = HALF_OPEN ->
        res (fn now) = Ok v ->
        result (execute cb now fn) = Ok v
        /\ failureCount (after (execute cb now fn)) = 0
        /\ circuitState (after (execute cb now fn)) = CLOSED)
  /\ (forall (now : Z) (fn : AsyncFn T) (v : T),
        circuitState cb = OPEN ->
        circuitBreakerTimeoutMs (config cb) <= now - lastFailureTime cb ->
        res (fn now) = Ok v ->
        (exists cb1, atCall (testRecovery cb now fn) = Some cb1
                     /\ circuitState cb1 = HALF_OPEN)
        /\ failureCount (after (testRecovery cb now fn)) = 0
        /\ circuitState (after (testRecovery cb now fn)) = CLOSED).
Proof.
  intros Hen Hth. split; [|split].
  - intros Hst Hzero. split.
    + intros calls Hall Hlt.
      apply (failures_below_threshold calls cb Hen Hst Hall). lia.
    + intros calls now fn Hall Hfn Hlen.
      rewrite length_app in Hlen. cbn [length] in Hlen.
      destruct (failures_below_threshold calls cb Hen Hst Hall) as (H1 & H2 & H3); [lia|].
      split; [exact H1|].
      rewrite executeAll_app. cbn [executeAll].
      rewrite execute_failure; [| congruence | congruence | exact Hfn].
      apply onFailure_reaches; [exact H1|]. rewrite H3, H2. lia.
  - intros now fn v Hst Hok. unfold execute. rewrite Hen. simpl.
    destruct Hst as [Hst|Hst]; rewrite Hst; simpl; unfold guarded; rewrite Hok; simpl;
      unfold onSuccess; simpl; rewrite Hst; simpl; repeat split; reflexivity.
  - intros now fn v Hst Hle Hok. unfold testRecovery. rewrite Hst. simpl.
    replace (_ <=? _) with true by (symmetry; apply Z.leb_le; exact Hle).
    unfold guarded. rewrite Hok. simpl.
    split; [eexists; split; reflexivity|]. split; reflexivity.
Qed.

(** C6 (as amended): for a breaker in the open state, a call attempt made
    through [testRecovery] when at least the timeout has elapsed since the
    last failure moves the breaker to half-open and runs the trial call;
    made earlier, it short-circuits with CIRCUIT_OPEN without running the
    call.  A call attempt made through [execute] on an open breaker
    that is enabled short-circuits with CIRCUIT_OPEN whatever time has
    elapsed; on a breaker that is disabled [execute] runs the call and
    leaves the breaker as it is, open. *)
Theorem open_breaker_recovers_through_testRecovery
    (cb : t) (now : Z) (fn : AsyncFn T) :
  circuitState cb = OPEN ->
  (circuitBreakerTimeoutMs (config cb) <= now - lastFailureTime cb ->
     (exists cb1, atCall (testRecovery cb now fn) = Some cb1
                  /\ circuitState cb1 = HALF_OPEN)
     /\ result (testRecovery cb now fn) = res (fn now))
  /\ (now - lastFailureTime cb < circuitBreakerTimeoutMs (config cb) ->
     atCall (testRecovery cb now fn) = None
     /\ (exists m, result (testRecovery cb now fn) = Throw (circuitOpenError m))
     /\ after (testRecovery cb now fn) = cb)
  /\ (circuitBreakerEnabled (config cb) = true ->
     atCall (execute cb now fn) = None
     /\ (exists m, result (execute cb now fn) = Throw (circuitOpenError m))
     /\ after (execute cb now fn) = cb)
  /\ (circuitBreakerEnabled (config cb) = false ->
     atCall (execute cb now fn) = Some cb
     /\ result (execute cb now fn) = res (fn now)
     /\ after (execute cb now fn) = cb).
Proof.
  intros Hst. split; [|split; [|split]].
  - intros Hle. unfold testRecovery. rewrite Hst. simpl.
    replace (_ <=? _) with true by (symmetry; apply Z.leb_le; exact Hle).
    unfold guarded. destruct (res (fn now)) eqn:E; simpl; (split; [|reflexivity]);
      eexists; (split; [reflexivity | reflexivity]).
  - intros Hlt. unfold testRecovery. rewrite Hst. simpl.
    replace (_ <=? _) with false by (symmetry; apply Z.leb_gt; exact Hlt).
    simpl. split; [reflexivity|]. split; [eexists; reflexivity | reflexivity].
  - intros Hen. unfold execute. rewrite Hen, Hst. simpl.
    split; [reflexivity|]. split; [eexists; reflexivity | reflexivity].
  - intros Hoff. unfold execute. rewrite Hoff. simpl. repeat split.
Qed.

End Breaker.

Section BreakerRuns.

Import CircuitBreaker.

Lemma http500_fails (now : Z) : fails (now, http500).
Proof. eexists. reflexivity. Qed.

Lemma breaker_opens_at_threshold_witness :
  let cb := new "finnhub" DEFAULT_RESILIENCE_CONFIG in
  circuitState (executeAll cb [(0, http500); (100, http500); (200, http500); (300, http500)])
    = CLOSED
  /\ circuitState (executeAll cb ([(0, http500); (100, http500); (200, http500);
                                   (300, http500)] ++ [(400, http500)])%list) = OPEN
  /\ failureCount (after (execute cb 0 quoteOk)) = 0.
Proof.
  cbv zeta.
  destruct (breaker_opens_at_threshold_and_resets (T := nat)
              (new "finnhub" DEFAULT_RESILIENCE_CONFIG) 5 eq_refl eq_refl)
    as (Hfail & Hok & _).
  destruct (Hfail eq_refl eq_refl) as [_ Hopen].
  destruct (Hopen [(0, http500); (100, http500); (200, http500); (300, http500)]
              400 http500) as [H1 H2].
  - repeat constructor; apply http500_fails.
  - apply http500_fails.
  - reflexivity.
  - split; [exact H1|]. split; [exact H2|].
    exact (proj1 (proj2 (Hok 0 quoteOk 7%nat (or_introl eq_refl) eq_refl))).
Defined.

Lemma open_breaker_recovers_witness :
  circuitState trippedBreaker = OPEN
  /\ result (testRecovery trippedBreaker 100000 quoteOk) = Ok 7%nat
  /\ atCall (testRecovery trippedBreaker 30000 quoteOk) = None.
Proof.
  assert (Hst : circuitState trippedBreaker = OPEN) by reflexivity.
  destruct (open_breaker_recovers_through_testRecovery trippedBreaker 100000 quoteOk Hst)
    as (Hlate & _ & _).
  destruct (open_breaker_recovers_through_testRecovery trippedBreaker 30000 quoteOk Hst)
    as (_ & Hearly & _).
  split; [exact Hst|]. split.
  - rewrite (proj2 (Hlate ltac:(vm_compute; discriminate))). reflexivity.
  - exact (proj1 (Hearly ltac:(vm_compute; reflexivity))).
Defined.

(** C6 (as stated) fails: the breaker opened at time 410 with a timeout of
    60000 ms; a call through [execute] at time 100000 still short-circuits
    with CIRCUIT_OPEN, the trial call is not run and the breaker stays open. *)
Lemma execute_never_leaves_open :
  circuitState trippedBreaker = OPEN
  /\ lastFailureTime trippedBreaker = 410
  /\ circuitBreakerTimeoutMs (config trippedBreaker) <= 100000 - lastFailureTime trippedBreaker
  /\ result (execute trippedBreaker 100000 quoteOk)
     = Throw (ErrorObj "Circuit breaker is OPEN for finnhub. Retry after -39s"
                (Some "CIRCUIT_OPEN"))
  /\ atCall (execute trippedBreaker 100000 quoteOk) = None
  /\ circuitState (after (execute trippedBreaker 100000 quoteOk)) = OPEN.
Proof.
  split; [reflexivity|]. split; [reflexivity|]. split; [vm_compute; discriminate|].
  split; [vm_compute; reflexivity|]. split; reflexivity.
Qed.

End BreakerRuns.

(** ** Key manager *)

Section KeyPool.

Import KeyManager.
Import Pool.
Local Open Scope nat_scope.

Lemma pool_setKeys (km : t) (ks : list ApiKeyInfo) :
  Pool.pool (setKeys km (apiName km) ks) = ks.
Proof.
  unfold Pool.pool, getKeyInfo, setKeys. simpl. now rewrite lookup_insert_eq.
Qed.

Lemma pool_setCurrentIndex (km : t) (name : string) (i : nat) :
  Pool.pool (setCurrentIndex km name i) = Pool.pool km.
Proof. reflexivity. Qed.

Lemma pool_lookup (km : t) (ks : list ApiKeyInfo) :
  keys km !! apiName km = Some ks -> Pool.pool km = ks.
Proof. intros H. unfold Pool.pool, getKeyInfo. now rewrite H. Qed.

Lemma pool_none (km : t) : keys km !! apiName km = None -> Pool.pool km = [].
Proof. intros H. unfold Pool.pool, getKeyInfo. now rewrite H. Qed.

(** what [updateKey] does to the pool and to the rest of the manager *)
Lemma updateKey_pool (km : t) (i : nat) (f : ApiKeyInfo -> ApiKeyInfo) :
  Pool.pool (updateKey km i f)
  = match Pool.pool km !! i with
    | Some k => <[i := f k]> (Pool.pool km)
    | None => Pool.pool km
    end.
Proof.
  unfold updateKey. destruct (keys km !! apiName km) as [ks|] eqn:E.
  - rewrite (pool_lookup km ks E).
    destruct (ks !! i) as [k|] eqn:Ek.
    + apply pool_setKeys.
    + apply pool_lookup, E.
  - rewrite (pool_none km E). reflexivity.
Qed.

Lemma updateKey_frame (km : t) (i : nat) (f : ApiKeyInfo -> ApiKeyInfo) :
  apiName (updateKey km i f) = apiName km
  /\ currentIndexes (updateKey km i f) = currentIndexes km
  /\ config (updateKey km i f) = config km
  /\ (is_Some (keys km !! apiName km) ->
      is_Some (keys (updateKey km i f) !! apiName km)).
Proof.
  unfold updateKey. destruct (keys km !! apiName km) as [ks|] eqn:E.
  - destruct (ks !! i); simpl; repeat split; try (now rewrite E).
    intros _. rewrite lookup_insert_eq. eauto.
  - repeat split. now rewrite E.
Qed.

Lemma updateKey_length (km : t) (i : nat) (f : ApiKeyInfo -> ApiKeyInfo) :
  length (Pool.pool (updateKey km i f)) = length (Pool.pool km).
Proof.
  rewrite updateKey_pool. destruct (Pool.pool km !! i); [apply length_insert | reflexivity].
Qed.

(** a rate-limit mark puts its key in cooldown and thaws no other key *)
Lemma markRateLimit_cooled (km : t) (now : Z) (i : nat) :
  (i < length (Pool.pool km) -> cooled (Pool.pool (markRateLimit km now i)) i)
  /\ (forall j, cooled (Pool.pool km) j -> cooled (Pool.pool (markRateLimit km now i)) j).
Proof.
  unfold markRateLimit. rewrite updateKey_pool. split.
  - intros Hi. destruct (lookup_lt_is_Some_2 _ _ Hi) as [k Hk]. rewrite Hk.
    eexists. split; [apply list_lookup_insert_eq; exact Hi | reflexivity].
  - intros j (k & Hk & Hc). destruct (Pool.pool km !! i) as [ki|] eqn:Ei.
    + destruct (decide (i = j)) as [->|Hne].
      * eexists. split; [apply list_lookup_insert_eq; eapply lookup_lt_Some; exact Hk|].
        reflexivity.
      * exists k. split; [|exact Hc]. rewrite list_lookup_insert_ne by exact Hne. exact Hk.
    + exists k. now split.
Qed.

Lemma markAll_frame (marks : list (Z * nat)) (km : t) :
  apiName (markAll km marks) = apiName km
  /\ currentIndexes (markAll km marks) = currentIndexes km
  /\ length (Pool.pool (markAll km marks)) = length (Pool.pool km)
  /\ (is_Some (keys km !! apiName km) ->
      is_Some (keys (markAll km marks) !! apiName km)).
Proof.
  revert km. induction marks as [|[now i] marks IH]; intros km; simpl.
  - repeat split; auto.
  - destruct (IH (markRateLimit km now i)) as (H1 & H2 & H3 & H4).
    unfold markRateLimit in *.
    destruct (updateKey_frame km i
                (fun k => {| key := key k; index := index k; usageCount := usageCount k;
                             lastUsed := lastUsed k; inCooldown := true;
                             cooldownUntil := Some (now + keyRotationResetWindowMs (config km))%Z;
                             lastRateLimitError := Some now |}))
      as (F1 & F2 & F3 & F4).
    rewrite H1, H2, H3, F1, F2, updateKey_length.
    repeat split. intros Hs. rewrite F1 in H4. apply H4, F4, Hs.
Qed.

(** after the marks, every marked key, and every key that was in
    cooldown before, is in cooldown *)
Lemma markAll_cooled (marks : list (Z * nat)) (km : t) (j : nat) :
  j < length (Pool.pool km) ->
  In j (map snd marks) \/ cooled (Pool.pool km) j ->
  cooled (Pool.pool (markAll km marks)) j.
Proof.
  revert km. induction marks as [|[now i] marks IH]; intros km Hj H; simpl.
  - destruct H as [[]|H]. exact H.
  - destruct (markRateLimit_cooled km now i) as [Hi Hkeep].
    apply IH.
    + unfold markRateLimit. now rewrite updateKey_length.
    + simpl in H. destruct H as [[<-|H]|H].
      * right. apply Hi, Hj.
      * now left.
      * right. apply Hkeep, H.
Qed.

(** [getNextKey] over a pool in which every key is in cooldown *)
Lemma getNextKeyLoop_all_cooled (ks : list ApiKeyInfo) (fuel c : nat) :
  (forall j, j < length ks -> cooled ks j) ->
  c < length ks ->
  getNextKeyLoop ks fuel c = inl None.
Proof.
  intros Hall. revert c. induction fuel as [|fuel IH]; intros c Hc; simpl; [reflexivity|].
  destruct (Hall c Hc) as (k & Hk & Hcool). rewrite Hk, Hcool. simpl.
  apply IH. apply Nat.mod_upper_bound. lia.
Qed.

Lemma rotateLoop_all_cooled (ks : list ApiKeyInfo) (fuel c start : nat) :
  (forall j, j < length ks -> cooled ks j) ->
  0 < length ks ->
  rotateLoop ks fuel c start = None.
Proof.
  intros Hall Hn. revert c. induction fuel as [|fuel IH]; intros c; simpl; [reflexivity|].
  assert (Hc : (c + 1) mod length ks < length ks) by (apply Nat.mod_upper_bound; lia).
  destruct (Hall _ Hc) as (k & Hk & Hcool). rewrite Hk, Hcool. simpl.
  destruct (_ =? _); [reflexivity | apply IH].
Qed.

Lemma getNextKey_exhausted (km : t) :
  Pool.wellFormed km ->
  (forall j, j < length (Pool.pool km) -> cooled (Pool.pool km) j) ->
  getNextKey km (apiName km) = (KeyNull, km).
Proof.
  intros Hidx Hall. unfold Pool.wellFormed in Hidx. unfold getNextKey.
  destruct (keys km !! apiName km) as [ks|] eqn:Hks; [|reflexivity].
  rewrite (pool_lookup km ks Hks) in *.
  destruct (length ks =? 0) eqn:E; [reflexivity|].
  apply Nat.eqb_neq in E.
  destruct Hidx as [->|Hidx]; [simpl in E; lia|].
  now rewrite (getNextKeyLoop_all_cooled ks _ _ Hall Hidx).
Qed.

Lemma rotateKey_exhausted (km : t) :
  (forall j, j < length (Pool.pool km) -> cooled (Pool.pool km) j) ->
  rotateKey km = (false, km).
Proof.
  intros Hall. unfold rotateKey.
  destruct (keys km !! apiName km) as [ks|] eqn:Hks; [|reflexivity].
  rewrite (pool_lookup km ks Hks) in *.
  destruct (length ks <=? 1) eqn:E; [reflexivity|].
  apply Nat.leb_gt in E.
  rewrite (rotateLoop_all_cooled ks _ _ _ Hall); [reflexivity | lia].
Qed.

Lemma resetCooldown_thaw (km : t) (i : nat) : resetCooldown km i = updateKey km i thaw.
Proof. reflexivity. Qed.

(** one round of the [forEach] of [checkAndResetCooldowns] *)
Lemma sweep_spec (now : Z) (indexes : list nat) (km : t) :
  NoDup indexes ->
  apiName (sweep km now indexes) = apiName km
  /\ currentIndexes (sweep km now indexes) = currentIndexes km
  /\ length (Pool.pool (sweep km now indexes)) = length (Pool.pool km)
  /\ (is_Some (keys km !! apiName km) ->
      is_Some (keys (sweep km now indexes) !! apiName km))
  /\ forall j k, Pool.pool km !! j = Some k ->
       Pool.pool (sweep km now indexes) !! j
       = Some (if bool_decide (j ∈ indexes) && cooldownExpired now k then thaw k else k).
Proof.
  revert km. induction indexes as [|i indexes IH]; intros km Hnd.
  - simpl. repeat split; auto.
  - apply NoDup_cons in Hnd as [Hi Hnd]. cbn [sweep].
    set (km' := match keys km !! apiName km with
                | Some ks =>
                    match ks !! i with
                    | Some k => if cooldownExpired now k then resetCooldown km i else km
                    | None => km
                    end
                | None => km
                end).
    assert (Hstep :
      apiName km' = apiName km /\ currentIndexes km' = currentIndexes km
      /\ length (Pool.pool km') = length (Pool.pool km)
      /\ (is_Some (keys km !! apiName km) -> is_Some (keys km' !! apiName km))
      /\ forall j k, Pool.pool km !! j = Some k ->
           Pool.pool km' !! j
           = Some (if bool_decide (j = i) && cooldownExpired now k then thaw k else k)).
    { subst km'. destruct (keys km !! apiName km) as [ks|] eqn:Hks.
      - pose proof (pool_lookup km ks Hks) as Hp.
        destruct (ks !! i) as [ki|] eqn:Hki.
        + destruct (cooldownExpired now ki) eqn:Hex.
          * rewrite resetCooldown_thaw.
            destruct (updateKey_frame km i thaw) as (F1 & F2 & _ & F4).
            repeat split; auto using updateKey_length.
            intros j k Hj. rewrite updateKey_pool, Hp, Hki.
            rewrite Hp in Hj. case_bool_decide as Hji.
            -- subst j. rewrite Hki in Hj. injection Hj as <-. rewrite Hex. simpl.
               apply list_lookup_insert_eq. eapply lookup_lt_Some, Hki.
            -- simpl. rewrite list_lookup_insert_ne by congruence. exact Hj.
          * refine (conj eq_refl (conj eq_refl (conj eq_refl (conj _ _)))).
            { intros _. rewrite Hks. eauto. }
            intros j k Hj. rewrite Hp in *. case_bool_decide as Hji; [|exact Hj].
            subst j. rewrite Hki in Hj. injection Hj as <-. now rewrite Hex.
        + refine (conj eq_refl (conj eq_refl (conj eq_refl (conj _ _)))).
          { intros _. rewrite Hks. eauto. }
          intros j k Hj. rewrite Hp in *. case_bool_decide as Hji; [|exact Hj].
          subst j. congruence.
      - refine (conj eq_refl (conj eq_refl (conj eq_refl (conj _ _)))).
        { intros [? ?]. discriminate. }
        intros j k Hj. rewrite (pool_none km Hks) in Hj. discriminate. }
    destruct Hstep as (S1 & S2 & S3 & S4 & S5).
    destruct (IH km' Hnd) as (H1 & H2 & H3 & H4 & H5).
    rewrite H1, H2, H3, S1, S2, S3. repeat split.
    + intros Hs. rewrite S1 in H4. apply H4, S4, Hs.
    + intros j k Hj. rewrite (H5 j _ (S5 j k Hj)). f_equal.
      destruct (decide (j = i)) as [->|Hne].
      * rewrite (bool_decide_eq_false_2 (i ∈ indexes)) by exact Hi.
        rewrite (bool_decide_eq_true_2 (i = i)) by reflexivity.
        rewrite (bool_decide_eq_true_2 (i ∈ i :: indexes)) by (left).
        reflexivity.
      * rewrite (bool_decide_eq_false_2 (j = i)) by exact Hne. simpl.
        destruct (decide (j ∈ indexes)) as [Hin|Hnin].
        -- rewrite (bool_decide_eq_true_2 (j ∈ indexes)) by exact Hin.
           rewrite (bool_decide_eq_true_2 (j ∈ i :: indexes)) by (now right).
           reflexivity.
        -- rewrite (bool_decide_eq_false_2 (j ∈ indexes)) by exact Hnin.
           rewrite (bool_decide_eq_false_2 (j ∈ i :: indexes)); [reflexivity|].
           intros Hc. apply elem_of_cons in Hc as [?|?]; contradiction.
Qed.

(** [checkAndResetCooldowns] thaws exactly the keys whose deadline has passed *)
Lemma checkAndResetCooldowns_spec (km : t) (now : Z) :
  apiName (checkAndResetCooldowns km now) = apiName km
  /\ currentIndexes (checkAndResetCooldowns km now) = currentIndexes km
  /\ length (Pool.pool (checkAndResetCooldowns km now)) = length (Pool.pool km)
  /\ (is_Some (keys km !! apiName km) ->
      is_Some (keys (checkAndResetCooldowns km now) !! apiName km))
  /\ forall j k, Pool.pool km !! j = Some k ->
       Pool.pool (checkAndResetCooldowns km now) !! j
       = Some (if cooldownExpired now k then thaw k else k).
Proof.
  unfold checkAndResetCooldowns.
  destruct (keys km !! apiName km) as [ks|] eqn:Hks.
  - destruct (sweep_spec now (seq 0 (length ks)) km (NoDup_seq 0 (length ks)))
      as (H1 & H2 & H3 & H4 & H5).
    refine (conj H1 (conj H2 (conj H3 (conj _ _)))).
    { intros _. apply H4. rewrite Hks. eauto. }
    intros j k Hj. rewrite (H5 j k Hj).
    rewrite bool_decide_eq_true_2; [reflexivity|].
    apply elem_of_seq. rewrite (pool_lookup km ks Hks) in Hj.
    apply lookup_lt_Some in Hj. lia.
  - refine (conj eq_refl (conj eq_refl (conj eq_refl (conj _ _)))).
    { intros [? ?]. discriminate. }
    intros j k Hj. rewrite (pool_none km Hks) in Hj. discriminate.
Qed.

(** the scan of [getNextKey] reaches a usable key that lies [d] places ahead *)
Lemma getNextKeyLoop_finds (ks : list ApiKeyInfo) (d : nat) :
  forall fuel c, c < length ks -> d < fuel ->
    usable ks ((c + d) mod length ks) ->
    exists i, getNextKeyLoop ks fuel c = inl (Some i) /\ usable ks i.
Proof.
  induction d as [|d IH]; intros fuel c Hc Hd Hu; (destruct fuel as [|fuel]; [lia|]);
    cbn [getNextKeyLoop].
  - rewrite Nat.add_0_r, Nat.mod_small in Hu by exact Hc.
    destruct Hu as (k & Hk & Hcool). rewrite Hk, Hcool. simpl.
    exists c. split; [reflexivity|]. exists k. now split.
  - destruct (lookup_lt_is_Some_2 ks c Hc) as [k Hk]. rewrite Hk.
    destruct (inCooldown k) eqn:Hcool; simpl.
    + apply IH.
      * apply Nat.mod_upper_bound. lia.
      * lia.
      * rewrite Nat.Div0.add_mod_idemp_l.
        replace (c + 1 + d) with (c + S d) by lia. exact Hu.
    + exists c. split; [reflexivity|]. exists k. now split.
Qed.

Lemma getNextKey_finds (km : t) (j : nat) :
  Pool.wellFormed km -> usable (Pool.pool km) j ->
  exists k, fst (getNextKey km (apiName km)) = KeyFound k /\ inCooldown k = false.
Proof.
  intros Hidx Hu. unfold Pool.wellFormed in Hidx. unfold getNextKey.
  destruct (keys km !! apiName km) as [ks|] eqn:Hks.
  2: { rewrite (pool_none km Hks) in Hu. destruct Hu as (k & Hk & _). discriminate. }
  rewrite (pool_lookup km ks Hks) in *.
  assert (Hj : j < length ks).
  { destruct Hu as (k & Hk & _). eapply lookup_lt_Some, Hk. }
  destruct (length ks =? 0) eqn:E; [apply Nat.eqb_eq in E; lia|].
  destruct Hidx as [->|Hidx]; [simpl in Hj; lia|].
  set (c := getCurrentKeyIndex km (apiName km)) in *.
  destruct (getNextKeyLoop_finds ks ((j + length ks - c) mod length ks)
              (length ks * 2) c Hidx) as (i & Hi & (k & Hk & Hcool)).
  - pose proof (Nat.mod_upper_bound (j + length ks - c) (length ks)). lia.
  - rewrite Nat.Div0.add_mod_idemp_r.
    replace (c + (j + length ks - c)) with (j + 1 * length ks) by lia.
    rewrite Nat.Div0.mod_add, Nat.mod_small by exact Hj. exact Hu.
  - rewrite Hi, Hk. simpl. exists k. now split.
Qed.

Lemma getAvailableKeyCount_pos (km : t) (j : nat) :
  usable (Pool.pool km) j -> 0 < getAvailableKeyCount km.
Proof.
  intros (k & Hk & Hcool). unfold getAvailableKeyCount.
  destruct (keys km !! apiName km) as [ks|] eqn:Hks.
  - rewrite (pool_lookup km ks Hks) in Hk.
    assert (Hin : In k (List.filter (fun k => negb (inCooldown k)) ks)).
    { apply List.filter_In. split; [|now rewrite Hcool].
      apply list_elem_of_In, list_elem_of_lookup. eauto. }
    destruct (List.filter _ ks); [destruct Hin | simpl; lia].
  - rewrite (pool_none km Hks) in Hk. discriminate.
Qed.

(** *** The current index stays inside the pool *)

Lemma wellFormed_frame (km km' : t) :
  apiName km' = apiName km ->
  currentIndexes km' = currentIndexes km ->
  length (Pool.pool km') = length (Pool.pool km) ->
  Pool.wellFormed km -> Pool.wellFormed km'.
Proof.
  intros Hn Hc Hl. unfold Pool.wellFormed, getCurrentKeyIndex. rewrite Hn, Hc, Hl.
  intros [Hnil|Hidx]; [|now right].
  left. apply length_zero_iff_nil. rewrite Hl, Hnil. reflexivity.
Qed.

Lemma wellFormed_setCurrentIndex (km : t) (name : string) (i : nat) :
  (name = apiName km -> i < length (Pool.pool km)) ->
  Pool.wellFormed km -> Pool.wellFormed (setCurrentIndex km name i).
Proof.
  intros Hi Hwf. unfold Pool.wellFormed, getCurrentKeyIndex in *.
  rewrite pool_setCurrentIndex. cbn [setCurrentIndex apiName currentIndexes].
  destruct (decide (name = apiName km)) as [->|Hne].
  - rewrite lookup_insert_eq. right. now apply Hi.
  - rewrite lookup_insert_ne by exact Hne. exact Hwf.
Qed.

Lemma new_wellFormed (env : Env) (name : string) (cfg : ResilienceConfig) :
  Pool.wellFormed (new env name cfg).
Proof.
  unfold new, initializeKeys.
  destruct (ENV_VAR_MAP name) as [envVar|]; [|now left].
  destruct (env !! envVar) as [keyEnv|]; [|now left].
  destruct (negb (Js.truthy keyEnv) || negb (Js.truthy (Js.trim keyEnv))); [now left|].
  assert (H : forall ks,
             Pool.wellFormed
               (setCurrentIndex
                  (setKeys {| keys := ∅; currentIndexes := ∅; config := cfg; apiName := name |}
                     name ks) name 0)).
  { intros ks. unfold Pool.wellFormed, getCurrentKeyIndex, Pool.pool, getKeyInfo.
    cbn [setCurrentIndex setKeys apiName keys currentIndexes].
    rewrite !lookup_insert_eq. cbn [default].
    destruct ks; [now left | right; simpl; lia]. }
  destruct (Js.includes keyEnv ","); apply H.
Qed.

Lemma updateKey_wellFormed (km : t) (i : nat) (f : ApiKeyInfo -> ApiKeyInfo) :
  Pool.wellFormed km -> Pool.wellFormed (updateKey km i f).
Proof.
  destruct (updateKey_frame km i f) as (F1 & F2 & _).
  apply wellFormed_frame; auto using updateKey_length.
Qed.

Lemma markRateLimit_wellFormed (km : t) (now : Z) (i : nat) :
  Pool.wellFormed km -> Pool.wellFormed (markRateLimit km now i).
Proof. apply updateKey_wellFormed. Qed.

Lemma resetCooldown_wellFormed (km : t) (i : nat) :
  Pool.wellFormed km -> Pool.wellFormed (resetCooldown km i).
Proof. apply updateKey_wellFormed. Qed.

Lemma checkAndResetCooldowns_wellFormed (km : t) (now : Z) :
  Pool.wellFormed km -> Pool.wellFormed (checkAndResetCooldowns km now).
Proof.
  destruct (checkAndResetCooldowns_spec km now) as (C1 & C2 & C3 & _).
  now apply wellFormed_frame.
Qed.

Lemma hasAvailableKey_wellFormed (km : t) (now : Z) :
  Pool.wellFormed km -> Pool.wellFormed (snd (hasAvailableKey km now)).
Proof. apply checkAndResetCooldowns_wellFormed. Qed.

Lemma recordUsage_wellFormed (km : t) (now : Z) (i : nat) :
  Pool.wellFormed km -> Pool.wellFormed (recordUsage km now i).
Proof.
  intros Hwf. unfold recordUsage.
  destruct (keys km !! apiName km) as [ks|] eqn:Hks; [|exact Hwf].
  destruct (length ks <=? i) eqn:E; [exact Hwf|]. apply Nat.leb_gt in E.
  match goal with |- context [updateKey km i ?f] => set (g := f) end.
  destruct (updateKey_frame km i g) as (F1 & _).
  rewrite <- F1. apply wellFormed_setCurrentIndex.
  - intros _. rewrite updateKey_length, (pool_lookup km ks Hks). exact E.
  - now apply updateKey_wellFormed.
Qed.

Lemma getNextKeyLoop_in_range (ks : list ApiKeyInfo) (fuel c i : nat) :
  getNextKeyLoop ks fuel c = inl (Some i) -> i < length ks.
Proof.
  revert c. induction fuel as [|fuel IH]; intros c; cbn [getNextKeyLoop]; [discriminate|].
  destruct (ks !! c) as [k|] eqn:Hk; [|discriminate].
  destruct (negb (inCooldown k)).
  - intros H. injection H as <-. eapply lookup_lt_Some, Hk.
  - apply IH.
Qed.

Lemma getNextKey_wellFormed (km : t) (name : string) :
  Pool.wellFormed km -> Pool.wellFormed (snd (getNextKey km name)).
Proof.
  intros Hwf. unfold getNextKey.
  destruct (keys km !! name) as [ks|] eqn:Hks; [|exact Hwf].
  destruct (length ks =? 0); [exact Hwf|].
  destruct (getNextKeyLoop ks (length ks * 2) (getCurrentKeyIndex km name))
    as [[i|]|[]] eqn:E; try exact Hwf.
  destruct (ks !! i) as [k|] eqn:Hk; [|exact Hwf]. cbn [snd].
  apply wellFormed_setCurrentIndex; [|exact Hwf].
  intros ->. rewrite (pool_lookup km ks Hks). eapply lookup_lt_Some, Hk.
Qed.

Lemma rotateLoop_in_range (ks : list ApiKeyInfo) (fuel c start i : nat) :
  rotateLoop ks fuel c start = Some i -> i < length ks.
Proof.
  revert c. induction fuel as [|fuel IH]; intros c; cbn [rotateLoop]; [discriminate|].
  destruct (ks !! ((c + 1) mod length ks)) as [k|] eqn:Hk; [|discriminate].
  destruct (negb (inCooldown k)).
  - intros H. injection H as <-. eapply lookup_lt_Some, Hk.
  - destruct (_ =? _); [discriminate | apply IH].
Qed.

Lemma rotateKey_wellFormed (km : t) :
  Pool.wellFormed km -> Pool.wellFormed (snd (rotateKey km)).
Proof.
  intros Hwf. unfold rotateKey.
  destruct (keys km !! apiName km) as [ks|] eqn:Hks; [|exact Hwf].
  destruct (length ks <=? 1); [exact Hwf|].
  destruct (rotateLoop ks (length ks) _ _) as [i|] eqn:E; [|exact Hwf]. cbn [snd].
  apply wellFormed_setCurrentIndex; [|exact Hwf].
  intros _. rewrite (pool_lookup km ks Hks). eapply rotateLoop_in_range, E.
Qed.

(** C7 (as amended): for every key pool, after rate-limit marks on all of
    its keys, [getNextKey] returns none and [rotateKey] fails, and both
    leave the pool as it is, whatever time it is: neither clears an
    expired cooldown.  Expired cooldowns are cleared by
    [checkAndResetCooldowns], which [hasAvailableKey] runs: once the
    cooldown deadline of any single key has passed, [hasAvailableKey]
    answers true, and the next [getNextKey] returns a key again. *)
Theorem exhausted_pool_recovers_after_sweep (km : t) (marks : list (Z * nat)) :
  Pool.wellFormed km ->
  Pool.coversPool km marks ->
  let km1 := markAll km marks in
  getNextKey km1 (apiName km1) = (KeyNull, km1)
  /\ rotateKey km1 = (false, km1)
  /\ forall (now : Z) (i : nat),
       Pool.deadlinePassed km1 i now ->
       let km2 := snd (hasAvailableKey km1 now) in
       fst (hasAvailableKey km1 now) = true
       /\ exists k, fst (getNextKey km2 (apiName km2)) = KeyFound k
                    /\ inCooldown k = false.
Proof.
  intros Hwf Hcov km1.
  destruct (markAll_frame marks km) as (F1 & F2 & F3 & _).
  assert (Hwf1 : Pool.wellFormed km1).
  { subst km1. unfold Pool.wellFormed, getCurrentKeyIndex in *. rewrite F1, F2, F3.
    destruct Hwf as [Hnil|Hidx]; [|now right].
    left. apply length_zero_iff_nil. rewrite F3, Hnil. reflexivity. }
  assert (Hall : forall j, j < length (Pool.pool km1) -> cooled (Pool.pool km1) j).
  { intros j Hj. subst km1. rewrite F3 in Hj.
    apply markAll_cooled; [exact Hj | left; apply Hcov, Hj]. }
  split; [apply getNextKey_exhausted; assumption|].
  split; [apply rotateKey_exhausted; assumption|].
  intros now i (k & until & Hk & Hcool & Hun & Hnz & Hle). cbv zeta.
  unfold hasAvailableKey. cbn [fst snd].
  destruct (checkAndResetCooldowns_spec km1 now) as (C1 & C2 & C3 & _ & C5).
  assert (Hu : usable (Pool.pool (checkAndResetCooldowns km1 now)) i).
  { exists (thaw k). split; [|reflexivity].
    rewrite (C5 i k Hk). unfold cooldownExpired. rewrite Hcool, Hun. simpl.
    replace (until =? 0)%Z with false by (symmetry; apply Z.eqb_neq; exact Hnz).
    replace (until <=? now)%Z with true by (symmetry; apply Z.leb_le; exact Hle).
    reflexivity. }
  split.
  - apply Nat.ltb_lt. eapply getAvailableKeyCount_pos, Hu.
  - apply (getNextKey_finds _ i); [|exact Hu].
    unfold Pool.wellFormed, getCurrentKeyIndex in *. rewrite C1, C2, C3.
    destruct Hwf1 as [Hnil|Hidx]; [|now right].
    rewrite Hnil in Hk. discriminate.
Qed.

Lemma twoKeyPool_wellFormed : Pool.wellFormed twoKeyPool.
Proof. right. vm_compute. lia. Defined.

Lemma exhausted_pool_recovers_witness :
  let km1 := markAll twoKeyPool [(1000%Z, 0); (1001%Z, 1)] in
  fst (getNextKey km1 "finnhub") = KeyNull
  /\ fst (hasAvailableKey km1 3601000%Z) = true
  /\ exists k, fst (getNextKey (snd (hasAvailableKey km1 3601000%Z)) "finnhub") = KeyFound k
               /\ inCooldown k = false.
Proof.
  assert (Hcov : Pool.coversPool twoKeyPool [(1000%Z, 0); (1001%Z, 1)]).
  { intros i Hi. change (length (Pool.pool twoKeyPool)) with 2 in Hi.
    destruct i as [|[|i]]; simpl; [now left | now right; left | lia]. }
  destruct (exhausted_pool_recovers_after_sweep twoKeyPool [(1000%Z, 0); (1001%Z, 1)]
              twoKeyPool_wellFormed Hcov) as (H1 & _ & H3).
  assert (Hpassed : Pool.deadlinePassed (markAll twoKeyPool [(1000%Z, 0); (1001%Z, 1)])
                      0 3601000%Z).
  { eexists. exists 3601000%Z. split; [vm_compute; reflexivity|].
    split; [reflexivity|]. split; [reflexivity|]. split; [discriminate|]. apply Z.le_refl. }
  destruct (H3 3601000%Z 0 Hpassed) as [H4 H5].
  cbv zeta. split; [exact (f_equal fst H1)|]. split; [exact H4 | exact H5].
Defined.

(** C7 (as stated) fails: the single key of the pool was marked at time
    1000 and its deadline 3601000 has passed at time 4000000, yet
    [getNextKey] returns none and [rotateKey] fails, and neither changes
    the pool: the cooldown is not cleared on acquire or rotate. *)
Lemma acquire_does_not_clear_cooldowns :
  let km1 := markRateLimit oneKeyPool 1000%Z 0 in
  Pool.deadlinePassed km1 0 4000000%Z
  /\ getNextKey km1 "finnhub" = (KeyNull, km1)
  /\ rotateKey km1 = (false, km1)
  /\ fst (getNextKey (snd (rotateKey (snd (getNextKey km1 "finnhub")))) "finnhub") = KeyNull.
Proof.
  cbv zeta. split.
  - eexists. exists 3601000%Z. split; [vm_compute; reflexivity|].
    split; [reflexivity|]. split; [reflexivity|]. split; [discriminate|]. lia.
  - split; [vm_compute; reflexivity|]. split; vm_compute; reflexivity.
Qed.

End KeyPool.

(** ** Dispatcher *)

Section Dispatcher.

Context {T : Type}.

Import ResilientApiClient.
Local Open Scope list_scope.

Lemma invoke_frame (executor : SourceExecutor T) (src : ApiSource)
    (ki : option nat) (st : State) :
  client (snd (invoke executor src ki st)) = client st
  /\ calls (snd (invoke executor src ki st))
     = calls st ++ [{| callSource := src; callKeyIndex := ki; callTime := clock st |}].
Proof. split; reflexivity. Qed.

(** the key-rotation loop leaves the client alone and only invokes the
    executor for its own source *)
Lemma keyRotationLoop_frame (executor : SourceExecutor T) (src : ApiSource) (fuel : nat) :
  forall lastError km st r km' st',
    keyRotationLoop executor src fuel lastError km st = (r, km', st') ->
    client st' = client st
    /\ exists newcalls, calls st' = calls st ++ newcalls
                        /\ Forall (fun c => callSource c = src) newcalls.
Proof.
  induction fuel as [|fuel IH]; intros lastError km st r km' st' H; cbn [keyRotationLoop] in H.
  - injection H as <- <- <-. split; [reflexivity|]. exists []. now rewrite app_nil_r.
  - destruct (KeyManager.getNextKey km src) as [[keyInfo| |] km1].
    + destruct (invoke executor src (Some (KeyManager.getCurrentKeyIndex km1 src)) st)
        as [r1 st1] eqn:Einv.
      pose proof (invoke_frame executor src (Some (KeyManager.getCurrentKeyIndex km1 src)) st)
        as [Hc Hcalls].
      rewrite Einv in Hc, Hcalls. cbn [snd] in Hc, Hcalls.
      assert (Hone : client st1 = client st
                     /\ exists newcalls, calls st1 = calls st ++ newcalls
                          /\ Forall (fun c => callSource c = src) newcalls).
      { split; [exact Hc|]. eexists. split; [exact Hcalls|]. repeat constructor. }
      destruct r1 as [v|e].
      * injection H as <- <- <-. exact Hone.
      * destruct (ErrorDetection.isRateLimitError e).
        -- destruct (KeyManager.rotateKey _) as [rotated km3].
           destruct rotated; cbn [negb] in H.
           ++ destruct (IH _ _ _ _ _ _ H) as (Hc' & more & Hm & Hall).
              split; [congruence|].
              exists ([{| callSource := src;
                          callKeyIndex := Some (KeyManager.getCurrentKeyIndex km1 src);
                          callTime := clock st |}] ++ more).
              split; [rewrite Hm, Hcalls, <- app_assoc; reflexivity|].
              constructor; [reflexivity | exact Hall].
           ++ injection H as <- <- <-. exact Hone.
        -- injection H as <- <- <-. exact Hone.
    + injection H as <- <- <-. split; [reflexivity|]. exists []. now rewrite app_nil_r.
    + injection H as <- <- <-. split; [reflexivity|]. exists []. now rewrite app_nil_r.
Qed.

Lemma setKeyManager_breakers (c : t) (src : ApiSource) (km : KeyManager.t) :
  circuitBreakers (setKeyManager c src km) = circuitBreakers c.
Proof. reflexivity. Qed.

Lemma executeWithKeyRotation_frame (executor : SourceExecutor T) (src : ApiSource)
    (st st' : State) (r : Result T) :
  executeWithKeyRotation executor src st = (r, st') ->
  circuitBreakers (client st') = circuitBreakers (client st)
  /\ exists newcalls, calls st' = calls st ++ newcalls
                      /\ Forall (fun c => callSource c = src) newcalls.
Proof.
  unfold executeWithKeyRotation. intros H.
  destruct (keyManagers (client st) !! src) as [km|].
  - destruct (keyRotationLoop executor src (KeyManager.getTotalKeyCount km) None km st)
      as [[r1 km'] st1] eqn:E.
    injection H as <- <-.
    destruct (keyRotationLoop_frame _ _ _ _ _ _ _ _ _ E) as [Hc Hcalls].
    cbn [withClient client calls]. rewrite setKeyManager_breakers, Hc.
    split; [reflexivity | exact Hcalls].
  - pose proof (invoke_frame executor src None st) as [Hc Hcalls].
    rewrite H in Hc, Hcalls. cbn [snd] in Hc, Hcalls.
    split; [now rewrite Hc|]. eexists. split; [exact Hcalls|]. repeat constructor.
Qed.

Lemma isSourceAvailable_frame (st st1 : State) (src : ApiSource) (b : bool) :
  isSourceAvailable st src = (b, st1) ->
  circuitBreakers (client st1) = circuitBreakers (client st)
  /\ calls st1 = calls st /\ clock st1 = clock st.
Proof.
  unfold isSourceAvailable. intros H.
  destruct (negb (getClientForSource (client st) src)).
  - injection H as <- <-. repeat split.
  - destruct (keyManagers (client st) !! src) as [km|].
    + destruct (KeyManager.hasAvailableKey km (clock st)) as [b' km'].
      injection H as <- <-. repeat split.
    + injection H as <- <-. repeat split.
Qed.

Lemma cascade_spec (toolName : string) (executor : SourceExecutor T) (t0 : Z)
    (sources : list ApiSource) :
  forall acc st d st',
    cascade toolName executor t0 sources acc st = (d, st') ->
    circuitBreakers (client st') = circuitBreakers (client st)
    /\ exists fresh newcalls,
         recordedAttempts d = acc ++ fresh
         /\ sublist (map source fresh) sources
         /\ calls st' = calls st ++ newcalls
         /\ Forall (fun c => In (callSource c) (map source fresh)) newcalls
         /\ endsWell toolName d fresh.
Proof.
  induction sources as [|src rest IH]; intros acc st d st' H; cbn [cascade] in H.
  - injection H as <- <-. split; [reflexivity|].
    exists [], []. rewrite !app_nil_r. cbn.
    repeat split; try constructor.
  - destruct (isSourceAvailable st src) as [available st1] eqn:Eav.
    destruct (isSourceAvailable_frame _ _ _ _ Eav) as (B1 & C1 & _).
    destruct available; cbn [negb] in H.
    + destruct (executeWithKeyRotation executor src st1) as [r st2] eqn:Erot.
      destruct (executeWithKeyRotation_frame _ _ _ _ _ Erot) as (B2 & mine & C2 & Hmine).
      destruct r as [v|e].
      * injection H as <- <-. split; [congruence|].
        eexists [_], mine. cbn [recordedAttempts attempts].
        split; [reflexivity|]. split; [cbn; apply sublist_skip, sublist_nil_l|].
        split; [congruence|]. split.
        { eapply Forall_impl; [exact Hmine|]. intros c Hc. cbn. now left. }
        cbn. eexists [], _. repeat split. constructor.
      * destruct (ErrorDetection.shouldFailoverToNextSource e) eqn:Efo; cbn [negb] in H.
        -- destruct (IH _ _ _ _ H) as (B3 & fresh & more & R & S & C3 & Hmore & Hend).
           split; [congruence|].
           eexists (_ :: fresh), (mine ++ more).
           split; [rewrite R, <- app_assoc; reflexivity|].
           split; [cbn; now apply sublist_skip|].
           { split; [rewrite C3, C2, C1, app_assoc; reflexivity|]. split.
                - apply Forall_app. split.
                  + eapply Forall_impl; [exact Hmine|]. intros c Hc. cbn. now left.
                  + eapply Forall_impl; [exact Hmore|]. intros c Hc. cbn. now right.
                - destruct d as [r|e' rec|m att]; cbn in Hend |- *.
                  + destruct Hend as (init & a & -> & Hinit & Hs & Hw).
                    eexists (_ :: init), a. repeat split; auto.
                  + destruct Hend as (init & a & -> & Hinit & Hs & He & Hne).
                    eexists (_ :: init), a. repeat split; auto.
                  + destruct Hend as [Hf Hm]. split; [|exact Hm].
                    constructor; [reflexivity | exact Hf]. }
        -- injection H as <- <-. split; [congruence|].
           eexists [_], mine. cbn [recordedAttempts].
           split; [reflexivity|]. split; [cbn; apply sublist_skip, sublist_nil_l|].
           split; [congruence|]. split.
           { eapply Forall_impl; [exact Hmine|]. intros c Hc. cbn. now left. }
           cbn. eexists [], _. repeat split; [constructor|].
           unfold ErrorDetection.shouldFailoverToNextSource in Efo.
           apply orb_false_iff in Efo as [_ Efo]. exact Efo.
    + destruct (IH _ _ _ _ H) as (B3 & fresh & more & R & S & C3 & Hmore & Hend).
      split; [congruence|]. exists fresh, more.
      split; [exact R|]. split; [now apply sublist_cons|].
      split; [congruence|]. split; assumption.
Qed.

End Dispatcher.

Section DispatchProperties.

Context {T : Type}.

Import ResilientApiClient.
Local Open Scope list_scope.



(** every [Error] takes the dispatcher to the next candidate, whatever its class *)
Lemma every_Error_fails_over (e : Thrown) :
  ErrorDetection.instanceofError e = true ->
  ErrorDetection.shouldFailoverToNextSource e = true.
Proof.
  intros H. unfold ErrorDetection.shouldFailoverToNextSource. rewrite H.
  apply orb_true_r.
Qed.


(** a dispatch run ends by rethrowing only a value that is not an [Error],
    and that value is the error of the last recorded attempt *)
Lemma dispatch_rethrows_only_non_Errors
    (router : SourceRouter.t) (st : State) (toolName : string)
    (executor : SourceExecutor T) (symbol : option string)
    (e : Thrown) (recorded : list FailoverAttempt) :
  fst (executeWithCascadingFailover router st toolName executor symbol) = Rethrown e recorded ->
  ErrorDetection.instanceofError e = false
  /\ exists init a, recorded = init ++ [a] /\ success a = false /\ error a = Some e.
Proof.
  unfold executeWithCascadingFailover.
  destruct (cascade toolName executor (clock st) _ [] st) as [d st'] eqn:E.
  destruct (cascade_spec _ _ _ _ _ _ _ _ E) as (_ & fresh & newcalls & R & _ & _ & _ & Hend).
  cbn [fst]. intros ->. cbn in R, Hend. subst fresh.
  destruct Hend as (init & a & -> & _ & Hs & He & Hne).
  split; [exact Hne|]. exists init, a. repeat split; assumption.
Qed.


(** without custom priorities no candidate list repeats a provider ... *)
Lemma default_routes_have_no_repetition (toolName : string) (symbol : option string) :
  NoDup (SourceRouter.getSourcesForTool Scenario.router toolName symbol).
Proof.
  assert (Hcover : forall m, NoDup (SourceRouter.MARKET_SOURCE_FILTER m)).
  { intros m. apply (bool_decide_unpack _). destruct m; vm_compute; exact I. }
  assert (Hbase : NoDup (SourceRouter.baseSources Scenario.router toolName)).
  { unfold SourceRouter.baseSources.
    replace (SourceRouter.customPriorities Scenario.router) with
      (∅ : gmap string (list ApiSource)) by (vm_compute; reflexivity).
    rewrite lookup_empty.
    unfold SourceRouter.OPTIMAL_SOURCE_MAP. cbn [SourceRouter.lookupTool].
    repeat match goal with
           | |- context [if String.eqb ?a toolName then _ else _] =>
               destruct (String.eqb a toolName)
           end;
      apply (bool_decide_unpack _); vm_compute; exact I. }
  unfold SourceRouter.getSourcesForTool.
  destruct symbol as [sym|]; [|exact Hbase].
  destruct (Js.truthy sym); [|exact Hbase]. cbv zeta.
  destruct (length _ =? 0)%nat; [apply Hcover|].
  apply NoDup_ListNoDup, List.NoDup_filter, NoDup_ListNoDup, Hbase.
Qed.

(** ... so every run records at most one attempt per provider *)
Lemma one_attempt_per_provider_by_default
    (st : State) (toolName : string) (executor : SourceExecutor T) (symbol : option string) :
  NoDup (map source (recordedAttempts
           (fst (executeWithCascadingFailover Scenario.router st toolName executor symbol)))).
Proof.
  unfold executeWithCascadingFailover.
  destruct (cascade toolName executor (clock st) _ [] st) as [d st'] eqn:E.
  destruct (cascade_spec _ _ _ _ _ _ _ _ E) as (_ & fresh & _ & R & S & _).
  cbn [fst]. rewrite R. cbn [app].
  eapply sublist_NoDup; [apply default_routes_have_no_repetition | exact S].
Qed.

End DispatchProperties.

Section KeyRotation.

Context {T : Type}.

Import ResilientApiClient.
Local Open Scope list_scope.

(** a sweep finds nothing to reset when no cooldown has expired *)
Lemma sweep_idle (km : KeyManager.t) (now : Z) (indexes : list nat) :
  (forall i k, Pool.pool km !! i = Some k -> KeyManager.cooldownExpired now k = false) ->
  KeyManager.sweep km now indexes = km.
Proof.
  intros Hidle. induction indexes as [|i indexes IH]; cbn [KeyManager.sweep]; [reflexivity|].
  destruct (KeyManager.keys km !! KeyManager.apiName km) as [ks|] eqn:Hks; [|exact IH].
  destruct (ks !! i) as [k|] eqn:Hk; [|exact IH].
  rewrite (Hidle i k); [exact IH|]. now rewrite (pool_lookup km ks Hks).
Qed.

Section Pair.

Import KeyManager.

Variables (src : ApiSource) (km : KeyManager.t) (k0 k1 : ApiKeyInfo).
Hypothesis Hname : apiName km = src.
Hypothesis Hkeys : keys km !! src = Some [k0; k1].
Hypothesis Hidx : getCurrentKeyIndex km src = 0%nat.
Hypothesis Hfree0 : inCooldown k0 = false.
Hypothesis Hfree1 : inCooldown k1 = false.

Lemma pair_count : getTotalKeyCount km = 2%nat.
Proof. unfold getTotalKeyCount. now rewrite Hname, Hkeys. Qed.

Lemma pair_available (now : Z) : hasAvailableKey km now = (true, km).
Proof.
  unfold hasAvailableKey, checkAndResetCooldowns. rewrite Hname, Hkeys.
  rewrite sweep_idle.
  - unfold getAvailableKeyCount. rewrite Hname, Hkeys. cbn [List.filter].
    rewrite Hfree0, Hfree1. reflexivity.
  - intros i k. unfold Pool.pool, getKeyInfo. rewrite Hname, Hkeys. cbn [default].
    intros Hk. unfold cooldownExpired.
    destruct i as [|[|i]]; cbn in Hk; try discriminate; injection Hk as <-.
    + now rewrite Hfree0.
    + now rewrite Hfree1.
Qed.

Lemma pair_first : getNextKey km src = (KeyFound k0, setCurrentIndex km src 0).
Proof. unfold getNextKey. rewrite Hkeys, Hidx. simpl. rewrite Hfree0. reflexivity. Qed.

Lemma current_after_set (m : KeyManager.t) (i : nat) :
  getCurrentKeyIndex (setCurrentIndex m src i) src = i.
Proof. unfold getCurrentKeyIndex. cbn [setCurrentIndex currentIndexes]. now rewrite lookup_insert_eq. Qed.

Lemma marked_shape (t : Z) :
  apiName (Pool.marked src km t) = src
  /\ (exists k0', keys (Pool.marked src km t) !! src = Some [k0'; k1]
                  /\ inCooldown k0' = true)
  /\ getCurrentKeyIndex (Pool.marked src km t) src = 0%nat.
Proof.
  unfold Pool.marked, markRateLimit, updateKey, getCurrentKeyIndex.
  cbn [setCurrentIndex apiName keys config currentIndexes].
  rewrite Hname, Hkeys. simpl. rewrite !lookup_insert_eq.
  split; [exact Hname|]. split; [|reflexivity].
  eexists. split; reflexivity.
Qed.

Lemma pair_rotate (t : Z) :
  rotateKey (Pool.marked src km t) = (true, setCurrentIndex (Pool.marked src km t) src 1).
Proof.
  destruct (marked_shape t) as (Hn & (k0' & Hk & _) & Hc).
  unfold rotateKey. rewrite Hn, Hk, Hc. simpl. rewrite Hfree1. reflexivity.
Qed.

Lemma pair_second (t : Z) :
  getNextKey (setCurrentIndex (Pool.marked src km t) src 1) src
  = (KeyFound k1, setCurrentIndex (setCurrentIndex (Pool.marked src km t) src 1) src 1).
Proof.
  destruct (marked_shape t) as (Hn & (k0' & Hk & _) & Hc).
  unfold getNextKey, getCurrentKeyIndex. cbn [setCurrentIndex keys currentIndexes].
  rewrite Hk, lookup_insert_eq. simpl. rewrite Hfree1. reflexivity.
Qed.

Lemma settled_shape (t1 t2 : Z) :
  Pool.cooled (Pool.pool (Pool.settled src km t1 t2)) 0
  /\ Pool.usable (Pool.pool (Pool.settled src km t1 t2)) 1
  /\ getCurrentKeyIndex (Pool.settled src km t1 t2) src = 1%nat.
Proof.
  destruct (marked_shape t1) as (Hn & (k0' & Hk & Hcool) & Hc).
  unfold Pool.settled, recordUsage, updateKey, Pool.pool, getKeyInfo, getCurrentKeyIndex.
  cbn [setCurrentIndex keys currentIndexes apiName].
  rewrite Hn, Hk. simpl. rewrite Hn, !lookup_insert_eq. simpl.
  split; [|split].
  - exists k0'. split; [reflexivity | exact Hcool].
  - eexists. split; [reflexivity | exact Hfree1].
  - reflexivity.
Qed.

Hypothesis Hindex0 : index k0 = 0%nat.
Hypothesis Hindex1 : index k1 = 1%nat.

(** the key-rotation loop over the pair when the first key is rate
    limited and the second works: two invocations, one result *)
Lemma rotation_over_pair (executor : SourceExecutor T) (st : State) :
  (forall v, viewKeyIndex v = Some 0%nat ->
     exists e, res (executor src v) = Throw e
               /\ ErrorDetection.isRateLimitError e = true) ->
  (forall v, viewKeyIndex v = Some 1%nat ->
     exists d, res (executor src v) = Ok d) ->
  exists d t1 t2,
    keyRotationLoop executor src 2 None km st
    = (Ok d, Pool.settled src km t1 t2,
       {| client := client st; clock := t2;
          calls := calls st ++
            [{| callSource := src; callKeyIndex := Some 0%nat; callTime := clock st |};
             {| callSource := src; callKeyIndex := Some 1%nat; callTime := t1 |}] |}).
Proof.
  intros Hlimited Hworks.
  cbn [keyRotationLoop]. rewrite pair_first, current_after_set.
  unfold invoke at 1.
  destruct (Hlimited {| viewKeyIndex := Some 0%nat; viewCallsBefore := length (calls st);
                        viewNow := clock st |} eq_refl) as (e & He & Hrate).
  rewrite He, Hrate, Hindex0. cbn [clock].
  fold (Pool.marked src km (clock st + elapsed (executor src
          {| viewKeyIndex := Some 0%nat; viewCallsBefore := length (calls st);
             viewNow := clock st |}))).
  rewrite pair_rotate. cbn [negb].
  rewrite pair_second, current_after_set.
  unfold invoke. cbn [clock calls client].
  match goal with
  | |- context [executor src ?v] =>
      match v with
      | {| viewKeyIndex := Some 1%nat |} =>
          destruct (Hworks v eq_refl) as (d & Hd); rewrite Hd
      end
  end.
  rewrite Hindex1. eexists d, _, _. unfold Pool.settled.
  rewrite <- app_assoc. reflexivity.
Qed.

End Pair.

(** C4 (as amended): for a dispatch whose first candidate is a provider
    with a two-key pool, where the executor raises a rate-limit error
    under key 0 and succeeds under key 1, the executor is invoked twice
    for that provider, under key index 0 then 1, but the returned result
    logs exactly one attempt: for that provider, successful, with the key
    index 0 that was current when the attempt started; the winning
    provider is that provider, key 0 is left in cooldown and key 1 is the
    current key. *)
Theorem rate_limited_key_rotates_within_one_attempt
    (router : SourceRouter.t) (toolName : string) (symbol : option string)
    (src : ApiSource) (rest : list ApiSource)
    (st : State) (km : KeyManager.t) (executor : SourceExecutor T) :
  SourceRouter.getSourcesForTool router toolName symbol = src :: rest ->
  getClientForSource (client st) src = true ->
  keyManagers (client st) !! src = Some km ->
  Pool.freshPair src km ->
  (forall v, viewKeyIndex v = Some 0%nat ->
     exists e, res (executor src v) = Throw e
               /\ ErrorDetection.isRateLimitError e = true) ->
  (forall v, viewKeyIndex v = Some 1%nat ->
     exists d, res (executor src v) = Ok d) ->
  let run := executeWithCascadingFailover router st toolName executor symbol in
  exists r a km' t1,
    fst run = Returned r
    /\ attempts r = [a]
    /\ source a = src /\ keyIndex a = 0%nat /\ success a = true
    /\ winner r = src
    /\ calls (snd run)
       = calls st ++
         [{| callSource := src; callKeyIndex := Some 0%nat; callTime := clock st |};
          {| callSource := src; callKeyIndex := Some 1%nat; callTime := t1 |}]
    /\ keyManagers (client (snd run)) !! src = Some km'
    /\ Pool.cooled (Pool.pool km') 0
    /\ Pool.usable (Pool.pool km') 1
    /\ KeyManager.getCurrentKeyIndex km' src = 1%nat.
Proof.
  intros Hfirst Hclient Hkm (k0 & k1 & Hname & Hkeys & Hidx & Hf0 & Hf1 & Hi0 & Hi1)
    Hlimited Hworks run. subst run.
  unfold executeWithCascadingFailover. rewrite Hfirst. cbn [cascade].
  unfold isSourceAvailable. rewrite Hclient, Hkm. cbn [negb].
  rewrite (pair_available src km k0 k1 Hname Hkeys Hf0 Hf1).
  unfold executeWithKeyRotation.
  cbn [withClient client clock calls setKeyManager keyManagers].
  rewrite lookup_insert_eq, (pair_count src km k0 k1 Hname Hkeys), Hidx.
  match goal with
  | |- context [keyRotationLoop executor src 2 None km ?s] =>
      destruct (rotation_over_pair src km k0 k1 Hname Hkeys Hidx Hf0 Hf1 Hi0 Hi1
                  executor s Hlimited Hworks) as (d & t1 & t2 & Hloop)
  end.
  rewrite Hloop. cbn [fst snd withClient client calls clock].
  destruct (settled_shape src km k0 k1 Hname Hkeys Hf1 t1 t2) as (Hc & Hu & Hcur).
  eexists _, _, (Pool.settled src km t1 t2), t1.
  split; [reflexivity|]. cbn [attempts winner].
  split; [reflexivity|]. cbn [source keyIndex success app].
  do 5 (split; [reflexivity|]).
  split; [cbn [keyManagers]; apply lookup_insert_eq|].
  split; [exact Hc|]. split; [exact Hu | exact Hcur].
Qed.

End KeyRotation.

(** ** Dispatch runs *)

Section DispatchRuns.

Import ResilientApiClient.
Local Open Scope list_scope.

Lemma firstKeyLimited_key0 (v : ExecView) :
  viewKeyIndex v = Some 0%nat ->
  exists e, res (Scenario.firstKeyLimited "finnhub" v) = Throw e
            /\ ErrorDetection.isRateLimitError e = true.
Proof.
  intros Hv. unfold Scenario.firstKeyLimited. rewrite Hv.
  eexists. split; [reflexivity | vm_compute; reflexivity].
Qed.

Lemma firstKeyLimited_key1 (v : ExecView) :
  viewKeyIndex v = Some 1%nat ->
  exists d, res (Scenario.firstKeyLimited "finnhub" v) = Ok d.
Proof.
  intros Hv. unfold Scenario.firstKeyLimited. rewrite Hv. eexists. reflexivity.
Qed.

Lemma twoKeyPool_freshPair : Pool.freshPair "finnhub" twoKeyPool.
Proof.
  exists (KeyManager.freshKey "bad1" 0), (KeyManager.freshKey "good2" 1).
  repeat split; vm_compute; reflexivity.
Defined.

Lemma rate_limited_key_rotates_witness :
  let st := Scenario.start (Scenario.twoKeyClient true false false DEFAULT_RESILIENCE_CONFIG) in
  let run := executeWithCascadingFailover Scenario.router st "get_stock_quote"
               Scenario.firstKeyLimited (Some "AAPL") in
  exists r a km' t1,
    fst run = Returned r
    /\ attempts r = [a]
    /\ source a = "finnhub" /\ keyIndex a = 0%nat /\ success a = true
    /\ winner r = "finnhub"
    /\ calls (snd run)
       = calls st ++
         [{| callSource := "finnhub"; callKeyIndex := Some 0%nat; callTime := clock st |};
          {| callSource := "finnhub"; callKeyIndex := Some 1%nat; callTime := t1 |}]
    /\ keyManagers (client (snd run)) !! "finnhub" = Some km'
    /\ Pool.cooled (Pool.pool km') 0
    /\ Pool.usable (Pool.pool km') 1
    /\ KeyManager.getCurrentKeyIndex km' "finnhub" = 1%nat.
Proof.
  apply (rate_limited_key_rotates_within_one_attempt (T := nat)
           Scenario.router "get_stock_quote" (Some "AAPL")
           "finnhub" ["twelvedata"; "tiingo"; "alphavantage"]
           (Scenario.start (Scenario.twoKeyClient true false false DEFAULT_RESILIENCE_CONFIG))
           twoKeyPool Scenario.firstKeyLimited).
  - vm_compute. reflexivity.
  - reflexivity.
  - vm_compute. reflexivity.
  - exact twoKeyPool_freshPair.
  - exact firstKeyLimited_key0.
  - exact firstKeyLimited_key1.
Defined.

(** C4 (as stated) fails: with FINNHUB_API_KEY=bad1,good2 and a 429 under
    the first key, the executor runs twice but the result logs one
    attempt, with key index 0, not two attempts with key indexes 0 and 1. *)
Lemma rotation_is_logged_as_one_attempt :
  let st := Scenario.start (Scenario.twoKeyClient true false false DEFAULT_RESILIENCE_CONFIG) in
  let run := executeWithCascadingFailover Scenario.router st "get_stock_quote"
               Scenario.firstKeyLimited (Some "AAPL") in
  map (fun c => (callSource c, callKeyIndex c)) (calls (snd run))
    = [("finnhub", Some 0%nat); ("finnhub", Some 1%nat)]
  /\ length (recordedAttempts (fst run)) = 1%nat
  /\ map (fun a => (source a, keyIndex a, success a)) (recordedAttempts (fst run))
     = [("finnhub", 0%nat, true)].
Proof. cbv zeta. split; [|split]; vm_compute; reflexivity. Qed.






End DispatchRuns.

(** ** Backoff delay *)

Section Backoff.

Import Num.
Local Open Scope Q_scope.

Lemma OVERFLOW_pos : 0 < OVERFLOW.
Proof. vm_compute. reflexivity. Qed.

(** a value strictly inside the double range stays finite *)
Lemma norm_finite (q : Q) : - OVERFLOW < q -> q < OVERFLOW -> norm q = Fin q.
Proof.
  intros Hlo Hhi. unfold norm.
  destruct (Qle_bool OVERFLOW q) eqn:E1.
  { apply Qle_bool_iff in E1. exfalso. apply (Qlt_irrefl q).
    eapply Qlt_le_trans; eassumption. }
  destruct (Qle_bool q (- OVERFLOW)) eqn:E2.
  { apply Qle_bool_iff in E2. exfalso. apply (Qlt_irrefl q).
    eapply Qle_lt_trans; eassumption. }
  reflexivity.
Qed.

(** a non-negative value is finite or overflows to +Infinity *)
Lemma norm_nonneg (q : Q) : 0 <= q -> norm q = Fin q \/ norm q = PosInf.
Proof.
  intros Hq. unfold norm. destruct (Qle_bool OVERFLOW q); [now right|].
  destruct (Qle_bool q (- OVERFLOW)) eqn:E2; [|now left].
  apply Qle_bool_iff in E2. exfalso. pose proof OVERFLOW_pos as Hp.
  apply (Qlt_irrefl 0). eapply Qle_lt_trans; [exact Hq|].
  eapply Qle_lt_trans; [exact E2|].
  apply Qopp_lt_compat in Hp. exact Hp.
Qed.

Lemma norm_Fin_inv (q x : Q) : norm q = Fin x -> x = q /\ - OVERFLOW < q /\ q < OVERFLOW.
Proof.
  unfold norm. destruct (Qle_bool OVERFLOW q) eqn:E1; [discriminate|].
  destruct (Qle_bool q (- OVERFLOW)) eqn:E2; [discriminate|].
  intros H. injection H as <-. split; [reflexivity|]. split.
  - apply Qnot_le_lt. intros Hc. apply Qle_bool_iff in Hc. congruence.
  - apply Qnot_le_lt. intros Hc. apply Qle_bool_iff in Hc. congruence.
Qed.

(** the base delay is finite only if the power of two is *)
Lemma finite_base (initial b : Q) (n : Z) :
  mul (Fin initial) (pow2 n) = Fin b ->
  pow2 n = Fin (2 ^ n) /\ b = initial * 2 ^ n
  /\ - OVERFLOW < initial * 2 ^ n /\ initial * 2 ^ n < OVERFLOW.
Proof.
  unfold pow2. intros H.
  destruct (norm (2 ^ n)) as [| | |p] eqn:Ep; cbn [mul] in H.
  - discriminate.
  - unfold scaleInf in H. destruct (Qeq_bool initial 0); [discriminate|].
    destruct (Qle_bool 0 initial); discriminate.
  - unfold scaleInf in H. destruct (Qeq_bool initial 0); [discriminate|].
    destruct (Qle_bool 0 initial); discriminate.
  - apply norm_Fin_inv in Ep as [-> _]. apply norm_Fin_inv in H as (-> & Hlo & Hhi).
    repeat split; assumption.
Qed.

Lemma min_cap (x : JsNum) (cap : Q) :
  (exists q, x = Fin q /\ 0 <= q) \/ x = PosInf ->
  0 <= cap ->
  exists y, Num.min x (Fin cap) = Fin y /\ 0 <= y /\ y <= cap.
Proof.
  intros [(q & -> & Hq)| ->] Hcap; cbn [Num.min].
  - destruct (Qle_bool q cap) eqn:E.
    + apply Qle_bool_iff in E. exists q. repeat split; assumption.
    + exists cap. repeat split; [assumption | apply Qle_refl].
  - exists cap. repeat split; [assumption | apply Qle_refl].
Qed.

Lemma floor_clamp (y cap : Q) :
  0 <= y -> y <= cap ->
  isNonNegInteger (Num.max (Fin 0) (floor (Fin y)))
  /\ atMost (Num.max (Fin 0) (floor (Fin y))) cap.
Proof.
  intros H0 Hcap. cbn [floor Num.max].
  assert (Hf : (0 <= Qfloor y)%Z).
  { change 0%Z with (Qfloor 0). apply Qfloor_resp_le. exact H0. }
  assert (Hle : Qle_bool 0 (inject_Z (Qfloor y)) = true).
  { apply Qle_bool_iff. change 0 with (inject_Z 0). rewrite <- Zle_Qle. exact Hf. }
  rewrite Hle. split.
  - exists (Qfloor y). split; [exact Hf | reflexivity].
  - cbn [atMost]. eapply Qle_trans; [apply Qfloor_le | exact Hcap].
Qed.

(** While the base delay [initialDelayMs * 2^attemptNumber] is a finite
    double, the delay is a non-negative integer no larger than the
    maximum delay. *)
Lemma backoff_bounded_while_finite (random initial maxDelay b : Q) (attemptNumber : Z) :
  0 <= random -> random <= 1 -> 0 <= initial -> 0 <= maxDelay ->
  mul (Fin initial) (pow2 attemptNumber) = Fin b ->
  isNonNegInteger (ApiRetry.calculateBackoffDelay random attemptNumber (Fin initial) (Fin maxDelay))
  /\ atMost (ApiRetry.calculateBackoffDelay random attemptNumber (Fin initial) (Fin maxDelay))
       maxDelay.
Proof.
  intros Hr0 Hr1 Hi Hm Hbase. unfold ApiRetry.calculateBackoffDelay. cbv zeta.
  rewrite Hbase.
  destruct (finite_base initial b attemptNumber Hbase) as (_ & Hb & Hlo & Hhi).
  assert (Hb0 : 0 <= b).
  { rewrite Hb. apply Qmult_le_0_compat; [exact Hi|]. apply Qpower_0_le. discriminate. }
  rewrite <- Hb in Hlo, Hhi. clear Hbase Hb.
  pose proof OVERFLOW_pos as HM. set (M := OVERFLOW) in *. 
  assert (Hrange : mul (Fin b) (Fin (1 # 4)) = Fin (b * (1 # 4))).
  { cbn [mul]. apply norm_finite; fold M; lra. }
  rewrite Hrange.
  assert (Hsub : sub (Fin random) (Fin (1 # 2)) = Fin (random + - (1 # 2))).
  { unfold sub. cbn [neg add]. apply norm_finite; fold M.
    - assert (- M < - (1 # 2)) by (apply Qopp_lt_compat; unfold M; vm_compute; reflexivity). lra.
    - assert ((1 # 2) < M) by (unfold M; vm_compute; reflexivity). lra. }
  rewrite Hsub.
  assert (H1M : 1 < M) by (unfold M; vm_compute; reflexivity).
  assert (Hdbl : mul (Fin (random + - (1 # 2))) (Fin 2) = Fin ((random + - (1 # 2)) * 2)).
  { cbn [mul]. apply norm_finite; fold M; lra. }
  rewrite Hdbl.
  set (j := (random + - (1 # 2)) * 2).
  assert (Hj : -1 <= j /\ j <= 1) by (unfold j; split; lra).
  set (c := b * (1 # 4)). assert (Hc : 0 <= c /\ c * 4 == b) by (unfold c; split; lra).
  assert (Hjc : - c <= j * c /\ j * c <= c) by (split; nra).
  assert (Hjit : mul (Fin j) (Fin c) = Fin (j * c)).
  { cbn [mul]. apply norm_finite; fold M; lra. }
  rewrite Hjit. cbn [add].
  assert (Hsum : 0 <= b + j * c) by lra.
  destruct (min_cap (norm (b + j * c)) maxDelay) as (y & Hy & Hy0 & Hycap).
  - destruct (norm_nonneg _ Hsum) as [E|E]; [left; eauto | now right].
  - exact Hm.
  - rewrite Hy. now apply floor_clamp.
Qed.

(** C10 (the code breaks it): the delay should be a non-negative integer
    no larger than the maximum delay, for every attempt number.  On
    [calculateBackoffDelay(1100, 1000, 10000)] with a jitter draw of 0.25,
    [2^1100] overflows to Infinity, the jitter is -Infinity, their sum is
    NaN, and NaN is what the function returns: neither a non-negative
    integer nor bounded by the maximum delay.  The same happens with an
    initial delay of 0 (0 times Infinity). *)
Theorem backoff_overflow_yields_NaN :
  ApiRetry.calculateBackoffDelay (1 # 4) 1100 (Fin 1000) (Fin 10000) = NaN
  /\ ~ isNonNegInteger (ApiRetry.calculateBackoffDelay (1 # 4) 1100 (Fin 1000) (Fin 10000))
  /\ ~ atMost (ApiRetry.calculateBackoffDelay (1 # 4) 1100 (Fin 1000) (Fin 10000)) 10000
  /\ ApiRetry.calculateBackoffDelay (3 # 4) 1100 (Fin 0) (Fin 10000) = NaN.
Proof.
  assert (E : ApiRetry.calculateBackoffDelay (1 # 4) 1100 (Fin 1000) (Fin 10000) = NaN)
    by (vm_compute; reflexivity).
  rewrite E. split; [reflexivity|]. split; [|split].
  - intros (k & _ & Hk). discriminate.
  - intros H. exact H.
  - vm_compute. reflexivity.
Qed.

End Backoff.

(** ** Market routing *)

Section MarketRoutes.

Local Open Scope nat_scope.

Lemma upperChar_idem (c : ascii) : Js.upperChar (Js.upperChar c) = Js.upperChar c.
Proof. destruct c as [[] [] [] [] [] [] [] []]; reflexivity. Qed.

Lemma chars_toUpperCase (s : string) :
  Js.chars (Js.toUpperCase s) = map Js.upperChar (Js.chars s).
Proof. unfold Js.toUpperCase. apply chars_of_list. Qed.

Lemma toUpperCase_idem (s : string) : Js.toUpperCase (Js.toUpperCase s) = Js.toUpperCase s.
Proof.
  unfold Js.toUpperCase at 1. rewrite chars_toUpperCase, map_map.
  unfold Js.toUpperCase. f_equal. apply map_ext. intros c. apply upperChar_idem.
Qed.

Lemma forallb_isDigit_upper (l : list ascii) :
  forallb Js.isDigit (map Js.upperChar l) = forallb Js.isDigit l.
Proof.
  induction l as [|c l IH]; simpl; [reflexivity|]. now rewrite isDigit_upperChar, IH.
Qed.

Lemma isTagThenDigits6_upper (tag s : string) :
  Js.isTagThenDigits6 tag (Js.toUpperCase s) = Js.isTagThenDigits6 tag s.
Proof.
  unfold Js.isTagThenDigits6. rewrite chars_toUpperCase.
  rewrite firstn_map, skipn_map, !length_map, map_map, forallb_isDigit_upper.
  do 4 f_equal. apply map_ext. intros c. apply upperChar_idem.
Qed.

Lemma filter_digits_upper (l : list ascii) :
  filter (fun c => Is_true (Js.isDigit c)) (map Js.upperChar l)
  = filter (fun c => Is_true (Js.isDigit c)) l.
Proof.
  induction l as [|c l IH]; [reflexivity|]. cbn [map]. rewrite !filter_cons.
  rewrite isDigit_upperChar, IH.
  destruct (decide (Is_true (Js.isDigit c))) as [d|_]; [|reflexivity].
  now rewrite upperChar_digit by (now apply Is_true_true).
Qed.

Lemma stripNonDigits_upper (s : string) :
  Js.stripNonDigits (Js.toUpperCase s) = Js.stripNonDigits s.
Proof. unfold Js.stripNonDigits. now rewrite chars_toUpperCase, filter_digits_upper. Qed.

Lemma upper_not_lower (c : ascii) : Js.isUpper c = true -> Js.isLower c = false.
Proof.
  unfold Js.isUpper, Js.isLower. intros H.
  apply andb_true_iff in H as [_ H]. apply Nat.leb_le in H.
  apply andb_false_iff. left. apply Nat.leb_gt. lia.
Qed.

Lemma upper_letters_fixed (lo hi : nat) (s : string) :
  Js.isUpperLetters lo hi s = true -> Js.toUpperCase s = s.
Proof.
  unfold Js.isUpperLetters, Js.toUpperCase. intros H.
  apply andb_true_iff in H as [_ H].
  rewrite <- (string_of_list_ascii_of_string s) at 2. f_equal.
  unfold Js.chars in *. induction (list_ascii_of_string s) as [|c l IH]; [reflexivity|].
  simpl in H. apply andb_true_iff in H as [Hc Hl]. cbn [map].
  rewrite IH by exact Hl. unfold Js.upperChar. now rewrite (upper_not_lower c Hc).
Qed.

(** X1: upper-casing an ASCII symbol never changes a definite
    classification.  The suffix and tag rules ignore case and the digit
    rules only see digits, so the market of the upper-cased symbol is the
    market of the symbol itself; the one exception is the rule for bare
    tickers, which wants capitals: a symbol that is not 1-5 capitals and
    falls through to UNKNOWN may become US once upper-cased, as [aapl]
    does. *)
Theorem classification_survives_upper_casing :
  (forall symbol : string,
     Js.isAscii symbol = true ->
     let upper := Js.toUpperCase symbol in
     MarketRouter.getMarketFromSymbol upper = MarketRouter.getMarketFromSymbol symbol
     \/ (MarketRouter.getMarketFromSymbol symbol = UNKNOWN
         /\ MarketRouter.getMarketFromSymbol upper = US
         /\ Js.isUpperLetters 1 5 symbol = false))
  /\ MarketRouter.getMarketFromSymbol "aapl" = UNKNOWN
  /\ MarketRouter.getMarketFromSymbol (Js.toUpperCase "aapl") = US.
Proof.
  split; [|split; vm_compute; reflexivity].
  intros symbol _ upper. subst upper. unfold MarketRouter.getMarketFromSymbol. cbv zeta.
  rewrite toUpperCase_idem, !isTagThenDigits6_upper, stripNonDigits_upper.
  destruct (Js.endsWith (Js.toUpperCase symbol) ".SH" || Js.endsWith (Js.toUpperCase symbol) ".SS");
    [now left|].
  destruct (Js.endsWith (Js.toUpperCase symbol) ".SZ"); [now left|].
  destruct (Js.endsWith (Js.toUpperCase symbol) ".BJ"); [now left|].
  destruct (Js.endsWith (Js.toUpperCase symbol) ".HK"); [now left|].
  destruct (Js.endsWith (Js.toUpperCase symbol) ".US" || Js.endsWith (Js.toUpperCase symbol) ".N"
            || Js.endsWith (Js.toUpperCase symbol) ".O"); [now left|].
  destruct (Js.isTagThenDigits6 "SH" symbol); [now left|].
  destruct (Js.isTagThenDigits6 "SZ" symbol); [now left|].
  destruct (Js.isTagThenDigits6 "BJ" symbol); [now left|].
  destruct (MarketRouter.sixDigitRule (Js.stripNonDigits symbol)); [now left|].
  destruct ((String.length (Js.stripNonDigits symbol) =? 5)
            && Js.isDigits 5 (Js.stripNonDigits symbol)); [now left|].
  destruct (Js.isUpperLetters 1 5 symbol) eqn:Hs.
  - rewrite (upper_letters_fixed 1 5 symbol Hs), Hs. now left.
  - destruct (Js.isUpperLetters 1 5 (Js.toUpperCase symbol)); [right; auto | now left].
Qed.

Lemma marketName_inj (m1 m2 : Market) : marketName m1 = marketName m2 -> m1 = m2.
Proof. destruct m1, m2; simpl; intros H; try reflexivity; discriminate H. Qed.

(** X2: a market's provider list set with [setMarketSources] is what
    [getSourcesForSymbol] returns for every symbol of that market, and
    symbols of the other markets are routed as before.  The list is taken
    as given, whatever it holds: after setting an empty list the symbols
    of that market are routed to no provider at all. *)
Theorem market_override_round_trip
    (r : MarketRouterClass.t) (market : Market) (sources : list ApiSource) (symbol : string) :
  let r' := MarketRouterClass.setMarketSources r market sources in
  (MarketRouterClass.getMarket symbol = market ->
     MarketRouterClass.getSourcesForSymbol r' symbol = sources)
  /\ (MarketRouterClass.getMarket symbol <> market ->
     MarketRouterClass.getSourcesForSymbol r' symbol
     = MarketRouterClass.getSourcesForSymbol r symbol).
Proof.
  unfold MarketRouterClass.getSourcesForSymbol, MarketRouterClass.getMarket,
    MarketRouterClass.setMarketSources. cbn.
  split.
  - intros ->. now rewrite lookup_insert_eq.
  - intros Hne. rewrite lookup_insert_ne; [reflexivity|].
    intros E. apply marketName_inj in E. congruence.
Qed.

Lemma loadMarket_spec (env : Env) (r : MarketRouterClass.t) (m : Market) :
  MarketRouterClass.populated r ->
  MarketRouterClass.populated (MarketRouterClass.loadMarket env r m)
  /\ forall name, marketName m <> name ->
       MarketRouterClass.customMarketSources (MarketRouterClass.loadMarket env r m) !! name
       = MarketRouterClass.customMarketSources r !! name.
Proof.
  intros Hr. unfold MarketRouterClass.loadMarket. cbv zeta.
  destruct (env !! _) as [v|]; [|split; [exact Hr | reflexivity]].
  destruct (Js.truthy v); [|split; [exact Hr | reflexivity]].
  destruct (0 <? length (MarketRouterClass.parseMarketSources v)) eqn:E;
    [|split; [exact Hr | reflexivity]].
  apply Nat.ltb_lt in E. split.
  - intros name l. cbn. destruct (decide (marketName m = name)) as [->|Hne].
    + rewrite lookup_insert_eq. intros [= <-] Hnil. rewrite Hnil in E. simpl in E. lia.
    + rewrite lookup_insert_ne by exact Hne. apply Hr.
  - intros name Hne. cbn. now rewrite lookup_insert_ne.
Qed.

Lemma loadFromEnv_spec (env : Env) (markets : list Market) :
  forall r,
    MarketRouterClass.populated r ->
    MarketRouterClass.populated (fold_left (MarketRouterClass.loadMarket env) markets r)
    /\ forall name, (forall m, In m markets -> marketName m <> name) ->
         MarketRouterClass.customMarketSources
           (fold_left (MarketRouterClass.loadMarket env) markets r) !! name
         = MarketRouterClass.customMarketSources r !! name.
Proof.
  induction markets as [|m markets IH]; intros r Hr; [split; [exact Hr | reflexivity]|].
  cbn [fold_left].
  destruct (loadMarket_spec env r m Hr) as [Hp Hframe].
  destruct (IH _ Hp) as [IH1 IH2]. split; [exact IH1|].
  intros name Hname. rewrite IH2.
  - apply Hframe. apply Hname. now left.
  - intros m' Hm'. apply Hname. now right.
Qed.





End MarketRoutes.

(** ** Source router: what the constructor loads and what it can return *)

Section RouterTables.

Local Open Scope nat_scope.
Local Open Scope list_scope.

Lemma lookupTool_In (table : list (string * list ApiSource)) (toolName : string)
    (l : list ApiSource) :
  SourceRouter.lookupTool table toolName = Some l -> In (toolName, l) table.
Proof.
  induction table as [|[t srcs] table IH]; simpl; [discriminate|].
  destruct (String.eqb t toolName) eqn:E.
  - apply String.eqb_eq in E. intros [= <-]. left. now subst.
  - intros H. right. now apply IH.
Qed.

Lemma lookupTool_None (table : list (string * list ApiSource)) (toolName : string) :
  Js.includesStr (map fst table) toolName = false ->
  SourceRouter.lookupTool table toolName = None.
Proof.
  induction table as [|[t srcs] table IH]; simpl; [reflexivity|].
  unfold Js.includesStr. cbn [map fst existsb]. rewrite String.eqb_sym.
  destruct (String.eqb t toolName); simpl; [discriminate | exact IH].
Qed.

Lemma entries_checked :
  forallb Tables.entryChecked SourceRouter.OPTIMAL_SOURCE_MAP = true.
Proof. vm_compute. reflexivity. Qed.

Lemma default_entry (toolName : string) (l : list ApiSource) :
  SourceRouter.lookupTool SourceRouter.OPTIMAL_SOURCE_MAP toolName = Some l ->
  l <> []
  /\ Forall (fun p => In p SourceRouter.VALID_SOURCES) l
  /\ List.filter (Js.includesStr (SourceRouter.MARKET_SOURCE_FILTER US)) l <> []
  /\ SourceRouter.lookupTool LegacySourceRouter.OPTIMAL_SOURCE_MAP toolName
     = Some (List.filter (Js.includesStr (SourceRouter.MARKET_SOURCE_FILTER US)) l).
Proof.
  intros H. apply lookupTool_In in H.
  pose proof (proj1 (forallb_forall _ _) entries_checked _ H) as Hc.
  unfold Tables.entryChecked in Hc. cbn [fst snd] in Hc.
  apply andb_true_iff in Hc as [Hc H4]. apply andb_true_iff in Hc as [Hc H3].
  apply andb_true_iff in Hc as [H1 H2].
  split; [|split; [|split]].
  - intros ->. discriminate H1.
  - apply List.Forall_forall. intros p Hp. apply includesStr_In.
    exact (proj1 (forallb_forall _ _) H2 p Hp).
  - intros E. rewrite E in H3. discriminate H3.
  - exact (proj1 (bool_decide_eq_true _) H4).
Qed.

Lemma market_entry (m : Market) :
  SourceRouter.MARKET_SOURCE_FILTER m <> []
  /\ Forall (fun p => In p SourceRouter.VALID_SOURCES) (SourceRouter.MARKET_SOURCE_FILTER m).
Proof.
  assert (Hc : Tables.marketChecked m = true) by (destruct m; vm_compute; reflexivity).
  unfold Tables.marketChecked in Hc. apply andb_true_iff in Hc as [H1 H2]. split.
  - intros E. rewrite E in H1. discriminate H1.
  - apply List.Forall_forall. intros p Hp. apply includesStr_In.
    exact (proj1 (forallb_forall _ _) H2 p Hp).
Qed.

(** what [parseSourcePriorityEnv] returns is not empty and names valid
    providers only *)
Lemma parsed_priority (env : Env) (toolName : string) (l : list ApiSource) :
  SourceRouter.parseSourcePriorityEnv env toolName = Some l ->
  l <> [] /\ Forall (fun p => In p SourceRouter.VALID_SOURCES) l.
Proof.
  unfold SourceRouter.parseSourcePriorityEnv. cbv zeta.
  destruct (env !! _) as [v|]; [|discriminate].
  destruct (negb (Js.truthy v)); [discriminate|].
  destruct (length _ =? 0) eqn:E; [discriminate|]. intros [= <-]. split.
  - intros Hnil. rewrite Hnil in E. discriminate E.
  - apply List.Forall_forall. intros p Hp. apply List.filter_In in Hp as [_ Hp].
    now apply includesStr_In.
Qed.

(** the map the loop of [loadCustomPriorities] builds over a list of tool
    names, for either router's reading of the environment *)
Lemma loadCustomPriorities_fold (parse : string -> option (list ApiSource))
    (names : list string) (toolName : string) :
  forall acc : gmap string (list ApiSource),
    fold_left
      (fun acc toolName =>
         match parse toolName with
         | Some custom => <[toolName := custom]> acc
         | None => acc
         end) names acc !! toolName
    = match (if Js.includesStr names toolName then parse toolName else None) with
      | Some custom => Some custom
      | None => acc !! toolName
      end.
Proof.
  induction names as [|n names IH]; intros acc; [reflexivity|].
  cbn [fold_left]. rewrite IH. unfold Js.includesStr. cbn [existsb].
  fold (Js.includesStr names toolName).
  destruct (String.eqb toolName n) eqn:E.
  - apply String.eqb_eq in E. subst n. cbn [orb].
    destruct (Js.includesStr names toolName).
    + destruct (parse toolName); reflexivity.
    + destruct (parse toolName) as [c|]; [|reflexivity].
      now rewrite lookup_insert_eq.
  - apply String.eqb_neq in E. cbn [orb].
    destruct (if Js.includesStr names toolName then _ else None); [reflexivity|].
    destruct (parse n); [|reflexivity].
    now rewrite lookup_insert_ne by congruence.
Qed.

Lemma customPriorities_lookup (env : Env) (toolName : string) :
  SourceRouter.customPriorities (SourceRouter.new env) !! toolName
  = if Js.includesStr SourceRouterQueries.getAllToolNames toolName
    then SourceRouter.parseSourcePriorityEnv env toolName else None.
Proof.
  unfold SourceRouter.new, SourceRouter.loadCustomPriorities. cbn [SourceRouter.customPriorities].
  rewrite (loadCustomPriorities_fold (SourceRouter.parseSourcePriorityEnv env)).
  fold SourceRouterQueries.getAllToolNames.
  destruct (if Js.includesStr _ _ then _ else None); [reflexivity | apply lookup_empty].
Qed.

Lemma legacy_customPriorities_lookup (env : Env) (toolName : string) :
  LegacySourceRouter.customPriorities (LegacySourceRouter.new env) !! toolName
  = if Js.includesStr LegacySourceRouter.getAllToolNames toolName
    then LegacySourceRouter.parseSourcePriorityEnv env toolName else None.
Proof.
  unfold LegacySourceRouter.new, LegacySourceRouter.loadCustomPriorities.
  cbn [LegacySourceRouter.customPriorities].
  rewrite (loadCustomPriorities_fold (LegacySourceRouter.parseSourcePriorityEnv env)).
  fold LegacySourceRouter.getAllToolNames.
  destruct (if Js.includesStr _ _ then _ else None); [reflexivity | apply lookup_empty].
Qed.

(** X4: the custom priorities a router holds mirror the environment, for
    the tools of the priority table only: the entry of a tool of the table
    is what [parseSourcePriorityEnv] reads for it, and a
    [SOURCE_PRIORITY_*] variable for any other tool name is never loaded.
    What is loaded is never empty and names valid providers only. *)
Theorem custom_priorities_mirror_environment (env : Env) (toolName : string) :
  let r := SourceRouter.new env in
  SourceRouter.customPriorities r !! toolName
  = (if Js.includesStr SourceRouterQueries.getAllToolNames toolName
     then SourceRouter.parseSourcePriorityEnv env toolName else None)
  /\ (SourceRouter.hasCustomPriority r toolName = true -> In toolName SourceRouterQueries.getAllToolNames)
  /\ (forall custom, SourceRouter.customPriorities r !! toolName = Some custom ->
        SourceRouter.baseSources r toolName = custom
        /\ custom <> []
        /\ Forall (fun p => In p SourceRouter.VALID_SOURCES) custom).
Proof.
  cbv zeta. pose proof (customPriorities_lookup env toolName) as H.
  split; [exact H|]. split.
  - unfold SourceRouter.hasCustomPriority. intros Hc. apply bool_decide_eq_true in Hc.
    rewrite H in Hc. destruct (Js.includesStr _ _) eqn:E; [|destruct Hc; discriminate].
    now apply includesStr_In.
  - intros custom Hc. split.
    + unfold SourceRouter.baseSources. now rewrite Hc.
    + rewrite H in Hc. destruct (Js.includesStr _ _); [|discriminate].
      exact (parsed_priority env toolName custom Hc).
Qed.

(** the list a tool starts from is never empty and names valid providers only *)
Lemma baseSources_checked (env : Env) (toolName : string) :
  SourceRouter.baseSources (SourceRouter.new env) toolName <> []
  /\ Forall (fun p => In p SourceRouter.VALID_SOURCES)
       (SourceRouter.baseSources (SourceRouter.new env) toolName).
Proof.
  unfold SourceRouter.baseSources.
  destruct (SourceRouter.customPriorities _ !! _) as [custom|] eqn:Hc.
  - rewrite customPriorities_lookup in Hc.
    destruct (Js.includesStr _ _); [|discriminate].
    exact (parsed_priority env toolName custom Hc).
  - destruct (SourceRouter.lookupTool _ _) as [l|] eqn:Hl.
    + destruct (default_entry toolName l Hl) as (H1 & H2 & _). now split.
    + split; [discriminate|]. repeat constructor.
Qed.

(** the array the router works on never becomes empty *)
Lemma routed_array_nonempty
    (env : Env) (toolName : string) (symbol : option string) :
  SourceRouter.getSourcesForTool (SourceRouter.new env) toolName symbol <> [].
Proof.
  destruct (baseSources_checked env toolName) as [Hbase _].
  unfold SourceRouter.getSourcesForTool. cbv zeta.
  destruct symbol as [sym|]; [|exact Hbase].
  destruct (Js.truthy sym); [|exact Hbase].
  destruct (List.filter _ _) as [|p l] eqn:E; cbn [length Nat.eqb].
  - apply market_entry.
  - discriminate.
Qed.

(** the array the router works on names valid providers only *)
Lemma routed_array_valid
    (env : Env) (toolName : string) (symbol : option string) :
  Forall (fun p => In p SourceRouter.VALID_SOURCES)
    (SourceRouter.getSourcesForTool (SourceRouter.new env) toolName symbol).
Proof.
  destruct (baseSources_checked env toolName) as [_ Hbase].
  unfold SourceRouter.getSourcesForTool. cbv zeta.
  destruct symbol as [sym|]; [|exact Hbase].
  destruct (Js.truthy sym); [|exact Hbase].
  destruct (List.filter _ _) as [|p l] eqn:E; cbn [length Nat.eqb].
  - apply market_entry.
  - rewrite <- E. apply List.Forall_forall. intros q Hq.
    apply List.filter_In in Hq as [Hq _].
    exact (proj1 (List.Forall_forall _ _) Hbase q Hq).
Qed.

(** a constructed router holds no custom priority for a property name of
    [Object.prototype]: none is a tool of the table *)
Lemma inherited_not_custom (env : Env) (toolName : string) :
  ToolTable.inherited toolName = true ->
  SourceRouter.customPriorities (SourceRouter.new env) !! toolName = None
  /\ LegacySourceRouter.customPriorities (LegacySourceRouter.new env) !! toolName = None.
Proof.
  intros H. rewrite customPriorities_lookup, legacy_customPriorities_lookup.
  assert (Hno : Js.includesStr SourceRouterQueries.getAllToolNames toolName = false
                /\ Js.includesStr LegacySourceRouter.getAllToolNames toolName = false).
  { apply includesStr_In in H. cbn [ToolTable.OBJECT_PROTOTYPE_KEYS In] in H.
    repeat (destruct H as [<-|H]; [split; vm_compute; reflexivity|]).
    destruct H. }
  destruct Hno as [-> ->]. split; reflexivity.
Qed.

(** what a constructed router does on a property name of [Object.prototype] *)
Lemma getSourcesForTool_inherited (env : Env) (toolName : string) (symbol : option string) :
  ToolTable.inherited toolName = true ->
  Routing.getSourcesForTool (SourceRouter.new env) toolName symbol
  = if Routing.given symbol
    then Routing.ThrowsTypeError "sources.filter is not a function"
    else Routing.Returns (ToolTable.Inherited toolName).
Proof.
  intros H. unfold Routing.getSourcesForTool, Routing.given. cbv zeta.
  rewrite (proj2 (baseSources_inherited (SourceRouter.new env) toolName toolName));
    [|split; [exact (proj1 (inherited_not_custom env toolName H)) | split; [exact H | reflexivity]]].
  destruct symbol as [sym|]; [|reflexivity].
  destruct (Js.truthy sym); reflexivity.
Qed.

(** X5: the router never returns an empty list, for every symbol (or
    none) and every setting of the [SOURCE_PRIORITY_*] variables.  For
    every tool name, known or not, that is no property name of
    [Object.prototype] it returns a list with at least one provider.  For
    the twelve inherited names ([constructor], [toString], [__proto__],
    ...) the table lookup yields the inherited value: without a symbol
    the router returns that value, which is no list, and with a symbol it
    throws a [TypeError]. *)
Theorem router_never_returns_an_empty_list
    (env : Env) (toolName : string) (symbol : option string) :
  let called := Routing.getSourcesForTool (SourceRouter.new env) toolName symbol in
  (ToolTable.inherited toolName = false ->
     exists sources,
       called = Routing.Returns (ToolTable.SourceList sources) /\ sources <> [])
  /\ (ToolTable.inherited toolName = true ->
     called = if Routing.given symbol
              then Routing.ThrowsTypeError "sources.filter is not a function"
              else Routing.Returns (ToolTable.Inherited toolName)).
Proof.
  cbv zeta. split.
  - intros Hown. eexists. split.
    + apply getSourcesForTool_array. right. exact Hown.
    + apply routed_array_nonempty.
  - apply getSourcesForTool_inherited.
Qed.

(** X6: whenever the router returns a list, every provider in it is one
    of the six valid providers, whatever the [SOURCE_PRIORITY_*]
    variables hold: an unknown name in a variable never reaches the
    dispatcher.  It returns something else, or throws, only for a tool
    name that is a property name of [Object.prototype]. *)
Theorem routed_sources_are_valid
    (env : Env) (toolName : string) (symbol : option string) :
  match Routing.getSourcesForTool (SourceRouter.new env) toolName symbol with
  | Routing.Returns (ToolTable.SourceList sources) =>
      Forall (fun p => In p SourceRouter.VALID_SOURCES) sources
  | Routing.Returns (ToolTable.Inherited _) | Routing.ThrowsTypeError _ =>
      ToolTable.inherited toolName = true
  end.
Proof.
  destruct (ToolTable.inherited toolName) eqn:Hin.
  - rewrite (getSourcesForTool_inherited env toolName symbol Hin).
    destruct (Routing.given symbol); reflexivity.
  - rewrite (getSourcesForTool_array (SourceRouter.new env) toolName symbol (or_intror Hin)).
    apply routed_array_valid.
Qed.

(** the US coverage is the set of the four keyed providers *)
Lemma us_cover_keyed (x : string) :
  Js.includesStr (SourceRouter.MARKET_SOURCE_FILTER US) x
  = Js.includesStr LegacySourceRouter.KEYED_SOURCES x
  /\ Js.includesStr (SourceRouter.MARKET_SOURCE_FILTER US) x
     = Js.includesStr (SourceRouter.MARKET_SOURCE_FILTER US) x
       && Js.includesStr SourceRouter.VALID_SOURCES x.
Proof.
  unfold Js.includesStr. cbn [SourceRouter.MARKET_SOURCE_FILTER LegacySourceRouter.KEYED_SOURCES
                              SourceRouter.VALID_SOURCES existsb].
  destruct (String.eqb x "finnhub"), (String.eqb x "alphavantage"),
    (String.eqb x "twelvedata"), (String.eqb x "tiingo"),
    (String.eqb x "sina"), (String.eqb x "eastmoney"); split; reflexivity.
Qed.

Lemma us_part_of_valid (l : list string) :
  List.filter (Js.includesStr (SourceRouter.MARKET_SOURCE_FILTER US))
    (List.filter (Js.includesStr SourceRouter.VALID_SOURCES) l)
  = List.filter (Js.includesStr LegacySourceRouter.KEYED_SOURCES) l.
Proof.
  induction l as [|x l IH]; [reflexivity|]. cbn [List.filter].
  destruct (us_cover_keyed x) as [H1 H2].
  destruct (Js.includesStr SourceRouter.VALID_SOURCES x) eqn:Hv; cbn [List.filter].
  - rewrite H1, IH. reflexivity.
  - rewrite andb_false_r in H2. rewrite <- H1, H2. exact IH.
Qed.

Lemma lookupTool_Some (table : list (string * list ApiSource)) (toolName : string) :
  Js.includesStr (map fst table) toolName = true ->
  exists l, SourceRouter.lookupTool table toolName = Some l.
Proof.
  induction table as [|[t srcs] table IH]; simpl; [discriminate|].
  unfold Js.includesStr. cbn [map fst existsb]. rewrite String.eqb_sym.
  destruct (String.eqb t toolName); simpl; [intros _; now eexists | exact IH].
Qed.

Lemma US_symbol_truthy (symbol : string) :
  MarketRouter.getMarketFromSymbol symbol = US -> Js.truthy symbol = true.
Proof. destruct symbol; [vm_compute; discriminate | reflexivity]. Qed.

(** on a symbol of the US market the arrays of the two routers agree *)
Lemma routed_arrays_agree_on_US
    (env : Env) (toolName symbol : string) :
  MarketRouter.getMarketFromSymbol symbol = US ->
  (LegacySourceRouter.parseSourcePriorityEnv env toolName = None ->
   SourceRouter.parseSourcePriorityEnv env toolName = None) ->
  SourceRouter.getSourcesForTool (SourceRouter.new env) toolName (Some symbol)
  = LegacySourceRouter.getSourcesForTool (LegacySourceRouter.new env) toolName.
Proof.
  intros Hus Henv.
  unfold SourceRouter.getSourcesForTool, LegacySourceRouter.getSourcesForTool,
    SourceRouter.baseSources. cbv zeta.
  rewrite (US_symbol_truthy symbol Hus), Hus.
  rewrite customPriorities_lookup, legacy_customPriorities_lookup.
  change LegacySourceRouter.getAllToolNames with SourceRouterQueries.getAllToolNames.
  destruct (Js.includesStr SourceRouterQueries.getAllToolNames toolName) eqn:Hknown.
  - destruct (LegacySourceRouter.parseSourcePriorityEnv env toolName) as [l4|] eqn:H4.
    + clear Henv. unfold LegacySourceRouter.parseSourcePriorityEnv in H4.
      unfold SourceRouter.parseSourcePriorityEnv. cbv zeta in *.
      destruct (env !! _) as [v|]; [|discriminate].
      destruct (negb (Js.truthy v)); [discriminate|].
      rewrite <- us_part_of_valid in H4.
      set (l6 := List.filter (Js.includesStr SourceRouter.VALID_SOURCES) _) in *.
      destruct (length (List.filter _ l6) =? 0) eqn:E4; [discriminate|].
      injection H4 as <-.
      destruct l6 as [|x l6]; [discriminate E4|]. cbn [length Nat.eqb]. cbv iota.
      now rewrite E4.
    + rewrite (Henv eq_refl).
      destruct (lookupTool_Some _ _ Hknown) as [l Hl]. rewrite Hl.
      destruct (default_entry toolName l Hl) as (_ & _ & Hne & Hleg). rewrite Hleg.
      destruct (List.filter _ l); [congruence | reflexivity].
  - rewrite (lookupTool_None _ _ Hknown).
    change SourceRouterQueries.getAllToolNames
      with (map fst LegacySourceRouter.OPTIMAL_SOURCE_MAP) in Hknown.
    rewrite (lookupTool_None _ _ Hknown). reflexivity.
Qed.

(** X7: on an ASCII symbol of the US market the market-aware router
    returns exactly the list of the legacy router, for every tool name for
    which the legacy router returns a list: by default, and under every
    setting of the tool's [SOURCE_PRIORITY_*] variable that the legacy
    router accepts as well (a variable that names valid providers but
    none of the four keyed ones is honoured by the market-aware router
    only).  The routers part on the property names of
    [Object.prototype]: the legacy router returns the inherited value,
    the market-aware router throws a [TypeError]. *)
Theorem market_aware_router_agrees_with_legacy_on_US
    (env : Env) (toolName symbol : string) :
  Js.isAscii symbol = true ->
  MarketRouter.getMarketFromSymbol symbol = US ->
  (LegacySourceRouter.parseSourcePriorityEnv env toolName = None ->
   SourceRouter.parseSourcePriorityEnv env toolName = None) ->
  match LegacyRouting.getSourcesForTool (LegacySourceRouter.new env) toolName with
  | ToolTable.SourceList sources =>
      Routing.getSourcesForTool (SourceRouter.new env) toolName (Some symbol)
      = Routing.Returns (ToolTable.SourceList sources)
  | ToolTable.Inherited _ =>
      ToolTable.inherited toolName = true
      /\ Routing.getSourcesForTool (SourceRouter.new env) toolName (Some symbol)
         = Routing.ThrowsTypeError "sources.filter is not a function"
  end.
Proof.
  intros _ Hus Henv.
  destruct (ToolTable.inherited toolName) eqn:Hin.
  - unfold LegacyRouting.getSourcesForTool, ToolTable.get.
    rewrite (proj2 (inherited_not_custom env toolName Hin)).
    rewrite (proj2 (inherited_not_listed toolName Hin)), Hin.
    split; [reflexivity|].
    rewrite (getSourcesForTool_inherited env toolName (Some symbol) Hin).
    cbn [Routing.given]. now rewrite (US_symbol_truthy symbol Hus).
  - assert (Hleg : LegacyRouting.getSourcesForTool (LegacySourceRouter.new env) toolName
                   = ToolTable.SourceList
                       (LegacySourceRouter.getSourcesForTool (LegacySourceRouter.new env) toolName)).
    { unfold LegacyRouting.getSourcesForTool, LegacySourceRouter.getSourcesForTool, ToolTable.get.
      destruct (LegacySourceRouter.customPriorities _ !! _); [reflexivity|].
      destruct (SourceRouter.lookupTool _ _); [reflexivity|]. now rewrite Hin. }
    rewrite Hleg.
    rewrite (getSourcesForTool_array (SourceRouter.new env) toolName (Some symbol) (or_intror Hin)).
    now rewrite (routed_arrays_agree_on_US env toolName symbol Hus Henv).
Qed.

Lemma market_aware_router_agrees_with_legacy_witness :
  let env : Env := {[ "SOURCE_PRIORITY_GET_NEWS" := "sina, Finnhub" ]} in
  MarketRouter.getMarketFromSymbol "AAPL" = US
  /\ LegacyRouting.getSourcesForTool (LegacySourceRouter.new env) "get_news"
     = ToolTable.SourceList ["finnhub"]
  /\ Routing.getSourcesForTool (SourceRouter.new env) "get_news" (Some "AAPL")
     = Routing.Returns (ToolTable.SourceList ["finnhub"]).
Proof.
  cbv zeta. split; [vm_compute; reflexivity|].
  assert (Hleg : LegacyRouting.getSourcesForTool
                   (LegacySourceRouter.new {[ "SOURCE_PRIORITY_GET_NEWS" := "sina, Finnhub" ]})
                   "get_news"
                 = ToolTable.SourceList ["finnhub"]) by (vm_compute; reflexivity).
  split; [exact Hleg|].
  pose proof (market_aware_router_agrees_with_legacy_on_US
                {[ "SOURCE_PRIORITY_GET_NEWS" := "sina, Finnhub" ]} "get_news" "AAPL"
                eq_refl) as H.
  rewrite Hleg in H. apply H.
  - vm_compute. reflexivity.
  - vm_compute. discriminate.
Defined.

End RouterTables.

(** ** Circuit breaker: the states calls can reach *)

Section BreakerStates.

Context {T : Type}.

Import CircuitBreaker.

Lemma run_tracksCount (cfg : ResilienceConfig) (cb : t) (c : BreakerRun.Call T) :
  1 <= circuitBreakerFailureThreshold cfg ->
  BreakerRun.tracksCount cfg cb ->
  BreakerRun.tracksCount cfg (after (BreakerRun.run cb c)).
Proof.
  intros Hth [Hcfg Hst]. subst cfg. unfold BreakerRun.tracksCount, BreakerRun.run.
  destruct c as [[] now f]; cbn [BreakerRun.entry BreakerRun.startedAt BreakerRun.fn].
  - unfold execute. destruct (negb (circuitBreakerEnabled (config cb))); [now split|].
    destruct Hst as [[Hs Hc]|[Hs Hc]]; rewrite Hs; cbn [isOpen];
      [|split; [reflexivity | right; now split]].
    unfold guarded. destruct (res (f now)); cbn [after].
    + unfold onSuccess. rewrite Hs. cbn. split; [reflexivity | left; split; [reflexivity | lia]].
    + unfold onFailure. cbn. rewrite Hs. cbn [isOpen negb]. rewrite andb_true_r.
      destruct (circuitBreakerFailureThreshold (config cb) <=? failureCount cb + 1) eqn:E; cbn.
      * apply Z.leb_le in E. split; [reflexivity | right; split; [reflexivity | lia]].
      * apply Z.leb_gt in E. split; [reflexivity | left; split; [reflexivity | lia]].
  - unfold testRecovery.
    destruct Hst as [[Hs Hc]|[Hs Hc]]; rewrite Hs; cbn [isOpen negb];
      [split; [reflexivity | left; now split]|].
    destruct (circuitBreakerTimeoutMs (config cb) <=? now - lastFailureTime cb);
      [|split; [reflexivity | right; now split]].
    unfold guarded. destruct (res (f now)); cbn [after].
    + unfold onSuccess. cbn. split; [reflexivity | left; split; [reflexivity | lia]].
    + unfold onFailure. cbn.
      replace (circuitBreakerFailureThreshold (config cb) <=? failureCount cb + 1) with true
        by (symmetry; apply Z.leb_le; lia).
      cbn. split; [reflexivity | right; split; [reflexivity | lia]].
Qed.

(** X8: a breaker that is only ever driven by calls (through [execute]
    and [testRecovery], in any order, succeeding or failing) is open
    exactly when its failure count has reached the threshold and closed
    otherwise: between calls it is never half-open, so
    [getHalfOpenAttemptsRemaining] is always 0.  The threshold is at
    least 1. *)
Theorem breaker_state_tracks_failure_count
    (apiName : string) (cfg : ResilienceConfig) (calls : list (BreakerRun.Call T)) :
  1 <= circuitBreakerFailureThreshold cfg ->
  let cb := BreakerRun.runAll (new apiName cfg) calls in
  BreakerRun.state (BreakerRun.getState cb) <> HALF_OPEN
  /\ (BreakerRun.state (BreakerRun.getState cb) = OPEN
      <-> circuitBreakerFailureThreshold cfg <= BreakerRun.snapFailureCount (BreakerRun.getState cb))
  /\ 0 <= BreakerRun.snapFailureCount (BreakerRun.getState cb)
  /\ forall now, BreakerRun.getHalfOpenAttemptsRemaining cb now = 0.
Proof.
  intros Hth cb.
  assert (H : BreakerRun.tracksCount cfg cb).
  { subst cb. assert (H0 : BreakerRun.tracksCount cfg (new apiName cfg)).
    { split; [reflexivity|]. left. cbn. split; [reflexivity | lia]. }
    revert H0. generalize (new apiName cfg). induction calls as [|c calls IH]; intros cb0 H0.
    - exact H0.
    - cbn [BreakerRun.runAll]. apply IH. now apply run_tracksCount. }
  destruct H as [Hcfg H]. unfold BreakerRun.getState, BreakerRun.getHalfOpenAttemptsRemaining.
  cbn [BreakerRun.state BreakerRun.snapFailureCount].
  destruct H as [[Hs Hc]|[Hs Hc]]; rewrite Hs.
  - split; [discriminate|]. split; [split; [discriminate | lia]|]. split; [lia | reflexivity].
  - split; [discriminate|]. split; [split; [intros _; exact Hc | reflexivity]|].
    split; [lia | reflexivity].
Qed.

Lemma execute_stopsAtThreshold (cfg : ResilienceConfig) (cb : t) (now : Z) (f : AsyncFn T) :
  1 <= circuitBreakerFailureThreshold cfg ->
  BreakerRun.stopsAtThreshold cfg cb ->
  BreakerRun.stopsAtThreshold cfg (after (execute cb now f)).
Proof.
  intros Hth [Hcfg Hst]. subst cfg. unfold BreakerRun.stopsAtThreshold.
  unfold execute. destruct (negb (circuitBreakerEnabled (config cb))); [now split|].
  destruct Hst as [[Hs Hc]|[Hs Hc]]; rewrite Hs; cbn [isOpen];
    [|split; [reflexivity | right; now split]].
  unfold guarded. destruct (res (f now)); cbn [after].
  - unfold onSuccess. rewrite Hs. cbn. split; [reflexivity | left; split; [reflexivity | lia]].
  - unfold onFailure. cbn. rewrite Hs. cbn [isOpen negb]. rewrite andb_true_r.
    destruct (circuitBreakerFailureThreshold (config cb) <=? failureCount cb + 1) eqn:E; cbn.
    + apply Z.leb_le in E. split; [reflexivity | right; split; [reflexivity | lia]].
    + apply Z.leb_gt in E. split; [reflexivity | left; split; [reflexivity | lia]].
Qed.

(** X9: with a failure threshold of at least 1 and calls made one after
    the other (each settled before the next one starts), the failure
    count never passes the threshold through [execute] alone: starting
    from a new breaker, after any sequence of such calls the count lies
    between 0 and the threshold, and the breaker is open exactly when the
    count equals the threshold (an open breaker rejects calls without
    counting them).  With the breaker disabled nothing is ever counted:
    the breaker stays as constructed. *)
Theorem execute_never_counts_past_threshold
    (apiName : string) (cfg : ResilienceConfig) (calls : list (Z * AsyncFn T)) :
  1 <= circuitBreakerFailureThreshold cfg ->
  let cb := executeAll (new apiName cfg) calls in
  0 <= failureCount cb <= circuitBreakerFailureThreshold cfg
  /\ (circuitState cb = OPEN <-> failureCount cb = circuitBreakerFailureThreshold cfg)
  /\ (circuitBreakerEnabled cfg = false -> cb = new apiName cfg).
Proof.
  intros Hth cb.
  assert (H : BreakerRun.stopsAtThreshold cfg cb
              /\ (circuitBreakerEnabled cfg = false -> cb = new apiName cfg)).
  { subst cb.
    assert (H0 : BreakerRun.stopsAtThreshold cfg (new apiName cfg)).
    { split; [reflexivity|]. left. cbn. split; [reflexivity | lia]. }
    split.
    - revert H0. generalize (new apiName cfg).
      induction calls as [|[now f] calls IH]; intros cb0 H0; [exact H0|].
      cbn [executeAll]. apply IH. now apply execute_stopsAtThreshold.
    - intros Hoff. induction calls as [|[now f] calls IH]; [reflexivity|].
      cbn [executeAll]. unfold execute at 1. cbn [config new]. rewrite Hoff. cbn. exact IH. }
  destruct H as [[Hcfg H] Hoff]. split; [|split; [|exact Hoff]].
  - destruct H as [[_ Hc]|[_ Hc]]; lia.
  - destruct H as [[Hs Hc]|[Hs Hc]]; rewrite Hs; split; try discriminate; try lia; auto.
Qed.

(** X10: a failed recovery trial re-opens the breaker only when the
    failure count has reached the threshold.  On an open breaker whose
    count is more than one failure short of the threshold (as after
    [forceOpen] on a breaker that had not failed), a trial made after the
    timeout that fails leaves the breaker half-open with one more failure
    counted; [execute] then lets the next call through, and the half-open
    attempts are reported until the timeout has passed again. *)
Theorem failed_trial_below_threshold_stays_half_open
    (cb : t) (now : Z) (f : AsyncFn T) :
  circuitState cb = OPEN ->
  circuitBreakerTimeoutMs (config cb) <= now - lastFailureTime cb ->
  fails (now, f) ->
  failureCount cb + 1 < circuitBreakerFailureThreshold (config cb) ->
  let cb' := after (testRecovery cb now f) in
  circuitState cb' = HALF_OPEN
  /\ failureCount cb' = failureCount cb + 1
  /\ lastFailureTime cb' = now + elapsed (f now)
  /\ (forall now' (g : AsyncFn T),
        circuitBreakerEnabled (config cb) = true ->
        atCall (execute cb' now' g) = Some cb' /\ result (execute cb' now' g) = res (g now'))
  /\ (forall now',
        BreakerRun.getHalfOpenAttemptsRemaining cb' now'
        = if now' - now <? circuitBreakerTimeoutMs (config cb)
          then circuitBreakerHalfOpenAttempts (config cb) else 0).
Proof.
  intros Hs Hdue [e He] Hlt cb'. cbn [fst snd] in He.
  assert (E : cb' = {| circuitState := HALF_OPEN; failureCount := failureCount cb + 1;
                       lastFailureTime := now + elapsed (f now); lastStateChange := now;
                       config := config cb; apiName := apiName cb |}).
  { subst cb'. unfold testRecovery. rewrite Hs. cbn [isOpen negb].
    replace (_ <=? _) with true by (symmetry; apply Z.leb_le; exact Hdue).
    unfold guarded. rewrite He. cbn [after]. unfold onFailure. cbn.
    replace (_ <=? _) with false by (symmetry; apply Z.leb_gt; exact Hlt).
    reflexivity. }
  rewrite E. cbn. split; [reflexivity|]. split; [reflexivity|]. split; [reflexivity|]. split.
  - intros now' g Hen. unfold execute. cbn. rewrite Hen. cbn. unfold guarded.
    destruct (res (g now')); split; reflexivity.
  - intros now'. unfold BreakerRun.getHalfOpenAttemptsRemaining. cbn.
    destruct (now' - now <? circuitBreakerTimeoutMs (config cb)) eqn:E1.
    + apply Z.ltb_lt in E1. replace (0 <? _) with true by (symmetry; apply Z.ltb_lt; lia).
      reflexivity.
    + apply Z.ltb_ge in E1. replace (0 <? _) with false by (symmetry; apply Z.ltb_ge; lia).
      reflexivity.
Qed.

End BreakerStates.

Section BreakerStateRuns.

Import CircuitBreaker.

Lemma breaker_state_tracks_failure_count_witness :
  let calls :=
    [ {| BreakerRun.entry := BreakerRun.ViaExecute; BreakerRun.startedAt := 0;
         BreakerRun.fn := http500 |};
      {| BreakerRun.entry := BreakerRun.ViaTestRecovery; BreakerRun.startedAt := 100;
         BreakerRun.fn := quoteOk |} ] in
  1 <= circuitBreakerFailureThreshold DEFAULT_RESILIENCE_CONFIG
  /\ BreakerRun.state (BreakerRun.getState
        (BreakerRun.runAll (new "finnhub" DEFAULT_RESILIENCE_CONFIG) calls)) <> HALF_OPEN.
Proof.
  cbv zeta. assert (H : 1 <= circuitBreakerFailureThreshold DEFAULT_RESILIENCE_CONFIG)
    by (vm_compute; discriminate).
  split; [exact H|].
  exact (proj1 (breaker_state_tracks_failure_count "finnhub" DEFAULT_RESILIENCE_CONFIG _ H)).
Defined.

Lemma execute_never_counts_past_threshold_witness :
  1 <= circuitBreakerFailureThreshold DEFAULT_RESILIENCE_CONFIG
  /\ 0 <= failureCount trippedBreaker <= 5.
Proof.
  assert (H : 1 <= circuitBreakerFailureThreshold DEFAULT_RESILIENCE_CONFIG)
    by (vm_compute; discriminate).
  split; [exact H|].
  exact (proj1 (execute_never_counts_past_threshold "finnhub" DEFAULT_RESILIENCE_CONFIG
                  [(0, http500); (100, http500); (200, http500); (300, http500); (400, http500)]
                  H)).
Defined.

Lemma failed_trial_below_threshold_witness :
  let cb := forceOpen (new "finnhub" DEFAULT_RESILIENCE_CONFIG) 0 in
  circuitState cb = OPEN
  /\ circuitState (after (testRecovery cb 60000 http500)) = HALF_OPEN.
Proof.
  cbv zeta. split; [reflexivity|].
  refine (proj1 (failed_trial_below_threshold_stays_half_open
                   (forceOpen (new "finnhub" DEFAULT_RESILIENCE_CONFIG) 0) 60000 http500
                   eq_refl _ (http500_fails 60000) _)).
  - vm_compute. discriminate.
  - vm_compute. reflexivity.
Defined.

End BreakerStateRuns.

(** ** Key manager: the pool the constructor builds *)

Section KeyPoolShape.

Import KeyManager.
Local Open Scope nat_scope.
Local Open Scope list_scope.

Lemma trimStartL_suffix (l : list ascii) :
  exists pre, l = pre ++ Js.trimStartL l.
Proof.
  induction l as [|c l [pre IH]]; [now exists []|]. cbn [Js.trimStartL].
  destruct (Js.isSpace c); [|now exists []].
  exists (c :: pre). cbn. now rewrite <- IH.
Qed.

Lemma trimStartL_head (l : list ascii) (c : ascii) (rest : list ascii) :
  Js.trimStartL l = c :: rest -> Js.isSpace c = false.
Proof.
  induction l as [|a l IH]; cbn [Js.trimStartL]; [discriminate|].
  destruct (Js.isSpace a) eqn:E; [exact IH | intros [= <- _]; exact E].
Qed.

Lemma trimStartL_fixed (c : ascii) (l : list ascii) :
  Js.isSpace c = false -> Js.trimStartL (c :: l) = c :: l.
Proof. intros H. cbn [Js.trimStartL]. now rewrite H. Qed.

(** trimming a trimmed list of characters changes nothing *)
Lemma trim_chars_idem (l : list ascii) :
  let t := rev (Js.trimStartL (rev (Js.trimStartL l))) in
  rev (Js.trimStartL (rev (Js.trimStartL t))) = t.
Proof.
  cbv zeta. set (a := Js.trimStartL l).
  destruct (trimStartL_suffix (rev a)) as [pre Hpre].
  set (b := Js.trimStartL (rev a)) in *.
  destruct b as [|x b'] eqn:Hb; [reflexivity|].
  assert (Hx : Js.isSpace x = false) by (eapply trimStartL_head; exact Hb).
  (* [a = rev (x :: b') ++ rev pre], so the head of [rev (x :: b')] is the head of [a] *)
  assert (Ha : a = rev (x :: b') ++ rev pre).
  { rewrite <- rev_app_distr, <- Hpre. symmetry. apply rev_involutive. }
  destruct (rev (x :: b')) as [|y r] eqn:Hr.
  { apply (f_equal (@length _)) in Hr. rewrite length_rev in Hr. discriminate Hr. }
  assert (Hy : Js.isSpace y = false).
  { eapply (trimStartL_head l y (r ++ rev pre)). fold a. rewrite Ha. reflexivity. }
  rewrite (trimStartL_fixed y r Hy).
  rewrite <- Hr, rev_involutive, (trimStartL_fixed x b' Hx). reflexivity.
Qed.

Lemma trim_idem (s : string) : Js.trim (Js.trim s) = Js.trim s.
Proof.
  unfold Js.trim. rewrite chars_of_list. f_equal. apply trim_chars_idem.
Qed.

Lemma trimStartL_In (x : ascii) (l : list ascii) : In x (Js.trimStartL l) -> In x l.
Proof.
  destruct (trimStartL_suffix l) as [pre H]. intros Hx. rewrite H. apply in_or_app. now right.
Qed.

Lemma trim_In (x : ascii) (s : string) : In x (Js.chars (Js.trim s)) -> In x (Js.chars s).
Proof.
  unfold Js.trim. rewrite chars_of_list. intros H.
  apply in_rev, trimStartL_In, in_rev, trimStartL_In in H. exact H.
Qed.

(** [s.includes(c)] for a single character *)
Lemma includes_char (s : string) (c : ascii) :
  Js.includes s (String c EmptyString) = true <-> In c (Js.chars s).
Proof.
  unfold Js.includes. change (Js.chars (String c EmptyString)) with [c].
  induction (Js.chars s) as [|b l IH]; cbn [Js.includesL Js.startsWithL].
  - split; [discriminate | intros []].
  - rewrite orb_true_iff, andb_true_r, IH. unfold Js.eqChar. rewrite Ascii.eqb_eq.
    split; (intros [H|H]; [left; congruence | now right]).
Qed.

Lemma splitL_pieces (sep : ascii) (l cur : list ascii) :
  ~ In sep cur ->
  Forall (fun p => ~ In sep (Js.chars p)) (Js.splitL sep cur l).
Proof.
  revert cur. induction l as [|c l IH]; intros cur Hcur; cbn [Js.splitL].
  - constructor; [|constructor]. rewrite chars_of_list. now rewrite <- in_rev.
  - unfold Js.eqChar. destruct (Ascii.eqb c sep) eqn:E.
    + constructor; [rewrite chars_of_list; now rewrite <- in_rev|]. apply IH. intros [].
    + apply IH. intros [->|H]; [now rewrite Ascii.eqb_refl in E | now apply Hcur].
Qed.

Lemma trim_truthy (s : string) : Js.truthy s = true <-> s <> EmptyString.
Proof.
  unfold Js.truthy. rewrite negb_true_iff. split.
  - intros H ->. discriminate H.
  - intros H. apply String.eqb_neq. exact H.
Qed.

(** X11: the pool the constructor builds from the environment.  Every key
    of the pool is a clean credential (not empty, without surrounding white
    space, and free of commas: one entry of the variable), carries its
    position as its index and has never been used nor rate limited; the
    current key is the first.  A provider without a key variable (Sina,
    East Money, or any unknown name) gets no pool, whatever the
    environment holds. *)
Theorem constructed_pool_is_clean (env : Env) (apiName : string) (cfg : ResilienceConfig) :
  let km := new env apiName cfg in
  (forall i k, Pool.pool km !! i = Some k ->
     index k = i /\ KeyOps.clean (key k) /\ KeyOps.untouched k)
  /\ getCurrentKeyIndex km apiName = 0
  /\ (ENV_VAR_MAP apiName = None -> Pool.pool km = [] /\ getTotalKeyCount km = 0).
Proof.
  cbv zeta. unfold new, initializeKeys.
  destruct (ENV_VAR_MAP apiName) as [envVar|].
  2: { split; [intros i k H; discriminate H|]. split; [reflexivity|]. intros _. now split. }
  assert (Hnone : forall km0 : t,
            km0 = {| keys := ∅; currentIndexes := ∅; config := cfg; apiName := apiName |} ->
            (forall i k, Pool.pool km0 !! i = Some k ->
               index k = i /\ KeyOps.clean (key k) /\ KeyOps.untouched k)
            /\ getCurrentKeyIndex km0 apiName = 0
            /\ (Some envVar = None -> Pool.pool km0 = [] /\ getTotalKeyCount km0 = 0)).
  { intros km0 ->. split; [intros i k H; discriminate H|]. split; [reflexivity | discriminate]. }
  destruct (env !! envVar) as [keyEnv|]; [|now apply Hnone].
  destruct (negb (Js.truthy keyEnv) || negb (Js.truthy (Js.trim keyEnv))) eqn:Hguard;
    [now apply Hnone|].
  apply orb_false_iff in Hguard as [_ Htrim]. apply negb_false_iff in Htrim.
  clear Hnone.
  destruct (Js.includes keyEnv ",") eqn:Hcomma.
  - split; [|split; [unfold getCurrentKeyIndex; cbn; now rewrite lookup_insert_eq | discriminate]].
    intros i k. unfold Pool.pool, getKeyInfo. cbn. rewrite lookup_insert_eq. cbn.
    unfold freshKeys. rewrite list_lookup_imap.
    destruct (_ !! i) as [s|] eqn:Hs; [|discriminate]. cbn. intros [= <-]. cbn.
    split; [reflexivity|]. split; [|repeat split].
    apply list_elem_of_lookup_2, list_elem_of_In, List.filter_In in Hs as [Hin Hlen].
    apply in_map_iff in Hin as (piece & <- & Hpiece).
    split; [|split].
    + intros E. rewrite E in Hlen. discriminate Hlen.
    + apply trim_idem.
    + apply not_true_is_false. intros Hc. apply includes_char, trim_In in Hc.
      pose proof (splitL_pieces "," (Js.chars keyEnv) [] (fun x => x)) as Hall.
      rewrite List.Forall_forall in Hall. exact (Hall piece Hpiece Hc).
  - split; [|split; [unfold getCurrentKeyIndex; cbn; now rewrite lookup_insert_eq | discriminate]].
    intros i k. unfold Pool.pool, getKeyInfo. cbn. rewrite lookup_insert_eq. cbn.
    destruct i as [|i]; [|discriminate]. cbn. intros [= <-]. cbn.
    split; [reflexivity|]. split; [|repeat split].
    split; [|split].
    + now apply trim_truthy.
    + apply trim_idem.
    + apply not_true_is_false. intros Hc. apply includes_char, trim_In in Hc.
      apply includes_char in Hc. congruence.
Qed.

End KeyPoolShape.

(** ** Key manager: what every sequence of operations preserves *)

Section KeyPoolInvariants.

Import KeyManager.
Local Open Scope nat_scope.
Local Open Scope list_scope.

Lemma new_indexed (env : Env) (name : string) (cfg : ResilienceConfig) :
  KeyOps.indexed (new env name cfg) /\ apiName (new env name cfg) = name.
Proof.
  unfold new, initializeKeys, KeyOps.indexed.
  destruct (ENV_VAR_MAP name); [|split; [intros i k H; discriminate H | reflexivity]].
  destruct (env !! _) as [keyEnv|]; [|split; [intros i k H; discriminate H | reflexivity]].
  destruct (_ || _); [split; [intros i k H; discriminate H | reflexivity]|].
  destruct (Js.includes keyEnv ","); (split; [|reflexivity]); intros i k;
    unfold Pool.pool, getKeyInfo; cbn; rewrite lookup_insert_eq; cbn.
  - unfold freshKeys. rewrite list_lookup_imap.
    destruct (_ !! i); [|discriminate]. cbn. now intros [= <-].
  - destruct i; [|discriminate]. cbn. now intros [= <-].
Qed.

Lemma updateKey_identity (km : t) (i : nat) (f : ApiKeyInfo -> ApiKeyInfo) :
  (forall k, KeyOps.identity (f k) = KeyOps.identity k) ->
  KeyOps.identity <$> Pool.pool (updateKey km i f) = KeyOps.identity <$> Pool.pool km.
Proof.
  intros Hf. rewrite updateKey_pool. destruct (Pool.pool km !! i) as [k|] eqn:E; [|reflexivity].
  rewrite list_fmap_insert, Hf. apply list_insert_id. now rewrite list_lookup_fmap, E.
Qed.

Lemma sweep_identity (now : Z) (indexes : list nat) :
  forall km,
    KeyOps.identity <$> Pool.pool (sweep km now indexes) = KeyOps.identity <$> Pool.pool km
    /\ apiName (sweep km now indexes) = apiName km.
Proof.
  induction indexes as [|i indexes IH]; intros km; [now split|]. cbn [sweep].
  set (km' := match keys km !! apiName km with Some ks => _ | None => km end).
  assert (H : KeyOps.identity <$> Pool.pool km' = KeyOps.identity <$> Pool.pool km
              /\ apiName km' = apiName km).
  { subst km'. destruct (keys km !! apiName km) as [ks|]; [|now split].
    destruct (ks !! i) as [k|]; [|now split].
    destruct (cooldownExpired now k); [|now split]. split.
    - now apply updateKey_identity.
    - apply updateKey_frame. }
  destruct H as [H1 H2]. destruct (IH km') as [IH1 IH2]. split; congruence.
Qed.

(** no operation touches a credential or an index, nor the name of the provider *)
Lemma apply_identity (km : t) (op : KeyOps.Op) :
  KeyOps.identity <$> Pool.pool (KeyOps.apply km op) = KeyOps.identity <$> Pool.pool km
  /\ apiName (KeyOps.apply km op) = apiName km.
Proof.
  destruct op as [name|now i|now i|i|now|now|]; cbn [KeyOps.apply].
  - unfold getNextKey. destruct (keys km !! name) as [ks|]; [|now split].
    destruct (length ks =? 0); [now split|].
    destruct (getNextKeyLoop _ _ _) as [[j|]|]; [|now split|now split].
    destruct (ks !! j); now split.
  - split; [now apply updateKey_identity | apply updateKey_frame].
  - unfold recordUsage. destruct (keys km !! apiName km) as [ks|]; [|now split].
    destruct (length ks <=? i); [now split|]. split.
    + rewrite pool_setCurrentIndex. now apply updateKey_identity.
    + cbn. apply updateKey_frame.
  - split; [now apply updateKey_identity | apply updateKey_frame].
  - unfold checkAndResetCooldowns. destruct (keys km !! apiName km); [|now split].
    apply sweep_identity.
  - cbn. unfold checkAndResetCooldowns. destruct (keys km !! apiName km); [|now split].
    apply sweep_identity.
  - unfold rotateKey. destruct (keys km !! apiName km) as [ks|]; [|now split].
    destruct (length ks <=? 1); [now split|].
    destruct (rotateLoop _ _ _ _); now split.
Qed.

Lemma apply_wellFormed (km : t) (op : KeyOps.Op) :
  Pool.wellFormed km -> Pool.wellFormed (KeyOps.apply km op).
Proof.
  destruct op; cbn [KeyOps.apply];
    auto using getNextKey_wellFormed, markRateLimit_wellFormed, recordUsage_wellFormed,
      resetCooldown_wellFormed, checkAndResetCooldowns_wellFormed, hasAvailableKey_wellFormed,
      rotateKey_wellFormed.
Qed.

Lemma getNextKeyLoop_no_TypeError (ks : list ApiKeyInfo) (fuel : nat) :
  forall c, c < length ks -> getNextKeyLoop ks fuel c <> inr tt.
Proof.
  induction fuel as [|fuel IH]; intros c Hc; cbn [getNextKeyLoop]; [discriminate|].
  destruct (lookup_lt_is_Some_2 ks c Hc) as [k Hk]. rewrite Hk.
  destruct (negb (inCooldown k)); [discriminate|].
  apply IH, Nat.mod_upper_bound. lia.
Qed.

Lemma getNextKey_no_TypeError (km : t) :
  Pool.wellFormed km -> fst (getNextKey km (apiName km)) <> KeyTypeError.
Proof.
  intros Hwf. unfold getNextKey.
  destruct (keys km !! apiName km) as [ks|] eqn:Hks; [|discriminate].
  destruct (length ks =? 0) eqn:E; [discriminate|]. apply Nat.eqb_neq in E.
  unfold Pool.wellFormed in Hwf. rewrite (pool_lookup km ks Hks) in Hwf.
  destruct Hwf as [->|Hc]; [now cbn in E|].
  pose proof (getNextKeyLoop_no_TypeError ks (length ks * 2) _ Hc) as Hloop.
  destruct (getNextKeyLoop _ _ _) as [[j|]|[]] eqn:El; [|discriminate|congruence].
  apply getNextKeyLoop_in_range in El.
  destruct (lookup_lt_is_Some_2 ks j El) as [k Hk]. rewrite Hk. discriminate.
Qed.

(** X12: a key manager stays consistent under every sequence of calls of
    its public methods, with any arguments and at any times: acquiring a
    key of its provider never throws (the current index always addresses
    a key of the pool), the credentials and their order never change, so
    neither does the number of keys, and every key keeps its position as
    its index. *)
Theorem key_manager_stays_consistent
    (env : Env) (name : string) (cfg : ResilienceConfig) (ops : list KeyOps.Op) :
  let km0 := new env name cfg in
  let km := KeyOps.applyAll km0 ops in
  fst (getNextKey km name) <> KeyTypeError
  /\ KeyOps.credentials km = KeyOps.credentials km0
  /\ getTotalKeyCount km = getTotalKeyCount km0
  /\ KeyOps.indexed km.
Proof.
  cbv zeta.
  assert (H : forall km0,
            Pool.wellFormed km0 ->
            Pool.wellFormed (KeyOps.applyAll km0 ops)
            /\ KeyOps.identity <$> Pool.pool (KeyOps.applyAll km0 ops)
               = KeyOps.identity <$> Pool.pool km0
            /\ apiName (KeyOps.applyAll km0 ops) = apiName km0).
  { induction ops as [|op ops IH]; intros km0 Hwf; [now split|].
    cbn [KeyOps.applyAll].
    destruct (IH (KeyOps.apply km0 op) (apply_wellFormed km0 op Hwf)) as (H1 & H2 & H3).
    destruct (apply_identity km0 op) as [H4 H5].
    split; [exact H1|]. split; congruence. }
  destruct (H _ (new_wellFormed env name cfg)) as (Hwf & Hid & Hname).
  destruct (new_indexed env name cfg) as [Hidx Hname0].
  set (km0 := new env name cfg) in *. set (km := KeyOps.applyAll km0 ops) in *.
  assert (Hcred : KeyOps.credentials km = KeyOps.credentials km0).
  { unfold KeyOps.credentials.
    change key with (fst ∘ KeyOps.identity). now rewrite !list_fmap_compose, Hid. }
  split; [|split; [exact Hcred|split]].
  - rewrite <- Hname0, <- Hname. now apply getNextKey_no_TypeError.
  - apply (f_equal (@length _)) in Hcred. unfold KeyOps.credentials in Hcred.
    rewrite !length_fmap in Hcred.
    unfold getTotalKeyCount. unfold Pool.pool, getKeyInfo in Hcred.
    destruct (keys km !! apiName km), (keys km0 !! apiName km0); exact Hcred.
  - intros i k Hk.
    assert (Hi : (KeyOps.identity <$> Pool.pool km0) !! i = Some (KeyOps.identity k)).
    { rewrite <- Hid, list_lookup_fmap, Hk. reflexivity. }
    rewrite list_lookup_fmap in Hi. destruct (Pool.pool km0 !! i) as [k0|] eqn:E0; [|discriminate].
    injection Hi as _ Hi. rewrite <- Hi. exact (Hidx i k0 E0).
Qed.

End KeyPoolInvariants.

(** ** Key manager: which key is handed out *)

Section KeyPoolRotation.

Import KeyManager.
Import Pool.
Local Open Scope nat_scope.
Local Open Scope list_scope.

(** the scan of [getNextKey] stops at the first usable key *)
Lemma getNextKeyLoop_first (ks : list ApiKeyInfo) (d : nat) :
  forall fuel c, c < length ks -> d < fuel ->
    (forall d', d' < d -> cooled ks ((c + d') mod length ks)) ->
    usable ks ((c + d) mod length ks) ->
    getNextKeyLoop ks fuel c = inl (Some ((c + d) mod length ks)).
Proof.
  induction d as [|d IH]; intros fuel c Hc Hd Hskip Hu; (destruct fuel as [|fuel]; [lia|]);
    cbn [getNextKeyLoop].
  - rewrite Nat.add_0_r in *. rewrite (Nat.mod_small c (length ks) Hc) in *.
    destruct Hu as (k & Hk & Hfree). now rewrite Hk, Hfree.
  - destruct (Hskip 0) as (k & Hk & Hcool); [lia|].
    rewrite Nat.add_0_r, Nat.mod_small in Hk by exact Hc. rewrite Hk, Hcool. cbn [negb].
    replace ((c + S d) mod length ks) with (((c + 1) mod length ks + d) mod length ks)
      by (rewrite Nat.Div0.add_mod_idemp_l; f_equal; lia).
    apply IH.
    + apply Nat.mod_upper_bound. lia.
    + lia.
    + intros d' Hd'. rewrite Nat.Div0.add_mod_idemp_l.
      replace (c + 1 + d') with (c + S d') by lia. apply Hskip. lia.
    + rewrite Nat.Div0.add_mod_idemp_l. replace (c + 1 + d) with (c + S d) by lia. exact Hu.
Qed.

(** X13: [getNextKey] hands out keys round-robin from the current one,
    skipping exactly the keys in cooldown: when the [d] keys from the
    current index on are in cooldown and the next one is not, that next
    key is returned (as a copy) and becomes the current key; nothing else
    of the manager changes. *)
Theorem acquire_skips_cooled_keys (km : t) (d : nat) (k : ApiKeyInfo) :
  let ks := Pool.pool km in
  let c := getCurrentKeyIndex km (apiName km) in
  Pool.wellFormed km ->
  d < length ks ->
  (forall d', d' < d -> cooled ks ((c + d') mod length ks)) ->
  ks !! ((c + d) mod length ks) = Some k ->
  inCooldown k = false ->
  getNextKey km (apiName km)
  = (KeyFound k, setCurrentIndex km (apiName km) ((c + d) mod length ks)).
Proof.
  intros ks c Hwf Hd Hskip Hk Hfree. subst ks c. unfold getNextKey.
  unfold Pool.wellFormed in Hwf.
  destruct (keys km !! apiName km) as [ks|] eqn:Hks.
  2: { rewrite (pool_none km Hks) in Hd. cbn in Hd. lia. }
  rewrite (pool_lookup km ks Hks) in *.
  destruct (length ks =? 0) eqn:E; [apply Nat.eqb_eq in E; lia|].
  destruct Hwf as [->|Hc]; [cbn in Hd; lia|].
  rewrite (getNextKeyLoop_first ks d (length ks * 2) _ Hc); [|lia|exact Hskip|now exists k].
  now rewrite Hk.
Qed.

Lemma acquire_skips_cooled_keys_witness :
  let km := markRateLimit twoKeyPool 1000%Z 0 in
  exists k, fst (getNextKey km "finnhub") = KeyFound k /\ key k = "good2"%string.
Proof.
  cbv zeta. eexists. split.
  - refine (f_equal fst (acquire_skips_cooled_keys (markRateLimit twoKeyPool 1000%Z 0) 1 _
                           _ _ _ _ _)).
    + apply markRateLimit_wellFormed, twoKeyPool_wellFormed.
    + vm_compute. lia.
    + intros d' Hd'. assert (d' = 0) as -> by lia. vm_compute. eexists. split; reflexivity.
    + vm_compute. reflexivity.
    + reflexivity.
  - reflexivity.
Defined.

Lemma mod_once (a n : nat) : n <= a < 2 * n -> a mod n = a - n.
Proof.
  intros H. assert (E : a = a - n + 1 * n) by lia. rewrite E at 1.
  rewrite Nat.Div0.mod_add. apply Nat.mod_small. lia.
Qed.

(** a key the rotation settles on is usable *)
Lemma rotateLoop_usable (ks : list ApiKeyInfo) (fuel : nat) :
  forall c start i, rotateLoop ks fuel c start = Some i -> usable ks i.
Proof.
  induction fuel as [|fuel IH]; intros c start i; cbn [rotateLoop]; [discriminate|].
  destruct (ks !! _) as [k|] eqn:Hk; [|discriminate].
  destruct (inCooldown k) eqn:Hcool; cbn [negb].
  - destruct (_ =? _); [discriminate | apply IH].
  - intros [= <-]. now exists k.
Qed.

(** a rotation that gives up has seen every key from the one after the
    start round to the start itself, all in cooldown *)
Lemma rotateLoop_gives_up (ks : list ApiKeyInfo) (start : nat) (fuel : nat) :
  forall m, start < length ks -> m < length ks -> length ks <= fuel + m ->
    rotateLoop ks fuel ((start + m) mod length ks) start = None ->
    forall j, m < j <= length ks -> cooled ks ((start + j) mod length ks).
Proof.
  induction fuel as [|fuel IH]; intros m Hs Hm Hfuel Hnone j Hj; [lia|].
  cbn [rotateLoop] in Hnone. rewrite Nat.Div0.add_mod_idemp_l in Hnone.
  replace (start + m + 1) with (start + S m) in Hnone by lia.
  assert (Hin : (start + S m) mod length ks < length ks) by (apply Nat.mod_upper_bound; lia).
  destruct (lookup_lt_is_Some_2 ks _ Hin) as [k Hk]. rewrite Hk in Hnone.
  destruct (inCooldown k) eqn:Hcool; cbn [negb] in Hnone; [|discriminate].
  destruct (decide (j = S m)) as [->|Hne]; [now exists k|].
  destruct ((start + S m) mod length ks =? start) eqn:E.
  - (* back at the start: [S m] is the length of the pool *)
    apply Nat.eqb_eq in E. exfalso.
    assert (S m = length ks \/ S m < length ks) as [Hlen|Hlt] by lia; [lia|].
    destruct (start + S m <? length ks) eqn:El.
    + apply Nat.ltb_lt in El. rewrite Nat.mod_small in E by exact El. lia.
    + apply Nat.ltb_ge in El. rewrite mod_once in E by lia. lia.
  - apply (IH (S m)); try lia. exact Hnone.
Qed.

(** X14: [rotateKey] succeeds exactly when some key of the pool is not in
    cooldown, provided the pool has at least two keys; the key it makes
    current is then not in cooldown, and nothing else changes.  A pool of
    one key is never rotated, even when its key is usable. *)
Theorem rotation_succeeds_iff_a_key_is_usable (km : t) :
  Pool.wellFormed km ->
  (2 <= length (Pool.pool km) ->
     (fst (rotateKey km) = true <-> 0 < getAvailableKeyCount km)
     /\ (fst (rotateKey km) = true ->
           exists i, snd (rotateKey km) = setCurrentIndex km (apiName km) i
                     /\ usable (Pool.pool km) i))
  /\ (length (Pool.pool km) <= 1 -> rotateKey km = (false, km)).
Proof.
  intros Hwf. unfold rotateKey, getAvailableKeyCount. unfold Pool.wellFormed in Hwf.
  destruct (keys km !! apiName km) as [ks|] eqn:Hks.
  2: { rewrite (pool_none km Hks). cbn. split; [lia | reflexivity]. }
  rewrite (pool_lookup km ks Hks) in *. split.
  - intros Hlen. replace (length ks <=? 1) with false by (symmetry; apply Nat.leb_gt; lia).
    destruct Hwf as [->|Hc]; [cbn in Hlen; lia|].
    set (c := getCurrentKeyIndex km (apiName km)) in *.
    destruct (rotateLoop ks (length ks) c c) as [i|] eqn:Hloop; cbn [fst snd].
    + pose proof (rotateLoop_usable _ _ _ _ _ Hloop) as Hu. split.
      * split; [intros _|reflexivity].
        destruct Hu as (k & Hk & Hfree).
        assert (Hin : In k (List.filter (fun k => negb (inCooldown k)) ks)).
        { apply List.filter_In. split; [|now rewrite Hfree].
          apply list_elem_of_In. eapply list_elem_of_lookup_2, Hk. }
        destruct (List.filter _ ks); [destruct Hin | cbn; lia].
      * intros _. exists i. now split.
    + split; [|discriminate]. split; [discriminate|]. intros Hpos. exfalso.
      assert (Hall : forall j, 0 < j <= length ks -> cooled ks ((c + j) mod length ks)).
      { apply (rotateLoop_gives_up ks c (length ks) 0); try lia.
        now rewrite Nat.add_0_r, Nat.mod_small by exact Hc. }
      assert (Hnone : List.filter (fun k => negb (inCooldown k)) ks = []).
      { destruct (List.filter _ ks) as [|k l] eqn:Ef; [reflexivity|]. exfalso.
        assert (Hin : In k (List.filter (fun k => negb (inCooldown k)) ks))
          by (rewrite Ef; now left).
        apply List.filter_In in Hin as [Hin Hfree]. apply negb_true_iff in Hfree.
        apply list_elem_of_In, list_elem_of_lookup_1 in Hin as [p Hp].
        assert (Hp' : p < length ks) by (eapply lookup_lt_Some, Hp).
        (* position [p] is [(c + j) mod n] for [j = p - c] or [p + n - c] *)
        destruct (Hall (if c <? p then p - c else p + length ks - c)) as (k' & Hk' & Hcool).
        { destruct (c <? p) eqn:El; [apply Nat.ltb_lt in El | apply Nat.ltb_ge in El]; lia. }
        assert (Hpos' : (c + (if c <? p then p - c else p + length ks - c)) mod length ks = p).
        { destruct (c <? p) eqn:El; [apply Nat.ltb_lt in El | apply Nat.ltb_ge in El].
          - replace (c + (p - c)) with p by lia. now apply Nat.mod_small.
          - rewrite mod_once by lia. lia. }
        rewrite Hpos' in Hk'. congruence. }
      rewrite Hnone in Hpos. cbn in Hpos. lia.
  - intros Hlen. now replace (length ks <=? 1) with true by (symmetry; apply Nat.leb_le; lia).
Qed.

Lemma rotation_succeeds_witness :
  let km := markRateLimit twoKeyPool 1000%Z 0 in
  Pool.wellFormed km
  /\ (fst (rotateKey km) = true <-> 0 < getAvailableKeyCount km).
Proof.
  cbv zeta.
  assert (H : Pool.wellFormed (markRateLimit twoKeyPool 1000%Z 0))
    by apply markRateLimit_wellFormed, twoKeyPool_wellFormed.
  split; [exact H|].
  refine (proj1 (proj1 (rotation_succeeds_iff_a_key_is_usable _ H) _)).
  vm_compute. lia.
Defined.

End KeyPoolRotation.

(** ** Key manager: cooldowns *)

Section KeyPoolCooldown.

Import KeyManager.
Import Pool.
Local Open Scope nat_scope.
Local Open Scope list_scope.

Lemma getAvailableKeyCount_usable (km : t) :
  0 < getAvailableKeyCount km -> exists j, usable (Pool.pool km) j.
Proof.
  unfold getAvailableKeyCount, Pool.pool, getKeyInfo.
  destruct (keys km !! apiName km) as [ks|]; cbn; [|lia].
  destruct (List.filter _ ks) as [|k l] eqn:E; cbn; [lia|]. intros _.
  assert (Hin : In k (List.filter (fun k => negb (inCooldown k)) ks)) by (rewrite E; now left).
  apply List.filter_In in Hin as [Hin Hfree]. apply negb_true_iff in Hfree.
  apply list_elem_of_In, list_elem_of_lookup_1 in Hin as [j Hj].
  exists j, k. now split.
Qed.

(** X15: [hasAvailableKey] answers true exactly when some key of the pool
    is not in cooldown or is in a cooldown whose deadline has passed; a
    cooldown without a deadline never ends. *)
Theorem availability_counts_expired_cooldowns (km : t) (now : Z) :
  (fst (hasAvailableKey km now) = true
   <-> exists i k, Pool.pool km !! i = Some k
                   /\ (inCooldown k = false \/ cooldownExpired now k = true))
  /\ (forall k, inCooldown k = true -> cooldownUntil k = None -> cooldownExpired now k = false).
Proof.
  split; [|intros k Hc Hu; unfold cooldownExpired; now rewrite Hc, Hu].
  unfold hasAvailableKey. cbn [fst].
  destruct (checkAndResetCooldowns_spec km now) as (_ & _ & Hlen & _ & Hpool).
  rewrite Nat.ltb_lt. split.
  - intros Hpos. destruct (getAvailableKeyCount_usable _ Hpos) as (j & k' & Hk' & Hfree).
    assert (Hj : j < length (Pool.pool km)).
    { rewrite <- Hlen. eapply lookup_lt_Some, Hk'. }
    destruct (lookup_lt_is_Some_2 _ _ Hj) as [k Hk].
    exists j, k. split; [exact Hk|]. rewrite (Hpool j k Hk) in Hk'. injection Hk' as <-.
    destruct (cooldownExpired now k); [now right | now left].
  - intros (i & k & Hk & Hor). apply (getAvailableKeyCount_pos _ i).
    eexists. split; [apply Hpool, Hk|].
    destruct (cooldownExpired now k) eqn:Hex; [reflexivity|].
    destruct Hor as [Hfree|Hc]; [exact Hfree | discriminate].
Qed.

(** X16: a rate-limit mark keeps its key out of use for exactly the reset
    window.  After [markRateLimit] at time [t] on a key of the pool, the
    sweep of [hasAvailableKey] at time [now] leaves the key in cooldown
    while [now] is before [t] plus the window, and makes it usable again
    from that instant on. *)
Theorem cooldown_lasts_the_reset_window (km : t) (t now : Z) (i : nat) :
  i < length (Pool.pool km) ->
  (t + keyRotationResetWindowMs (config km) <> 0)%Z ->
  let km1 := markRateLimit km t i in
  let km2 := snd (hasAvailableKey km1 now) in
  cooled (Pool.pool km1) i
  /\ ((now < t + keyRotationResetWindowMs (config km))%Z -> cooled (Pool.pool km2) i)
  /\ ((t + keyRotationResetWindowMs (config km) <= now)%Z -> usable (Pool.pool km2) i).
Proof.
  intros Hi Hnz km1 km2. subst km2. unfold hasAvailableKey. cbn [snd].
  destruct (checkAndResetCooldowns_spec km1 now) as (_ & _ & _ & _ & Hpool).
  destruct (lookup_lt_is_Some_2 _ _ Hi) as [k Hk].
  assert (Hk1 : Pool.pool km1 !! i
                = Some {| key := key k; index := index k; usageCount := usageCount k;
                          lastUsed := lastUsed k; inCooldown := true;
                          cooldownUntil := Some (t + keyRotationResetWindowMs (config km))%Z;
                          lastRateLimitError := Some t |}).
  { subst km1. unfold markRateLimit. rewrite updateKey_pool, Hk.
    apply list_lookup_insert_eq, Hi. }
  split; [eexists; split; [exact Hk1 | reflexivity]|].
  unfold cooled, usable. rewrite (Hpool i _ Hk1). unfold cooldownExpired. cbn.
  replace (_ =? 0)%Z with false by (symmetry; apply Z.eqb_neq; exact Hnz). cbn.
  split; intros Hnow.
  - replace (_ <=? now)%Z with false by (symmetry; apply Z.leb_gt; exact Hnow).
    eexists. split; reflexivity.
  - replace (_ <=? now)%Z with true by (symmetry; apply Z.leb_le; exact Hnow).
    eexists. split; reflexivity.
Qed.

Lemma cooldown_lasts_the_reset_window_witness :
  cooled (Pool.pool (snd (hasAvailableKey (markRateLimit oneKeyPool 1000%Z 0) 3600999%Z))) 0
  /\ usable (Pool.pool (snd (hasAvailableKey (markRateLimit oneKeyPool 1000%Z 0) 3601000%Z))) 0.
Proof.
  assert (Hi : 0 < length (Pool.pool oneKeyPool)) by (vm_compute; lia).
  assert (Hnz : (1000 + keyRotationResetWindowMs (config oneKeyPool) <> 0)%Z)
    by (vm_compute; discriminate).
  split.
  - refine (proj1 (proj2 (cooldown_lasts_the_reset_window oneKeyPool 1000 3600999 0 Hi Hnz)) _).
    vm_compute. reflexivity.
  - refine (proj2 (proj2 (cooldown_lasts_the_reset_window oneKeyPool 1000 3601000 0 Hi Hnz)) _).
    vm_compute. discriminate.
Defined.

End KeyPoolCooldown.

(** ** Key rotation inside one attempt *)

Section RotationProperties.

Context {T : Type}.

Import ResilientApiClient.
Local Open Scope nat_scope.
Local Open Scope list_scope.

Lemma keyRotationLoop_bounded (executor : SourceExecutor T) (src : ApiSource) (fuel : nat) :
  forall lastError km st r km' st',
    keyRotationLoop executor src fuel lastError km st = (r, km', st') ->
    exists newcalls, calls st' = calls st ++ newcalls /\ length newcalls <= fuel.
Proof.
  induction fuel as [|fuel IH]; intros lastError km st r km' st' H; cbn [keyRotationLoop] in H.
  - injection H as <- <- <-. exists []. now rewrite app_nil_r.
  - destruct (KeyManager.getNextKey km src) as [[keyInfo| |] km1].
    + destruct (invoke executor src (Some (KeyManager.getCurrentKeyIndex km1 src)) st)
        as [r1 st1] eqn:Einv.
      pose proof (invoke_frame executor src (Some (KeyManager.getCurrentKeyIndex km1 src)) st)
        as [_ Hcalls].
      rewrite Einv in Hcalls. cbn [snd] in Hcalls.
      assert (Hone : exists newcalls, calls st1 = calls st ++ newcalls
                                      /\ length newcalls <= S fuel).
      { eexists. split; [exact Hcalls|]. cbn. lia. }
      destruct r1 as [v|e].
      * injection H as <- <- <-. exact Hone.
      * destruct (ErrorDetection.isRateLimitError e).
        -- destruct (KeyManager.rotateKey _) as [rotated km3].
           destruct rotated; cbn [negb] in H.
           ++ destruct (IH _ _ _ _ _ _ H) as (more & Hm & Hlen).
              eexists (_ :: more). split; [rewrite Hm, Hcalls, <- app_assoc; reflexivity|].
              cbn. lia.
           ++ injection H as <- <- <-. exact Hone.
        -- injection H as <- <- <-. exact Hone.
    + injection H as <- <- <-. exists []. rewrite app_nil_r. split; [reflexivity | cbn; lia].
    + injection H as <- <- <-. exists []. rewrite app_nil_r. split; [reflexivity | cbn; lia].
Qed.

(** X17: one attempt never calls a provider more often than it has keys:
    the rotation makes at most as many executor calls as the provider's
    pool holds keys, and exactly one call for a provider without a key
    manager.  For a provider whose key manager holds no key the executor
    is not called at all: the attempt fails with [All keys exhausted]. *)
Theorem key_rotation_calls_at_most_once_per_key
    (executor : SourceExecutor T) (src : ApiSource) (st : State) :
  let run := executeWithKeyRotation executor src st in
  exists newcalls,
    calls (snd run) = calls st ++ newcalls
    /\ match keyManagers (client st) !! src with
       | Some km =>
           length newcalls <= KeyManager.getTotalKeyCount km
           /\ (KeyManager.getTotalKeyCount km = 0 -> fst run = Throw (allKeysExhausted src))
       | None => length newcalls = 1
       end.
Proof.
  cbv zeta. unfold executeWithKeyRotation.
  destruct (keyManagers (client st) !! src) as [km|].
  - destruct (keyRotationLoop executor src (KeyManager.getTotalKeyCount km) None km st)
      as [[r km'] st'] eqn:E.
    destruct (keyRotationLoop_bounded _ _ _ _ _ _ _ _ _ E) as (newcalls & Hc & Hlen).
    exists newcalls. cbn [fst snd withClient calls]. split; [exact Hc|]. split; [exact Hlen|].
    intros Hzero. rewrite Hzero in E. cbn [keyRotationLoop] in E. now injection E as <- _ _.
  - eexists. split; [apply invoke_frame | reflexivity].
Qed.

(** X18: a failure that is not a rate limit ends the attempt at once.
    When the call under the acquired key fails with an error that
    [isRateLimitError] does not recognise, the rotation rethrows that very
    error after this single call: no key is put in cooldown, no usage is
    recorded and no other key is tried; of the key manager only the
    current index has moved to the acquired key. *)
Theorem failure_without_rate_limit_ends_the_attempt
    (executor : SourceExecutor T) (src : ApiSource) (st : State)
    (km km1 : KeyManager.t) (k : ApiKeyInfo) (e : Thrown) :
  keyManagers (client st) !! src = Some km ->
  KeyManager.apiName km = src ->
  KeyManager.getNextKey km src = (KeyFound k, km1) ->
  let v := Rotation.viewAt st (Some (KeyManager.getCurrentKeyIndex km1 src)) in
  res (executor src v) = Throw e ->
  ErrorDetection.isRateLimitError e = false ->
  executeWithKeyRotation executor src st
  = (Throw e,
     {| client := setKeyManager (client st) src km1;
        clock := (clock st + elapsed (executor src v))%Z;
        calls := calls st ++ [{| callSource := src;
                                 callKeyIndex := Some (KeyManager.getCurrentKeyIndex km1 src);
                                 callTime := clock st |}] |})
  /\ Pool.pool km1 = Pool.pool km.
Proof.
  intros Hkm Hname Hnext v Hres Hrl. unfold executeWithKeyRotation. rewrite Hkm.
  assert (Hpool : Pool.pool km1 = Pool.pool km /\ 0 < KeyManager.getTotalKeyCount km).
  { unfold KeyManager.getNextKey in Hnext. unfold KeyManager.getTotalKeyCount. rewrite Hname.
    destruct (KeyManager.keys km !! src) as [ks|]; [|discriminate].
    destruct (length ks =? 0) eqn:E; [discriminate|]. apply Nat.eqb_neq in E.
    split; [|lia].
    destruct (KeyManager.getNextKeyLoop _ _ _) as [[j|]|]; try discriminate.
    destruct (ks !! j); [|discriminate]. now injection Hnext as _ <-. }
  destruct Hpool as [Hpool Hpos]. split; [|exact Hpool].
  destruct (KeyManager.getTotalKeyCount km) as [|fuel]; [lia|].
  cbn [keyRotationLoop]. rewrite Hnext. unfold invoke.
  fold (Rotation.viewAt st (Some (KeyManager.getCurrentKeyIndex km1 src))). fold v.
  rewrite Hres, Hrl. reflexivity.
Qed.

(** a projection of the keys that [f] keeps is kept by [updateKey] *)
Lemma updateKey_proj {A : Type} (g : ApiKeyInfo -> A) (km : KeyManager.t) (i : nat)
    (f : ApiKeyInfo -> ApiKeyInfo) :
  (forall k, g (f k) = g k) ->
  g <$> Pool.pool (KeyManager.updateKey km i f) = g <$> Pool.pool km.
Proof.
  intros Hf. rewrite updateKey_pool. destruct (Pool.pool km !! i) as [k|] eqn:E; [|reflexivity].
  rewrite list_fmap_insert, Hf. apply list_insert_id. now rewrite list_lookup_fmap, E.
Qed.

Lemma list_sum_insert (l : list nat) (i x y : nat) :
  l !! i = Some x -> list_sum (<[i := y]> l) + x = list_sum l + y.
Proof.
  revert i. induction l as [|a l IH]; intros [|i] H; try discriminate.
  - injection H as ->. change (y + list_sum l + x = x + list_sum l + y). lia.
  - change (a + list_sum (<[i := y]> l) + x = a + list_sum l + y).
    specialize (IH i H). lia.
Qed.

(** identities, hence indexes, survive the steps of the rotation *)
Lemma indexed_transfer (km km' : KeyManager.t) :
  KeyOps.identity <$> Pool.pool km' = KeyOps.identity <$> Pool.pool km ->
  KeyOps.indexed km -> KeyOps.indexed km'.
Proof.
  intros Hid Hidx i k Hk.
  assert (Hi : (KeyOps.identity <$> Pool.pool km) !! i = Some (KeyOps.identity k)).
  { rewrite <- Hid, list_lookup_fmap, Hk. reflexivity. }
  rewrite list_lookup_fmap in Hi. destruct (Pool.pool km !! i) as [k0|] eqn:E0; [|discriminate].
  injection Hi as _ Hi. rewrite <- Hi. exact (Hidx i k0 E0).
Qed.

(** what [getNextKey] returns for the manager's own provider *)
Lemma getNextKey_found (km km1 : KeyManager.t) (k : ApiKeyInfo) :
  KeyManager.getNextKey km (KeyManager.apiName km) = (KeyFound k, km1) ->
  exists i, km1 = KeyManager.setCurrentIndex km (KeyManager.apiName km) i
            /\ Pool.pool km !! i = Some k.
Proof.
  unfold KeyManager.getNextKey. intros H.
  destruct (KeyManager.keys km !! KeyManager.apiName km) as [ks|] eqn:Hks; [|discriminate].
  rewrite (pool_lookup km ks Hks).
  destruct (length ks =? 0); [discriminate|].
  destruct (KeyManager.getNextKeyLoop _ _ _) as [[j|]|]; try discriminate.
  destruct (ks !! j) as [k'|] eqn:Hj; [|discriminate].
  injection H as <- <-. now exists j.
Qed.

Lemma rotateKey_pool (km : KeyManager.t) :
  Pool.pool (snd (KeyManager.rotateKey km)) = Pool.pool km
  /\ KeyManager.apiName (snd (KeyManager.rotateKey km)) = KeyManager.apiName km.
Proof.
  unfold KeyManager.rotateKey.
  destruct (KeyManager.keys km !! KeyManager.apiName km) as [ks|]; [|now split].
  destruct (length ks <=? 1); [now split|].
  destruct (KeyManager.rotateLoop _ _ _ _); now split.
Qed.

Lemma recordUsage_found (km : KeyManager.t) (now : Z) (i : nat) (k : ApiKeyInfo) :
  Pool.pool km !! i = Some k ->
  KeyOps.totalUsage (KeyManager.recordUsage km now i) = S (KeyOps.totalUsage km).
Proof.
  intros Hk. unfold KeyManager.recordUsage, KeyOps.totalUsage.
  assert (Hi : i < length (Pool.pool km)) by (eapply lookup_lt_Some, Hk).
  destruct (KeyManager.keys km !! KeyManager.apiName km) as [ks|] eqn:Hks.
  2: { rewrite (pool_none km Hks) in Hk. discriminate. }
  rewrite (pool_lookup km ks Hks) in Hk, Hi |- *.
  replace (length ks <=? i) with false by (symmetry; apply Nat.leb_gt; exact Hi).
  rewrite pool_setCurrentIndex, updateKey_pool, (pool_lookup km ks Hks), Hk.
  rewrite list_fmap_insert. cbn.
  pose proof (list_sum_insert (usageCount <$> ks) i (usageCount k) (S (usageCount k))) as Hs.
  rewrite list_lookup_fmap, Hk in Hs. specialize (Hs eq_refl). lia.
Qed.

Lemma keyRotationLoop_usage (executor : SourceExecutor T) (src : ApiSource) (fuel : nat) :
  forall lastError km st r km' st',
    KeyManager.apiName km = src -> KeyOps.indexed km ->
    keyRotationLoop executor src fuel lastError km st = (r, km', st') ->
    KeyOps.totalUsage km' = KeyOps.totalUsage km + Rotation.usageGain r.
Proof.
  induction fuel as [|fuel IH]; intros lastError km st r km' st' Hname Hidx H;
    cbn [keyRotationLoop] in H.
  - injection H as <- <- <-. cbn. lia.
  - destruct (KeyManager.getNextKey km src) as [[keyInfo| |] km1] eqn:Hnext.
    2,3: (assert (km1 = km) as ->
           by (unfold KeyManager.getNextKey in Hnext;
               destruct (KeyManager.keys km !! src) as [ks|]; [|congruence];
               destruct (length ks =? 0); [congruence|];
               destruct (KeyManager.getNextKeyLoop _ _ _) as [[j|]|]; try congruence;
               destruct (ks !! j); congruence);
          injection H as <- <- <-; cbn; lia).
    rewrite <- Hname in Hnext. destruct (getNextKey_found _ _ _ Hnext) as (i & -> & Hk).
    rewrite Hname in *.
    destruct (invoke executor src _ st) as [r1 st1].
    destruct r1 as [v|e].
    + injection H as <- <- <-. rewrite (Hidx i keyInfo Hk).
      rewrite (recordUsage_found _ _ i keyInfo) by exact Hk. cbn.
      unfold KeyOps.totalUsage. rewrite pool_setCurrentIndex. lia.
    + destruct (ErrorDetection.isRateLimitError e).
      * set (km2 := KeyManager.markRateLimit _ _ _) in H.
        assert (H2 : usageCount <$> Pool.pool km2 = usageCount <$> Pool.pool km
                     /\ KeyOps.identity <$> Pool.pool km2 = KeyOps.identity <$> Pool.pool km
                     /\ KeyManager.apiName km2 = src).
        { subst km2. unfold KeyManager.markRateLimit. split; [|split].
          - now rewrite updateKey_proj.
          - now rewrite updateKey_proj.
          - etransitivity; [apply updateKey_frame | exact Hname]. }
        destruct H2 as (U2 & I2 & N2).
        destruct (rotateKey_pool km2) as [P3 N3].
        destruct (KeyManager.rotateKey km2) as [rotated km3]. cbn [snd] in P3, N3.
        destruct rotated; cbn [negb] in H.
        -- assert (N3' : KeyManager.apiName km3 = src) by congruence.
           assert (I3 : KeyOps.indexed km3)
             by (apply (indexed_transfer km); [now rewrite P3 | exact Hidx]).
           rewrite (IH _ _ _ _ _ _ N3' I3 H).
           unfold KeyOps.totalUsage. now rewrite P3, U2.
        -- injection H as <- <- <-. unfold KeyOps.totalUsage. rewrite P3, U2. cbn. lia.
      * injection H as <- <- <-. unfold KeyOps.totalUsage. rewrite pool_setCurrentIndex. cbn. lia.
Qed.

(** X19: the usage counters count the successful calls.  One attempt
    through the key rotation raises the total of the usage counts of the
    provider's pool by exactly one when it returns a result, and leaves
    it unchanged when it fails, however many keys it tried. *)
Theorem usage_counts_successful_calls
    (executor : SourceExecutor T) (src : ApiSource) (st : State) (km : KeyManager.t) :
  Rotation.registered (client st) src km ->
  let run := executeWithKeyRotation executor src st in
  exists km',
    keyManagers (client (snd run)) !! src = Some km'
    /\ KeyOps.totalUsage km' = KeyOps.totalUsage km + Rotation.usageGain (fst run).
Proof.
  intros (Hkm & Hname & Hidx). cbv zeta. unfold executeWithKeyRotation. rewrite Hkm.
  destruct (keyRotationLoop executor src (KeyManager.getTotalKeyCount km) None km st)
    as [[r km'] st'] eqn:E.
  exists km'. cbn [fst snd withClient client]. split.
  - cbn. apply lookup_insert_eq.
  - exact (keyRotationLoop_usage _ _ _ _ _ _ _ _ _ Hname Hidx E).
Qed.

Lemma keyRotationLoop_answer (executor : SourceExecutor T) (src : ApiSource) (fuel : nat) :
  forall lastError km st d km' st',
    keyRotationLoop executor src fuel lastError km st = (Ok d, km', st') ->
    Rotation.answeredBy executor src d
    /\ exists earlier c, calls st' = calls st ++ earlier ++ [c] /\ callSource c = src.
Proof.
  induction fuel as [|fuel IH]; intros lastError km st d km' st' H; cbn [keyRotationLoop] in H;
    [discriminate|].
  destruct (KeyManager.getNextKey km src) as [[keyInfo| |] km1]; [|discriminate|discriminate].
  unfold invoke in H.
  set (v := {| viewKeyIndex := _; viewCallsBefore := _; viewNow := _ |}) in H.
  destruct (res (executor src v)) as [d1|e] eqn:Hres.
  - injection H as <- <- <-. split; [now exists v|].
    exists [], {| callSource := src; callKeyIndex := viewKeyIndex v; callTime := clock st |}.
    split; reflexivity.
  - destruct (ErrorDetection.isRateLimitError e); [|discriminate].
    destruct (KeyManager.rotateKey _) as [rotated km3].
    destruct rotated; cbn [negb] in H; [|discriminate].
    destruct (IH _ _ _ _ _ _ H) as (Hans & earlier & c & Hc & Hsrc).
    split; [exact Hans|]. cbn [calls] in Hc.
    eexists (_ :: earlier), c. split; [rewrite Hc, <- app_assoc; reflexivity | exact Hsrc].
Qed.

Lemma executeWithKeyRotation_answer (executor : SourceExecutor T) (src : ApiSource)
    (st st' : State) (d : T) :
  executeWithKeyRotation executor src st = (Ok d, st') ->
  Rotation.answeredBy executor src d
  /\ exists earlier c, calls st' = calls st ++ earlier ++ [c] /\ callSource c = src.
Proof.
  unfold executeWithKeyRotation. intros H.
  destruct (keyManagers (client st) !! src) as [km|].
  - destruct (keyRotationLoop executor src _ None km st) as [[r km'] st1] eqn:E.
    injection H as -> <-. exact (keyRotationLoop_answer _ _ _ _ _ _ _ _ _ E).
  - unfold invoke in H. injection H as Hres <-. split; [eexists; exact Hres|].
    eexists [], _. split; reflexivity.
Qed.

Lemma cascade_answer (toolName : string) (executor : SourceExecutor T) (t0 : Z)
    (sources : list ApiSource) :
  forall acc st r st',
    cascade toolName executor t0 sources acc st = (Returned r, st') ->
    In (winner r) sources
    /\ Rotation.answeredBy executor (winner r) (data r)
    /\ exists earlier c, calls st' = calls st ++ earlier ++ [c] /\ callSource c = winner r.
Proof.
  induction sources as [|src rest IH]; intros acc st r st' H; cbn [cascade] in H; [discriminate|].
  destruct (isSourceAvailable st src) as [available st1] eqn:Eav.
  destruct (isSourceAvailable_frame _ _ _ _ Eav) as (_ & C1 & _).
  destruct available; cbn [negb] in H.
  - destruct (executeWithKeyRotation executor src st1) as [r1 st2] eqn:Erot.
    destruct r1 as [d|e].
    + injection H as <- <-. cbn [winner data].
      destruct (executeWithKeyRotation_answer _ _ _ _ _ Erot) as (Hans & earlier & c & Hc & Hs).
      split; [now left|]. split; [exact Hans|]. exists earlier, c. split; congruence.
    + destruct (ErrorDetection.shouldFailoverToNextSource e); cbn [negb] in H; [|discriminate].
      destruct (executeWithKeyRotation_frame _ _ _ _ _ Erot) as (_ & mine & C2 & _).
      destruct (IH _ _ _ _ H) as (Hin & Hans & earlier & c & Hc & Hs).
      split; [now right|]. split; [exact Hans|].
      exists (mine ++ earlier), c. split; [|exact Hs].
      rewrite Hc, C2, C1, <- !app_assoc. reflexivity.
  - destruct (IH _ _ _ _ H) as (Hin & Hans & earlier & c & Hc & Hs).
    split; [now right|]. split; [exact Hans|]. exists earlier, c. split; congruence.
Qed.

(** X20: the data a dispatch returns is the winner's own answer.  When
    the dispatch returns, the provider it names as the source is one of
    the providers the router listed, the data is what the executor
    answered for that provider, and the executor call for that provider
    is the last call the dispatch made. *)
Theorem returned_data_is_the_winners_answer
    (router : SourceRouter.t) (st : State) (toolName : string)
    (executor : SourceExecutor T) (symbol : option string) (r : CascadingFailoverResult T) :
  let run := executeWithCascadingFailover router st toolName executor symbol in
  fst run = Returned r ->
  In (winner r) (SourceRouter.getSourcesForTool router toolName symbol)
  /\ Rotation.answeredBy executor (winner r) (data r)
  /\ exists earlier c,
       calls (snd run) = calls st ++ earlier ++ [c] /\ callSource c = winner r.
Proof.
  cbv zeta. unfold executeWithCascadingFailover.
  destruct (cascade toolName executor (clock st) _ [] st) as [d st'] eqn:E.
  cbn [fst snd]. intros ->. exact (cascade_answer _ _ _ _ _ _ _ _ E).
Qed.

(** X21: a provider with a single key that is rate limited is left out
    for the reset window.  The attempt calls the provider once and fails
    with the rate-limit error (there is no key to rotate to); from then
    on [isSourceAvailable] answers false for the provider at every time
    before the end of the window, and true again from that instant. *)
Theorem rate_limited_single_key_provider_is_skipped
    (executor : SourceExecutor T) (src : ApiSource) (st : State) (km : KeyManager.t)
    (k0 : ApiKeyInfo) (e : Thrown) (d : Z) :
  getClientForSource (client st) src = true ->
  keyManagers (client st) !! src = Some km ->
  KeyManager.apiName km = src ->
  KeyManager.keys km !! src = Some [k0] ->
  KeyManager.getCurrentKeyIndex km src = 0 ->
  inCooldown k0 = false ->
  index k0 = 0 ->
  (forall v, executor src v = {| res := Throw e; elapsed := d |}) ->
  ErrorDetection.isRateLimitError e = true ->
  let until := (clock st + d + keyRotationResetWindowMs (KeyManager.config km))%Z in
  until <> 0%Z ->
  let run := executeWithKeyRotation executor src st in
  fst run = Throw e
  /\ length (calls (snd run)) = S (length (calls st))
  /\ forall st2, client st2 = client (snd run) ->
       fst (isSourceAvailable st2 src) = (until <=? clock st2)%Z.
Proof.
  intros Hclient Hkm Hname Hkeys Hidx Hfree Hindex Hexec Hrl until Hnz run.
  assert (Hnext : KeyManager.getNextKey km src
                  = (KeyFound k0, KeyManager.setCurrentIndex km src 0)).
  { unfold KeyManager.getNextKey. rewrite Hkeys. cbn. rewrite Hidx. cbn. now rewrite Hfree. }
  assert (Hcount : KeyManager.getTotalKeyCount km = 1).
  { unfold KeyManager.getTotalKeyCount. now rewrite Hname, Hkeys. }
  set (k1 := {| key := key k0; index := index k0; usageCount := usageCount k0;
                lastUsed := lastUsed k0; inCooldown := true;
                cooldownUntil := Some until; lastRateLimitError := Some (clock st + d)%Z |}).
  set (km2 := KeyManager.markRateLimit (KeyManager.setCurrentIndex km src 0)
                (clock st + d)%Z 0).
  assert (Hkm2 : KeyManager.keys km2 !! src = Some [k1]
                 /\ KeyManager.apiName km2 = src).
  { subst km2. unfold KeyManager.markRateLimit, KeyManager.updateKey.
    cbn [KeyManager.setCurrentIndex KeyManager.apiName KeyManager.keys KeyManager.config].
    rewrite Hname, Hkeys. cbn. rewrite Hname. split; [apply lookup_insert_eq | reflexivity]. }
  destruct Hkm2 as [Hkeys2 Hname2].
  assert (Hrun : run = (Throw e,
                        withClient {| client := client st; clock := (clock st + d)%Z;
                                      calls := calls st ++ [{| callSource := src;
                                                               callKeyIndex := Some 0;
                                                               callTime := clock st |}] |}
                          (setKeyManager (client st) src km2))).
  { subst run. unfold executeWithKeyRotation. rewrite Hkm, Hcount.
    cbn [keyRotationLoop]. rewrite Hnext. unfold invoke. rewrite Hexec. cbn [res elapsed].
    rewrite Hrl. cbn [clock]. rewrite Hindex. fold km2.
    unfold KeyManager.rotateKey. rewrite Hname2, Hkeys2. cbn. unfold KeyManager.getCurrentKeyIndex.
    cbn. rewrite lookup_insert_eq. reflexivity. }
  rewrite Hrun. clearbody km2. cbn [fst snd withClient calls client].
  split; [reflexivity|]. split.
  { rewrite length_app. cbn. lia. }
  intros st2 Hst2. unfold isSourceAvailable. rewrite Hst2.
  assert (Hc2 : getClientForSource (setKeyManager (client st) src km2) src = true)
    by exact Hclient.
  rewrite Hc2. cbn [negb]. cbn [setKeyManager keyManagers]. rewrite lookup_insert_eq.
  unfold KeyManager.hasAvailableKey, KeyManager.checkAndResetCooldowns.
  rewrite Hname2, Hkeys2. cbn [length seq KeyManager.sweep]. rewrite Hname2, Hkeys2.
  change ([k1] !! 0) with (Some k1). cbv beta iota.
  assert (Hex : KeyManager.cooldownExpired (clock st2) k1 = (until <=? clock st2)%Z).
  { unfold KeyManager.cooldownExpired. subst k1. cbn [inCooldown cooldownUntil andb].
    replace (until =? 0)%Z with false by (symmetry; apply Z.eqb_neq; exact Hnz).
    reflexivity. }
  rewrite Hex. cbn [fst]. destruct (until <=? clock st2)%Z.
  - unfold KeyManager.getAvailableKeyCount, KeyManager.resetCooldown, KeyManager.updateKey.
    rewrite Hname2, Hkeys2. change ([k1] !! 0) with (Some k1). cbv beta iota.
    cbn [KeyManager.setKeys KeyManager.keys KeyManager.apiName].
    rewrite Hname2, lookup_insert_eq. reflexivity.
  - unfold KeyManager.getAvailableKeyCount. rewrite Hname2, Hkeys2.
    subst k1. reflexivity.
Qed.

End RotationProperties.

Section RotationRuns.

Import ResilientApiClient.
Local Open Scope list_scope.

Lemma twoKeyClient_registered :
  Rotation.registered
    (client (Scenario.start (Scenario.twoKeyClient true false false DEFAULT_RESILIENCE_CONFIG)))
    "finnhub" twoKeyPool.
Proof.
  split; [vm_compute; reflexivity|]. split; [reflexivity|].
  apply new_indexed.
Qed.

Lemma failure_without_rate_limit_witness :
  let st := Scenario.start (Scenario.twoKeyClient true false false DEFAULT_RESILIENCE_CONFIG) in
  fst (executeWithKeyRotation Scenario.finnhub404 "finnhub" st)
  = Throw (ErrorObj "Finnhub API error: 404 Not Found" None).
Proof.
  cbv zeta.
  refine (f_equal fst (proj1 (failure_without_rate_limit_ends_the_attempt
            Scenario.finnhub404 "finnhub" _ twoKeyPool _ _ _ _ _ _ _ _))).
  - vm_compute. reflexivity.
  - reflexivity.
  - vm_compute. reflexivity.
  - vm_compute. reflexivity.
  - vm_compute. reflexivity.
Defined.

Lemma usage_counts_successful_calls_witness :
  let st := Scenario.start (Scenario.twoKeyClient true false false DEFAULT_RESILIENCE_CONFIG) in
  exists km',
    keyManagers (client (snd (executeWithKeyRotation Scenario.firstKeyLimited "finnhub" st)))
      !! "finnhub" = Some km'
    /\ KeyOps.totalUsage km' = 1%nat.
Proof.
  cbv zeta.
  destruct (usage_counts_successful_calls Scenario.firstKeyLimited "finnhub" _ twoKeyPool
              twoKeyClient_registered) as (km' & H1 & H2).
  exists km'. split; [exact H1|]. rewrite H2. vm_compute. reflexivity.
Defined.

Lemma returned_data_is_the_winners_answer_witness :
  match fst (executeWithCascadingFailover Scenario.router (Scenario.start Scenario.quoteClient)
               "get_stock_quote" Scenario.finnhub500 (Some "AAPL")) with
  | Returned r =>
      winner r = "twelvedata"%string
      /\ Rotation.answeredBy Scenario.finnhub500 (winner r) (data r)
  | _ => False
  end.
Proof.
  destruct (fst (executeWithCascadingFailover Scenario.router
                   (Scenario.start Scenario.quoteClient)
                   "get_stock_quote" Scenario.finnhub500 (Some "AAPL")))
    as [r|e rec|m att] eqn:E.
  - split.
    + vm_compute in E. now injection E as <-.
    + exact (proj1 (proj2 (returned_data_is_the_winners_answer Scenario.router
                             (Scenario.start Scenario.quoteClient) "get_stock_quote"
                             Scenario.finnhub500 (Some "AAPL") r E))).
  - vm_compute in E. discriminate E.
  - vm_compute in E. discriminate E.
Defined.

Lemma rate_limited_single_key_witness :
  let run := executeWithKeyRotation Rotation.alwaysLimited "finnhub"
               (Scenario.start Rotation.oneKeyClient) in
  fst run = Throw (ErrorObj "429 Too Many Requests" None)
  /\ fst (isSourceAvailable (snd run) "finnhub") = false.
Proof.
  cbv zeta.
  pose proof (rate_limited_single_key_provider_is_skipped
                Rotation.alwaysLimited "finnhub" (Scenario.start Rotation.oneKeyClient)
                oneKeyPool (KeyManager.freshKey "k1" 0)
                (ErrorObj "429 Too Many Requests" None) 5) as H.
  cbv zeta in H. destruct H as (H1 & _ & H3).
  - reflexivity.
  - vm_compute. reflexivity.
  - reflexivity.
  - vm_compute. reflexivity.
  - reflexivity.
  - reflexivity.
  - reflexivity.
  - reflexivity.
  - vm_compute. reflexivity.
  - vm_compute. discriminate.
  - split; [exact H1|]. rewrite (H3 _ eq_refl). vm_compute. reflexivity.
Defined.

End RotationRuns.

(** ** The data methods: what the providers can and cannot serve *)

Section FacadeProperties.

Context {T : Type}.

Import ResilientApiClient.
Local Open Scope list_scope.

Lemma A_share_cover (symbol : string) :
  MarketRouting.isChineseAShare symbol = true ->
  Js.truthy symbol = true
  /\ SourceRouter.MARKET_SOURCE_FILTER (MarketRouter.getMarketFromSymbol symbol)
     = ["sina"; "eastmoney"]%string.
Proof.
  unfold MarketRouting.isChineseAShare. intros H. split.
  - destruct symbol; [vm_compute in H; discriminate | reflexivity].
  - destruct (MarketRouter.getMarketFromSymbol symbol); try discriminate; reflexivity.
Qed.

(** the providers the router lists for an A-share symbol *)
Lemma A_share_sources (router : SourceRouter.t) (toolName symbol : string) :
  MarketRouting.isChineseAShare symbol = true ->
  let sources := SourceRouter.getSourcesForTool router toolName (Some symbol) in
  sources <> []
  /\ Forall (fun s => s = "sina"%string \/ s = "eastmoney"%string) sources.
Proof.
  intros Ha. destruct (A_share_cover symbol Ha) as [Ht Hc]. cbv zeta.
  unfold SourceRouter.getSourcesForTool. rewrite Ht, Hc. cbv zeta.
  destruct (List.filter _ _) as [|p l] eqn:E; cbn [length Nat.eqb].
  - split; [discriminate|].
    constructor; [now left|]. constructor; [now right|]. constructor.
  - split; [discriminate|]. rewrite <- E. apply List.Forall_forall. intros s Hs.
    apply List.filter_In in Hs as [_ Hs]. apply includesStr_In in Hs.
    destruct Hs as [<-|[<-|[]]]; [now left | now right].
Qed.

Lemma keyedOnly_refused (c : t) (src : ApiSource) (x : Facade.ExecutorName) :
  Facade.keyedOnly x = true ->
  src = "sina"%string \/ src = "eastmoney"%string ->
  Facade.resolve c src x = None.
Proof.
  intros Hx [-> | ->]; destruct x; try discriminate Hx;
    unfold Facade.resolve, Facade.clientHas; cbn; reflexivity.
Qed.

Lemma createExecutor_refused (c : t) (api : Facade.Providers T) (x : Facade.ExecutorName)
    (src : ApiSource) :
  Facade.keyedOnly x = true ->
  src = "sina"%string \/ src = "eastmoney"%string ->
  forall v, Facade.createExecutor c api x src v
            = {| res := Throw (Facade.unsupported src x); elapsed := 0 |}.
Proof.
  intros Hx Hsrc v. unfold Facade.createExecutor. now rewrite (keyedOnly_refused c src x Hx Hsrc).
Qed.

(** the dispatch loop over providers that all lack the method *)
Lemma cascade_refused (c : t) (api : Facade.Providers T) (x : Facade.ExecutorName)
    (t0 : Z) (sources : list ApiSource) :
  Facade.keyedOnly x = true ->
  Forall (fun s => s = "sina"%string \/ s = "eastmoney"%string) sources ->
  forall acc st,
    Facade.keyless (client st) ->
    exists fresh st',
      cascade (Facade.toolName x) (Facade.createExecutor c api x) t0 sources acc st
      = (AggregateThrown (aggregateMessage (Facade.toolName x) (acc ++ fresh)) (acc ++ fresh), st')
      /\ map source fresh = sources
      /\ Forall (Facade.refused x) fresh
      /\ clock st' = clock st.
Proof.
  intros Hx Hall. induction Hall as [|src rest Hsrc Hrest IH]; intros acc st Hkl.
  - exists [], st. rewrite app_nil_r. repeat split. constructor.
  - cbn [cascade].
    assert (Hav : isSourceAvailable st src = (true, st)).
    { unfold isSourceAvailable. destruct Hkl as [Hs He].
      destruct Hsrc as [-> | ->]; cbn; [now rewrite Hs | now rewrite He]. }
    rewrite Hav. cbn [negb].
    assert (Hnone : keyManagers (client st) !! src = None)
      by (destruct Hkl as [Hs He]; destruct Hsrc as [-> | ->]; assumption).
    rewrite Hnone. unfold executeWithKeyRotation. rewrite Hnone. unfold invoke.
    rewrite !(createExecutor_refused c api x src Hx Hsrc). cbn [res elapsed clock].
    rewrite (every_Error_fails_over (Facade.unsupported src x) eq_refl). cbn [negb].
    match goal with
    | |- context [cascade _ _ _ rest ?acc' ?st1] =>
        destruct (IH acc' st1 Hkl) as (fresh & st' & Hrun & Hsrcs & Hall' & Hclock)
    end.
    rewrite Hrun. eexists (_ :: fresh), st'. rewrite <- !app_assoc. cbn [app].
    split; [reflexivity|]. split; [cbn; now rewrite Hsrcs|]. split.
    + constructor; [|exact Hall']. unfold Facade.refused. cbn.
      repeat split; [f_equal; lia | exact Hsrc].
    + rewrite Hclock. cbn. lia.
Qed.

(** ... and the loop does not depend on what the providers would answer *)
Lemma cascade_refused_whatever (c : t) (api api' : Facade.Providers T)
    (x : Facade.ExecutorName) (t0 : Z) (sources : list ApiSource) :
  Facade.keyedOnly x = true ->
  Forall (fun s => s = "sina"%string \/ s = "eastmoney"%string) sources ->
  forall acc st,
    Facade.keyless (client st) ->
    cascade (Facade.toolName x) (Facade.createExecutor c api x) t0 sources acc st
    = cascade (Facade.toolName x) (Facade.createExecutor c api' x) t0 sources acc st.
Proof.
  intros Hx Hall. induction Hall as [|src rest Hsrc Hrest IH]; intros acc st Hkl; [reflexivity|].
  cbn [cascade].
  assert (Hav : isSourceAvailable st src = (true, st)).
  { unfold isSourceAvailable. destruct Hkl as [Hs He].
    destruct Hsrc as [-> | ->]; cbn; [now rewrite Hs | now rewrite He]. }
  rewrite Hav. cbn [negb].
  assert (Hnone : keyManagers (client st) !! src = None)
    by (destruct Hkl as [Hs He]; destruct Hsrc as [-> | ->]; assumption).
  rewrite Hnone. unfold executeWithKeyRotation. rewrite Hnone. unfold invoke.
  rewrite !(createExecutor_refused c api x src Hx Hsrc),
    !(createExecutor_refused c api' x src Hx Hsrc). cbn [res elapsed clock].
  rewrite (every_Error_fails_over (Facade.unsupported src x) eq_refl). cbn [negb].
  apply IH. exact Hkl.
Qed.

(** X22: a request for news, a company overview or a technical indicator
    on an A-share symbol can never be served.  The router sends an
    A-share symbol to Sina and East Money only, whatever the priorities,
    and neither client has the method: every attempt fails on the spot
    with [does not support], no time passes, and the data method throws
    the aggregate error, whatever the providers would answer. *)
Theorem A_share_requests_beyond_prices_always_fail
    (router : SourceRouter.t) (st : State) (api : Facade.Providers T)
    (x : Facade.ExecutorName) (symbol : string) :
  Facade.keyedOnly x = true ->
  Facade.keyless (client st) ->
  MarketRouting.isChineseAShare symbol = true ->
  let run := Facade.dispatchVia router st api x symbol in
  (exists attached,
     fst run = AggregateThrown (aggregateMessage (Facade.toolName x) attached) attached
     /\ attached <> []
     /\ Forall (Facade.refused x) attached)
  /\ clock (snd run) = clock st
  /\ forall api' : Facade.Providers T, Facade.dispatchVia router st api' x symbol = run.
Proof.
  intros Hx Hkl Ha run. subst run. unfold Facade.dispatchVia, executeWithCascadingFailover.
  destruct (A_share_sources router (Facade.toolName x) symbol Ha) as [Hne Hall].
  destruct (cascade_refused (client st) api x (clock st) _ Hx Hall [] st Hkl)
    as (fresh & st' & Hrun & Hsrcs & Hall' & Hclock).
  cbn [app] in Hrun. split; [|split].
  - exists fresh. rewrite Hrun. cbn [fst]. split; [reflexivity|]. split; [|exact Hall'].
    intros ->. cbn in Hsrcs. now apply Hne.
  - rewrite Hrun. exact Hclock.
  - intros api'. now apply cascade_refused_whatever.
Qed.

(** X23: the data a data method returns is the answer of a method the
    winning provider's client really has: the executor never fabricates a
    result.  In particular TwelveData, which the priority list of
    [get_daily_prices] names but whose client has no [getDailyPrices],
    never serves daily prices, and Sina and East Money never serve news,
    company overviews or technical indicators. *)
Theorem returned_data_comes_from_a_provider_method
    (router : SourceRouter.t) (st : State) (api : Facade.Providers T)
    (x : Facade.ExecutorName) (symbol : string) (r : CascadingFailoverResult T) :
  fst (Facade.dispatchVia router st api x symbol) = Returned r ->
  (exists m v, Facade.resolve (client st) (winner r) x = Some m
               /\ res (api (winner r) m v) = Ok (data r))
  /\ (x = Facade.get_daily_prices -> winner r <> "twelvedata"%string)
  /\ (Facade.keyedOnly x = true ->
        winner r <> "sina"%string /\ winner r <> "eastmoney"%string).
Proof.
  unfold Facade.dispatchVia, executeWithCascadingFailover. intros H.
  destruct (cascade _ _ _ _ _ _) as [d st'] eqn:E. cbn [fst] in H. subst d.
  destruct (cascade_answer _ _ _ _ _ _ _ _ E) as (_ & [v Hv] & _).
  unfold Facade.createExecutor in Hv.
  destruct (Facade.resolve (client st) (winner r) x) as [m|] eqn:Hm; [|discriminate].
  split; [now exists m, v|]. split.
  - intros -> Hw. rewrite Hw in Hm. unfold Facade.resolve, Facade.clientHas in Hm.
    cbn in Hm. rewrite andb_false_r in Hm. discriminate.
  - intros Hx. split; intros Hw;
      rewrite (keyedOnly_refused (client st) (winner r) x Hx) in Hm; try discriminate; auto.
Qed.

(** a key manager of another source is not touched by an attempt *)
Lemma executeWithKeyRotation_others (executor : SourceExecutor T) (s src : ApiSource)
    (st st' : State) (r : Result T) :
  s <> src ->
  executeWithKeyRotation executor s st = (r, st') ->
  keyManagers (client st') !! src = keyManagers (client st) !! src.
Proof.
  unfold executeWithKeyRotation. intros Hne H.
  destruct (keyManagers (client st) !! s) as [km|].
  - destruct (keyRotationLoop executor s _ None km st) as [[r1 km'] st1] eqn:E.
    injection H as _ <-. destruct (keyRotationLoop_frame _ _ _ _ _ _ _ _ _ E) as [Hc _].
    cbn. rewrite lookup_insert_ne by exact Hne. now rewrite Hc.
  - unfold invoke in H. now injection H as _ <-.
Qed.

Lemma keyCounts (km : KeyManager.t) :
  KeyManager.getTotalKeyCount km = length (Pool.pool km)
  /\ (KeyManager.getAvailableKeyCount km <= length (Pool.pool km))%nat.
Proof.
  unfold KeyManager.getTotalKeyCount, KeyManager.getAvailableKeyCount, Pool.pool,
    KeyManager.getKeyInfo.
  destruct (KeyManager.keys km !! KeyManager.apiName km) as [ks|]; cbn; [|split; [reflexivity|lia]].
  split; [reflexivity | apply List.filter_length_le].
Qed.

(** a provider whose pool is empty is not available, and stays so *)
Lemma isSourceAvailable_empty_pool (st : State) (src : ApiSource) (km : KeyManager.t) :
  keyManagers (client st) !! src = Some km ->
  KeyManager.getTotalKeyCount km = 0%nat ->
  exists st1 km1,
    isSourceAvailable st src = (false, st1)
    /\ keyManagers (client st1) !! src = Some km1
    /\ KeyManager.getTotalKeyCount km1 = 0%nat.
Proof.
  intros Hkm Hzero. unfold isSourceAvailable.
  destruct (negb (getClientForSource (client st) src)); [now exists st, km|].
  rewrite Hkm. unfold KeyManager.hasAvailableKey.
  destruct (checkAndResetCooldowns_spec km (clock st)) as (_ & _ & Hlen & _ & _).
  destruct (keyCounts km) as [Ht _]. destruct (keyCounts (KeyManager.checkAndResetCooldowns km (clock st)))
    as [Ht' Ha'].
  eexists _, _. split.
  { f_equal. apply Nat.ltb_ge. lia. }
  split; [cbn; apply lookup_insert_eq | lia].
Qed.

Lemma isSourceAvailable_others (st st1 : State) (s src : ApiSource) (b : bool) :
  s <> src ->
  isSourceAvailable st s = (b, st1) ->
  keyManagers (client st1) !! src = keyManagers (client st) !! src.
Proof.
  unfold isSourceAvailable. intros Hne H.
  destruct (negb (getClientForSource (client st) s)); [now injection H as _ <-|].
  destruct (keyManagers (client st) !! s) as [km|]; [|now injection H as _ <-].
  destruct (KeyManager.hasAvailableKey km (clock st)) as [b' km'].
  injection H as _ <-. cbn. now rewrite lookup_insert_ne.
Qed.

Lemma cascade_skips_empty_pool (toolName : string) (executor : SourceExecutor T) (t0 : Z)
    (src : ApiSource) (sources : list ApiSource) :
  forall acc st km,
    keyManagers (client st) !! src = Some km ->
    KeyManager.getTotalKeyCount km = 0%nat ->
    let run := cascade toolName executor t0 sources acc st in
    exists fresh newcalls,
      recordedAttempts (fst run) = acc ++ fresh
      /\ Forall (fun a => source a <> src) fresh
      /\ calls (snd run) = calls st ++ newcalls
      /\ Forall (fun c => callSource c <> src) newcalls.
Proof.
  induction sources as [|s rest IH]; intros acc st km Hkm Hzero; cbv zeta.
  - cbn. exists [], []. rewrite !app_nil_r. repeat split; constructor.
  - cbn [cascade]. destruct (decide (s = src)) as [->|Hne].
    + destruct (isSourceAvailable_empty_pool st src km Hkm Hzero)
        as (st1 & km1 & Hav & Hkm1 & Hz1).
      rewrite Hav. cbn [negb].
      destruct (isSourceAvailable_frame _ _ _ _ Hav) as (_ & C1 & _).
      destruct (IH acc st1 km1 Hkm1 Hz1) as (fresh & newcalls & H1 & H2 & H3 & H4).
      exists fresh, newcalls. repeat split; try assumption. congruence.
    + destruct (isSourceAvailable st s) as [available st1] eqn:Eav.
      destruct (isSourceAvailable_frame _ _ _ _ Eav) as (_ & C1 & _).
      pose proof (isSourceAvailable_others _ _ _ _ _ Hne Eav) as K1.
      destruct available; cbn [negb].
      * destruct (executeWithKeyRotation executor s st1) as [r st2] eqn:Erot.
        destruct (executeWithKeyRotation_frame _ _ _ _ _ Erot) as (_ & mine & C2 & Hmine).
        pose proof (executeWithKeyRotation_others _ _ _ _ _ _ Hne Erot) as K2.
        assert (Hmine' : Forall (fun c => callSource c <> src) mine).
        { eapply Forall_impl; [exact Hmine|]. cbn. intros c ->. exact Hne. }
        destruct r as [d|e].
        -- cbn. eexists [_], mine. repeat split; [|congruence|exact Hmine'].
           constructor; [exact Hne | constructor].
        -- destruct (ErrorDetection.shouldFailoverToNextSource e); cbn [negb].
           ++ rewrite <- K1, <- K2 in Hkm.
              match goal with
              | |- context [cascade _ _ _ rest ?acc' st2] =>
                  destruct (IH acc' st2 km Hkm Hzero) as (fresh & more & H1 & H2 & H3 & H4)
              end.
              eexists (_ :: fresh), (mine ++ more).
              split; [rewrite H1, <- app_assoc; reflexivity|].
              split; [constructor; [exact Hne | exact H2]|].
              split; [rewrite H3, C2, C1, app_assoc; reflexivity|].
              apply Forall_app. now split.
           ++ cbn. eexists [_], mine. repeat split; [|congruence|exact Hmine'].
              constructor; [exact Hne | constructor].
      * rewrite <- K1 in Hkm.
        destruct (IH acc st1 km Hkm Hzero) as (fresh & newcalls & H1 & H2 & H3 & H4).
        exists fresh, newcalls. repeat split; try assumption. congruence.
Qed.

(** X25: a provider whose key pool is empty is never contacted.  A keyed
    provider whose key variable is not set still has a client and a key
    manager, but its pool holds no key: every dispatch skips it, records
    no attempt for it and never calls the executor for it. *)
Theorem provider_without_keys_is_never_called
    (router : SourceRouter.t) (st : State) (toolName : string)
    (executor : SourceExecutor T) (symbol : option string)
    (src : ApiSource) (km : KeyManager.t) :
  keyManagers (client st) !! src = Some km ->
  KeyManager.getTotalKeyCount km = 0%nat ->
  let run := executeWithCascadingFailover router st toolName executor symbol in
  Forall (fun a => source a <> src) (recordedAttempts (fst run))
  /\ exists newcalls,
       calls (snd run) = calls st ++ newcalls
       /\ Forall (fun c => callSource c <> src) newcalls.
Proof.
  intros Hkm Hzero run. subst run. unfold executeWithCascadingFailover.
  destruct (cascade_skips_empty_pool toolName executor (clock st) src
              (SourceRouter.getSourcesForTool router toolName symbol) [] st km Hkm Hzero)
    as (fresh & newcalls & H1 & H2 & H3 & H4).
  cbn [app] in H1. rewrite H1. split; [exact H2|]. now exists newcalls.
Qed.

End FacadeProperties.

Section FacadeRuns.

Import ResilientApiClient.
Local Open Scope list_scope.

(** X24: the default priority lists against the clients.  With every
    provider configured, each provider that the default priority list of
    a tool names can serve the tool through its client, with one
    exception: the list of [get_daily_prices] names TwelveData, whose
    client has no such method, so that attempt always fails on the
    spot. *)
Theorem default_routes_match_client_methods (x : Facade.ExecutorName) (src : ApiSource) :
  In src (SourceRouter.getDefaultSources (Facade.toolName x)) ->
  (Facade.resolve Facade.fullClient src x = None
   <-> x = Facade.get_daily_prices /\ src = "twelvedata"%string).
Proof.
  destruct x; cbn [Facade.toolName]; intros Hin; vm_compute in Hin;
    repeat (destruct Hin as [<-|Hin]; [vm_compute; split; [intros H | intros [H1 H2]];
                                      try discriminate; try (split; reflexivity)|]);
    destruct Hin.
Qed.

Lemma default_routes_match_client_methods_witness :
  In "twelvedata"%string (SourceRouter.getDefaultSources "get_daily_prices")
  /\ Facade.resolve Facade.fullClient "twelvedata" Facade.get_daily_prices = None.
Proof.
  assert (H : In "twelvedata"%string (SourceRouter.getDefaultSources "get_daily_prices"))
    by (vm_compute; tauto).
  split; [exact H|].
  apply (default_routes_match_client_methods Facade.get_daily_prices "twelvedata" H).
  split; reflexivity.
Defined.

Lemma fullClient_keyless : Facade.keyless Facade.fullClient.
Proof. split; vm_compute; reflexivity. Qed.

Lemma A_share_requests_beyond_prices_witness :
  exists attached,
    fst (Facade.getTechnicalIndicator Scenario.router (Scenario.start Facade.fullClient)
           Facade.allServe "601899.SH")
    = AggregateThrown
        "All sources failed for get_technical_indicator: sina does not support get_technical_indicator, eastmoney does not support get_technical_indicator"
        attached
    /\ Forall (Facade.refused Facade.get_technical_indicator) attached.
Proof.
  destruct (A_share_requests_beyond_prices_always_fail Scenario.router
              (Scenario.start Facade.fullClient) Facade.allServe
              Facade.get_technical_indicator "601899.SH" eq_refl fullClient_keyless)
    as ((attached & Hrun & _ & Hall) & _).
  - vm_compute. reflexivity.
  - exists attached. split; [|exact Hall].
    unfold Facade.getTechnicalIndicator. rewrite Hrun. vm_compute in Hrun.
    injection Hrun as Hm Ha. rewrite <- Ha. vm_compute. reflexivity.
Defined.

Lemma returned_data_comes_from_a_provider_method_witness :
  match fst (Facade.getDailyPrices Scenario.router (Scenario.start Facade.fullClient)
               Facade.allServe "AAPL") with
  | Returned r => winner r = "tiingo"%string /\ winner r <> "twelvedata"%string
  | _ => False
  end.
Proof.
  destruct (fst (Facade.getDailyPrices Scenario.router (Scenario.start Facade.fullClient)
                   Facade.allServe "AAPL")) as [r|e rec|m att] eqn:E.
  - split.
    + vm_compute in E. now injection E as <-.
    + exact (proj1 (proj2 (returned_data_comes_from_a_provider_method Scenario.router
                             (Scenario.start Facade.fullClient) Facade.allServe
                             Facade.get_daily_prices "AAPL" r E)) eq_refl).
  - vm_compute in E. discriminate E.
  - vm_compute in E. discriminate E.
Defined.

Lemma provider_without_keys_witness :
  let run := executeWithCascadingFailover Scenario.router (Scenario.start Scenario.quoteClient)
               "get_stock_quote" Facade.noneAnswers (Some "AAPL") in
  In "alphavantage"%string
    (SourceRouter.getSourcesForTool Scenario.router "get_stock_quote" (Some "AAPL"))
  /\ map source (recordedAttempts (fst run)) = ["finnhub"; "twelvedata"]%string
  /\ Forall (fun a => source a <> "alphavantage"%string) (recordedAttempts (fst run)).
Proof.
  cbv zeta. split; [vm_compute; tauto|]. split; [vm_compute; reflexivity|].
  refine (proj1 (provider_without_keys_is_never_called Scenario.router
                   (Scenario.start Scenario.quoteClient) "get_stock_quote" Facade.noneAnswers
                   (Some "AAPL") "alphavantage"
                   (KeyManager.new Scenario.quoteEnv "alphavantage" DEFAULT_RESILIENCE_CONFIG)
                   _ _)).
  - vm_compute. reflexivity.
  - vm_compute. reflexivity.
Defined.

End FacadeRuns.

(** ** The retry loop *)

Section RetryProperties.

Context {T : Type}.

Import Retry.
Local Open Scope list_scope.

Variables (env : Env) (fn : AsyncFn T) (config : ResilienceConfig).

Lemma last_after {A} (x : A) (l : list A) : l <> [] -> last (x :: l) = last l.
Proof.
  intros Hl. rewrite last_cons. destruct l as [|y l]; [congruence|].
  destruct (last (y :: l)) eqn:E; [reflexivity|].
  apply last_None in E. discriminate.
Qed.

(** The trace of the loop from attempt [attempt] on: the calls it makes,
    the delays it waits and how it ends. *)
Lemma loop_trace (remaining : nat) : forall attempt now started waited,
  Z.of_nat remaining + attempt = retryMaxAttempts config ->
  let r := loop env fn config remaining attempt now started waited in
  exists calls ws,
    startedAt r = started ++ calls /\ waits r = waited ++ ws
    /\ (length calls <= remaining)%nat
    /\ ((1 <= remaining)%nat -> calls <> [])
    /\ length ws = pred (length calls)
    /\ (forall t, In t (removelast calls) -> failsRetryably fn t)
    /\ Forall (fun w => exists a, attempt <= a < retryMaxAttempts config - 1
                                  /\ w = delayAfter env config a) ws
    /\ match outcome r with
       | Ok v => exists t, last calls = Some t /\ res (fn t) = Ok v
       | Throw e =>
           match cause r with
           | None =>
               (calls = [] /\ e = internalError)
               \/ (exists t, last calls = Some t /\ res (fn t) = Throw e
                             /\ isRetryableError e = false)
           | Some c =>
               exists t, last calls = Some t /\ res (fn t) = Throw c
                         /\ isRetryableError c = true
                         /\ e = RetryError (retryMaxAttempts config) (retryMaxAttempts config) 0
                         /\ length calls = remaining
           end
       end.
Proof.
  induction remaining as [|remaining' IH]; intros attempt now started waited Hmax r.
  - exists [], []. subst r. cbn. rewrite !app_nil_r.
    refine (conj eq_refl (conj eq_refl (conj _ (conj _ (conj eq_refl (conj _ (conj _ _))))))).
    + lia.
    + intros H. lia.
    + intros t [].
    + constructor.
    + left. split; reflexivity.
  - subst r. cbn [loop]. cbv zeta.
    destruct (res (fn now)) as [v|error] eqn:Eres.
    { exists [now], []. cbn. rewrite app_nil_r.
      refine (conj eq_refl (conj eq_refl (conj _ (conj _ (conj eq_refl (conj _ (conj _ _))))))).
      - lia.
      - intros _. discriminate.
      - intros t [].
      - constructor.
      - exists now. split; [reflexivity | exact Eres]. }
    destruct (isRetryableError error) eqn:Eretry; cbn [negb].
    2:{ exists [now], []. cbn. rewrite app_nil_r.
      refine (conj eq_refl (conj eq_refl (conj _ (conj _ (conj eq_refl (conj _ (conj _ _))))))).
      - lia.
      - intros _. discriminate.
      - intros t [].
      - constructor.
      - right. exists now. split; [reflexivity|]. split; [exact Eres | exact Eretry]. }
    destruct (attempt =? retryMaxAttempts config - 1) eqn:Elast.
    { apply Z.eqb_eq in Elast.
      assert (Hone : remaining' = O) by lia. subst remaining'.
      exists [now], []. cbn. rewrite app_nil_r.
      refine (conj eq_refl (conj eq_refl (conj _ (conj _ (conj eq_refl (conj _ (conj _ _))))))).
      - lia.
      - intros _. discriminate.
      - intros t [].
      - constructor.
      - exists now. split; [reflexivity|]. split; [exact Eres|]. split; [exact Eretry|].
        split; [|reflexivity]. replace (attempt + 1) with (retryMaxAttempts config) by lia.
        reflexivity. }
    apply Z.eqb_neq in Elast.
    assert (Hmore : (1 <= remaining')%nat) by lia.
    fold (delayAfter env config attempt).
    destruct (IH (attempt + 1) (now + elapsed (fn now) + timer env (delayAfter env config attempt))
                (started ++ [now]) (waited ++ [delayAfter env config attempt]))
      as (calls & ws & Hc & Hw & Hlen & Hne & Hws & Hfail & Hdel & Hend); [lia|].
    specialize (Hne Hmore).
    exists (now :: calls), (delayAfter env config attempt :: ws).
    refine (conj _ (conj _ (conj _ (conj _ (conj _ (conj _ (conj _ _))))))).
    + rewrite Hc, <- app_assoc. reflexivity.
    + rewrite Hw, <- app_assoc. reflexivity.
    + cbn. lia.
    + intros _. discriminate.
    + cbn. rewrite Hws. destruct calls; [congruence|]. reflexivity.
    + intros t Ht. destruct calls as [|c calls']; [congruence|].
      change (removelast (now :: c :: calls')) with (now :: removelast (c :: calls')) in Ht.
      destruct Ht as [<-|Ht]; [|exact (Hfail t Ht)].
      exists error. split; [exact Eres | exact Eretry].
    + constructor.
      * exists attempt. split; [lia | reflexivity].
      * eapply Forall_impl; [exact Hdel|]. cbn. intros w (a & Ha & ->).
        exists a. split; [lia | reflexivity].
    + rewrite (last_after now calls Hne).
      destruct (outcome _) as [v|e]; [exact Hend|].
      destruct (cause _) as [c|].
      * destruct Hend as (t & H1 & H2 & H3 & H4 & H5). exists t.
        repeat (split; [assumption|]). cbn. lia.
      * destruct Hend as [[Hnil _]|Hend]; [congruence|]. right. exact Hend.
Qed.

(** a loop with at least one iteration calls [fn] *)
Lemma loop_calls (remaining : nat) (attempt now : Z) :
  Z.of_nat (S remaining) + attempt = retryMaxAttempts config ->
  startedAt (loop env fn config (S remaining) attempt now [] []) <> [].
Proof.
  intros Hmax.
  destruct (loop_trace (S remaining) attempt now [] [] Hmax)
    as (calls & ws & Hc & _ & _ & Hne & _).
  cbv zeta in Hc. rewrite Hc. cbn. apply Hne. lia.
Qed.

(** X26: When retrying is enabled with at least one attempt and every call
    fails with a retryable error, [withRetry] calls the function exactly
    [retryMaxAttempts] times, waits between consecutive calls only, and
    rejects with a [RetryError] whose message counts the attempts and names
    a delay of 0 ms; the error of the last call is kept as its [cause], not
    in the message. *)
Theorem retry_gives_up_after_max_attempts (now : Z) :
  retryEnabled config = true ->
  1 <= retryMaxAttempts config ->
  (forall t, failsRetryably fn t) ->
  let r := withRetry env fn config now in
  length (startedAt r) = Z.to_nat (retryMaxAttempts config)
  /\ length (waits r) = pred (Z.to_nat (retryMaxAttempts config))
  /\ outcome r = Throw (RetryError (retryMaxAttempts config) (retryMaxAttempts config) 0)
  /\ exists t error, last (startedAt r) = Some t /\ res (fn t) = Throw error
                     /\ cause r = Some error.
Proof.
  intros Hon Hmax Hall r. subst r. unfold withRetry. rewrite Hon. cbn [negb].
  destruct (loop_trace (Z.to_nat (retryMaxAttempts config)) 0 now [] [])
    as (calls & ws & Hc & Hw & Hlen & Hne & Hws & _ & _ & Hend); [lia|].
  cbv zeta in *. cbn [app] in Hc, Hw. rewrite Hc, Hw.
  assert (Hnonempty : calls <> []) by (apply Hne; lia).
  destruct (outcome _) as [v|e].
  { destruct Hend as (t & _ & Ht). destruct (Hall t) as (error & Herr & _). congruence. }
  destruct (cause _) as [c|].
  - destruct Hend as (t & Hlast & Hres & _ & -> & Hn).
    rewrite Hws, Hn. repeat split. exists t, c. repeat split; assumption.
  - destruct Hend as [[Hnil _]|(t & _ & Hres & Hno)]; [congruence|].
    destruct (Hall t) as (error & Herr & Hyes). congruence.
Qed.

(** X27: With retrying enabled, [withRetry] never calls the function more
    than [retryMaxAttempts] times and waits once between consecutive
    calls; every call but the last failed with a retryable error; a
    returned value is the value of the last call; a rejection is either
    the error of the last call, which was not retryable, or a
    [RetryError] after [retryMaxAttempts] calls whose cause is the
    retryable error of the last call, or, when no call was made, the
    internal error. *)
Theorem retry_stops_at_the_first_final_answer (now : Z) :
  retryEnabled config = true ->
  let r := withRetry env fn config now in
  (length (startedAt r) <= Z.to_nat (retryMaxAttempts config))%nat
  /\ length (waits r) = pred (length (startedAt r))
  /\ (forall t, In t (removelast (startedAt r)) -> failsRetryably fn t)
  /\ match outcome r with
     | Ok v => exists t, last (startedAt r) = Some t /\ res (fn t) = Ok v
     | Throw e =>
         match cause r with
         | None =>
             (startedAt r = [] /\ e = internalError)
             \/ (exists t, last (startedAt r) = Some t /\ res (fn t) = Throw e
                           /\ isRetryableError e = false)
         | Some c =>
             exists t, last (startedAt r) = Some t /\ res (fn t) = Throw c
                       /\ isRetryableError c = true
                       /\ e = RetryError (retryMaxAttempts config) (retryMaxAttempts config) 0
                       /\ length (startedAt r) = Z.to_nat (retryMaxAttempts config)
         end
     end.
Proof.
  intros Hon r. subst r. unfold withRetry. rewrite Hon. cbn [negb].
  destruct (Z_le_gt_dec (retryMaxAttempts config) 0) as [Hzero|Hpos].
  - replace (Z.to_nat (retryMaxAttempts config)) with O by lia. cbn.
    split; [lia|]. split; [reflexivity|]. split; [intros t []|].
    left. split; reflexivity.
  - destruct (loop_trace (Z.to_nat (retryMaxAttempts config)) 0 now [] [])
      as (calls & ws & Hc & Hw & Hlen & _ & Hws & Hfail & _ & Hend); [lia|].
    cbv zeta in *. cbn [app] in Hc, Hw. rewrite Hc, Hw.
    split; [exact Hlen|]. split; [exact Hws|]. split; [exact Hfail|]. exact Hend.
Qed.

(** X28: for a whole-number [retryMaxAttempts], [withRetry] makes no call
    at all exactly when retrying is enabled and [retryMaxAttempts] is zero
    or negative; the promise is then rejected at once with the internal
    error "Retry logic failed - should not reach here".  With retrying
    disabled the function is called once whatever [retryMaxAttempts]
    is. *)
Theorem retry_without_attempts_never_calls (now : Z) :
  let r := withRetry env fn config now in
  (startedAt r = [] <-> retryEnabled config = true /\ retryMaxAttempts config <= 0)
  /\ (startedAt r = [] -> outcome r = Throw internalError /\ settledAt r = now)
  /\ (retryEnabled config = false ->
      startedAt r = [now] /\ outcome r = res (fn now) /\ waits r = []).
Proof.
  intros r. subst r. unfold withRetry.
  destruct (retryEnabled config) eqn:Hon; cbn [negb].
  - destruct (Z_le_gt_dec (retryMaxAttempts config) 0) as [Hzero|Hpos].
    + replace (Z.to_nat (retryMaxAttempts config)) with O by lia. cbn.
      split; [|split].
      * split; [intros _; split; [reflexivity | exact Hzero] | reflexivity].
      * intros _. split; reflexivity.
      * discriminate.
    + destruct (Z.to_nat (retryMaxAttempts config)) as [|n] eqn:En; [lia|].
      assert (Hcalls := loop_calls n 0 now). rewrite <- En in Hcalls.
      rewrite <- En. split; [|split].
      * split; [intros H; exfalso; apply Hcalls; [lia | exact H] | intros [_ H]; lia].
      * intros H. exfalso. apply Hcalls; [lia | exact H].
      * discriminate.
  - cbn. split; [|split].
    + split; [discriminate | intros [H _]; discriminate].
    + discriminate.
    + intros _. repeat split.
Qed.

Lemma base_delay_finite (initial a : Z) :
  0 <= initial -> 0 <= a < 1024 -> initial * 2 ^ a < 2 ^ 1024 ->
  Num.mul (Fin (inject_Z initial)) (Num.pow2 a)
  = Fin (inject_Z initial * Qpower 2 a)%Q.
Proof.
  intros Hi Ha Hfin.
  assert (Hpow : (Qpower 2 a == inject_Z (2 ^ a))%Q).
  { symmetry. apply (Zpower_Qpower 2 a). lia. }
  assert (Hpos : (0 < 2 ^ a)%Z) by (apply Z.pow_pos_nonneg; lia).
  pose proof OVERFLOW_pos as HM.
  unfold Num.pow2. rewrite (norm_finite (Qpower 2 a)).
  - cbn [Num.mul]. apply norm_finite.
    + apply Qlt_le_trans with (y := 0%Q).
      * apply (Qopp_lt_compat 0 Num.OVERFLOW) in HM. exact HM.
      * rewrite Hpow, <- inject_Z_mult. change 0%Q with (inject_Z 0).
        rewrite <- Zle_Qle. lia.
    + rewrite Hpow, <- inject_Z_mult. unfold Num.OVERFLOW. rewrite <- Zlt_Qlt. exact Hfin.
  - apply Qlt_trans with (y := 0%Q).
    + apply (Qopp_lt_compat 0 Num.OVERFLOW) in HM. exact HM.
    + rewrite Hpow. change 0%Q with (inject_Z 0). rewrite <- Zlt_Qlt. exact Hpos.
  - rewrite Hpow. unfold Num.OVERFLOW. rewrite <- Zlt_Qlt.
    apply Z.pow_lt_mono_r; lia.
Qed.

(** X29: While the largest base delay [retryInitialDelayMs * 2^retryMaxAttempts]
    is a finite double, every delay that [withRetry] waits between two
    calls is a whole number of milliseconds between 0 and
    [retryMaxDelayMs], whatever [Math.random()] returns. *)
Theorem retry_waits_stay_within_the_cap (now : Z) :
  (forall k, 0 <= random env k /\ random env k <= 1)%Q ->
  0 <= retryInitialDelayMs config ->
  0 <= retryMaxDelayMs config ->
  retryMaxAttempts config <= 1024 ->
  retryInitialDelayMs config * 2 ^ retryMaxAttempts config < 2 ^ 1024 ->
  Forall (fun w => Num.isNonNegInteger w
                   /\ Num.atMost w (inject_Z (retryMaxDelayMs config)))
         (waits (withRetry env fn config now)).
Proof.
  intros Hrandom Hinitial Hcap Hsmall Hfinite. unfold withRetry.
  destruct (retryEnabled config); cbn [negb]; [|constructor].
  destruct (Z_le_gt_dec (retryMaxAttempts config) 0) as [Hzero|Hpos].
  { replace (Z.to_nat (retryMaxAttempts config)) with O by lia. constructor. }
  destruct (loop_trace (Z.to_nat (retryMaxAttempts config)) 0 now [] [])
    as (calls & ws & _ & Hw & _ & _ & _ & _ & Hdel & _); [lia|].
  cbv zeta in *. cbn [app] in Hw. rewrite Hw.
  eapply Forall_impl; [exact Hdel|]. cbn. intros w (a & Ha & ->).
  destruct (Hrandom (Z.to_nat a)) as [Hr0 Hr1].
  unfold delayAfter.
  apply (backoff_bounded_while_finite (random env (Z.to_nat a))
           (inject_Z (retryInitialDelayMs config)) (inject_Z (retryMaxDelayMs config))
           (inject_Z (retryInitialDelayMs config) * Qpower 2 a)%Q a Hr0 Hr1).
  - change 0%Q with (inject_Z 0). rewrite <- Zle_Qle. exact Hinitial.
  - change 0%Q with (inject_Z 0). rewrite <- Zle_Qle. exact Hcap.
  - apply base_delay_finite; [exact Hinitial | lia |].
    apply Z.le_lt_trans with (m := retryInitialDelayMs config * 2 ^ retryMaxAttempts config);
      [|exact Hfinite].
    apply Z.mul_le_mono_nonneg_l; [exact Hinitial|].
    apply Z.pow_le_mono_r; lia.
Qed.

End RetryProperties.

(** ** Status codes: the retry classifier and the dispatcher's classifier *)

Section RetryStatus.

Import Retry.
Local Open Scope list_scope.

Lemma eqChar_refl (a : ascii) : Js.eqChar a a = true.
Proof. apply Ascii.eqb_refl. Qed.

Lemma startsWithL_map (f : ascii -> ascii) (p : list ascii) : forall l,
  Js.startsWithL p l = true -> Js.startsWithL (map f p) (map f l) = true.
Proof.
  induction p as [|a p IH]; intros l H; [reflexivity|].
  destruct l as [|b l]; [discriminate|]. cbn in H |- *.
  apply andb_true_iff in H as [Hab Hrest]. apply Ascii.eqb_eq in Hab. subst b.
  rewrite eqChar_refl. cbn. apply IH. exact Hrest.
Qed.

Lemma includesL_map (f : ascii -> ascii) (sub : list ascii) : forall l,
  Js.includesL l sub = true -> Js.includesL (map f l) (map f sub) = true.
Proof.
  induction l as [|a l IH]; intros H.
  - cbn in H |- *. rewrite orb_false_r in H |- *.
    apply (startsWithL_map f sub []). exact H.
  - cbn [Js.includesL] in H.
    change (Js.includesL (map f (a :: l)) (map f sub))
      with (Js.startsWithL (map f sub) (map f (a :: l)) || Js.includesL (map f l) (map f sub)).
    apply orb_true_iff in H as [H|H].
    + rewrite (startsWithL_map f sub (a :: l) H). reflexivity.
    + rewrite (IH H). apply orb_true_r.
Qed.

(** the captured group is made of three digits that stand in the message *)
Lemma findStatus_found : forall (l : list ascii) (prev : option ascii) (d : list ascii),
  findStatus prev l = Some d ->
  exists a b c, d = [a; b; c]
    /\ Js.isDigit a = true /\ Js.isDigit b = true /\ Js.isDigit c = true
    /\ Js.includesL l d = true.
Proof.
  induction l as [|a tail IH]; intros prev d H; [discriminate|].
  destruct tail as [|b [|c rest]]; [discriminate | discriminate |].
  change (findStatus prev (a :: b :: c :: rest))
    with (if Js.isDigit a && Js.isDigit b && Js.isDigit c
             && boundary prev && boundary (head rest)
          then Some [a; b; c]
          else findStatus (Some a) (b :: c :: rest)) in H.
  destruct (Js.isDigit a && Js.isDigit b && Js.isDigit c
            && boundary prev && boundary (head rest)) eqn:E.
  - injection H as <-.
    apply andb_true_iff in E as [E _]. apply andb_true_iff in E as [E _].
    apply andb_true_iff in E as [E Hc]. apply andb_true_iff in E as [Ha Hb].
    exists a, b, c. repeat (split; [assumption || reflexivity|]).
    cbn. rewrite !eqChar_refl. reflexivity.
  - destruct (IH (Some a) d H) as (x & y & z & -> & Hx & Hy & Hz & Hin).
    exists x, y, z. repeat (split; [assumption || reflexivity|]).
    change (Js.includesL (a :: b :: c :: rest) [x; y; z])
      with (Js.startsWithL [x; y; z] (a :: b :: c :: rest)
            || Js.includesL (b :: c :: rest) [x; y; z]).
    rewrite Hin. apply orb_true_r.
Qed.

Lemma digit_char (c : ascii) (v : Z) :
  Js.isDigit c = true -> digitValue c = v -> c = ascii_of_nat (Z.to_nat (v + 48)).
Proof.
  intros _ <-. unfold digitValue, Js.code.
  replace (Z.to_nat (Z.of_nat (nat_of_ascii c) - 48 + 48)) with (nat_of_ascii c) by lia.
  symmetry. apply ascii_nat_embedding.
Qed.

Lemma digit_range (c : ascii) : Js.isDigit c = true -> 0 <= digitValue c <= 9.
Proof.
  unfold Js.isDigit, digitValue. intros H. apply andb_true_iff in H as [H1 H2].
  apply Nat.leb_le in H1, H2. lia.
Qed.

(** a status code read off a message stands in the lower-cased message *)
Lemma status_in_message (message : string) (x y z : Z) :
  0 <= x <= 9 -> 0 <= y <= 9 -> 0 <= z <= 9 ->
  extractStatusCode message = Some (100 * x + 10 * y + z) ->
  Js.includesL (Js.chars (Js.toLowerCase message))
    (map Js.lowerChar [ascii_of_nat (Z.to_nat (x + 48)); ascii_of_nat (Z.to_nat (y + 48));
                       ascii_of_nat (Z.to_nat (z + 48))]) = true.
Proof.
  intros Hx Hy Hz H. unfold extractStatusCode in H.
  destruct (findStatus None (Js.chars message)) as [d|] eqn:E; [|discriminate].
  destruct (findStatus_found _ _ _ E) as (a & b & c & -> & Ha & Hb & Hc & Hin).
  cbn in H. injection H as H.
  pose proof (digit_range a Ha). pose proof (digit_range b Hb). pose proof (digit_range c Hc).
  assert (digitValue a = x /\ digitValue b = y /\ digitValue c = z) as (Ex & Ey & Ez) by lia.
  rewrite <- (digit_char a x Ha Ex), <- (digit_char b y Hb Ey), <- (digit_char c z Hc Ez).
  unfold Js.toLowerCase. rewrite chars_of_list.
  apply includesL_map. exact Hin.
Qed.

(** X30: The two error classifiers agree on status codes.  When the retry
    classifier reads the status 429 off an error message, the dispatcher's
    classifier sees a rate limit; when it reads 500, 502, 503 or 504, the
    dispatcher sees a transient error; in both cases the error is
    retried. *)
Theorem retry_status_agrees_with_dispatcher (message : string) (code : option string)
    (n : Z) :
  extractStatusCode message = Some n ->
  (n = 429 ->
   ErrorDetection.isRateLimitError (ErrorObj message code) = true
   /\ isRetryableError (ErrorObj message code) = true)
  /\ (In n [500; 502; 503; 504] ->
      ErrorDetection.isTransientError (ErrorObj message code) = true
      /\ isRetryableError (ErrorObj message code) = true).
Proof.
  intros Hstatus. split.
  - intros ->. split.
    + pose proof (status_in_message message 4 2 9) as H.
      specialize (H ltac:(lia) ltac:(lia) ltac:(lia) Hstatus).
      unfold ErrorDetection.isRateLimitError, ErrorDetection.RATE_LIMIT_MARKERS. cbv zeta.
      cbn [existsb]. unfold Js.includes at 1.
      change (Js.chars "429") with
        (map Js.lowerChar [ascii_of_nat (Z.to_nat (4 + 48)); ascii_of_nat (Z.to_nat (2 + 48));
                           ascii_of_nat (Z.to_nat (9 + 48))]).
      rewrite H. reflexivity.
    + unfold isRetryableError. cbv zeta. rewrite Hstatus.
      destruct (_ || _ || _ || _); reflexivity.
  - intros Hn. split.
    + assert (Hmark : exists x y z, 0 <= x <= 9 /\ 0 <= y <= 9 /\ 0 <= z <= 9
                        /\ n = 100 * x + 10 * y + z
                        /\ In (string_of_list_ascii
                                 (map Js.lowerChar
                                    [ascii_of_nat (Z.to_nat (x + 48));
                                     ascii_of_nat (Z.to_nat (y + 48));
                                     ascii_of_nat (Z.to_nat (z + 48))]))
                              ErrorDetection.TRANSIENT_MARKERS).
      { destruct Hn as [<-|[<-|[<-|[<-|[]]]]].
        - exists 5, 0, 0. repeat (split; [lia|]). cbn. tauto.
        - exists 5, 0, 2. repeat (split; [lia|]). cbn. tauto.
        - exists 5, 0, 3. repeat (split; [lia|]). cbn. tauto.
        - exists 5, 0, 4. repeat (split; [lia|]). cbn. tauto. }
      destruct Hmark as (x & y & z & Hx & Hy & Hz & -> & Hin).
      pose proof (status_in_message message x y z Hx Hy Hz Hstatus) as H.
      unfold ErrorDetection.isTransientError. cbv zeta.
      apply existsb_exists. eexists. split; [exact Hin|].
      unfold Js.includes. rewrite chars_of_list. exact H.
    + unfold isRetryableError. cbv zeta. rewrite Hstatus.
      destruct (_ || _ || _ || _); [reflexivity|].
      destruct Hn as [<-|[<-|[<-|[<-|[]]]]]; reflexivity.
Qed.

Lemma retry_status_agrees_witness :
  extractStatusCode "HTTP 429 Too Many Requests" = Some 429
  /\ ErrorDetection.isRateLimitError (ErrorObj "HTTP 429 Too Many Requests" None) = true
  /\ isRetryableError (ErrorObj "HTTP 429 Too Many Requests" None) = true.
Proof.
  split; [reflexivity|].
  exact (proj1 (retry_status_agrees_with_dispatcher "HTTP 429 Too Many Requests" None 429
                  eq_refl) eq_refl).
Defined.

End RetryStatus.

Section RetryRuns.

Import Retry.
Local Open Scope list_scope.

Lemma retry_gives_up_witness :
  let r := withRetry steady down DEFAULT_RESILIENCE_CONFIG 0 in
  outcome r = Throw (ErrorObj "Retry attempt 3/3 after 0ms" None)
  /\ startedAt r = [0; 1020; 3040]
  /\ cause r = Some (ErrorObj "HTTP 503 Service Unavailable" None).
Proof.
  cbv zeta. split; [|split; vm_compute; reflexivity].
  refine (proj1 (proj2 (proj2
            (retry_gives_up_after_max_attempts steady down DEFAULT_RESILIENCE_CONFIG 0 _ _ _)))).
  - reflexivity.
  - cbn. lia.
  - intros t. eexists. split; reflexivity.
Defined.

Lemma retry_stops_witness :
  let r := withRetry steady recovering DEFAULT_RESILIENCE_CONFIG 0 in
  outcome r = Ok 7%nat
  /\ startedAt r = [0; 1020; 3040]
  /\ (forall t, In t (removelast (startedAt r)) -> failsRetryably recovering t).
Proof.
  cbv zeta. split; [vm_compute; reflexivity|]. split; [vm_compute; reflexivity|].
  exact (proj1 (proj2 (proj2
           (retry_stops_at_the_first_final_answer steady recovering
              DEFAULT_RESILIENCE_CONFIG 0 eq_refl)))).
Defined.

Lemma retry_waits_witness :
  let r := withRetry steady down DEFAULT_RESILIENCE_CONFIG 0 in
  waits r = [Fin 1000; Fin 2000]
  /\ Forall (fun w => Num.isNonNegInteger w /\ Num.atMost w 10000) (waits r).
Proof.
  cbv zeta. split; [vm_compute; reflexivity|].
  refine (retry_waits_stay_within_the_cap steady down DEFAULT_RESILIENCE_CONFIG 0 _ _ _ _ _).
  - intros k. cbn. split; discriminate.
  - cbn. lia.
  - cbn. lia.
  - cbn. lia.
  - cbn [retryInitialDelayMs retryMaxAttempts DEFAULT_RESILIENCE_CONFIG].
    apply Z.ltb_lt. vm_compute. reflexivity.
Defined.

End RetryRuns.
